(** * Intl.js: the ECMA-402 abstract operations of [src/abstracts.js] and the
      shims of [src/globals.js], embedded as Rocq functions.

    Strings are 8-bit [string]s: language tags, option names and pattern
    placeholders are ASCII.  Numbers that the code uses as indices, scores or
    calendar fields are integers ([Z]); where the JavaScript code can produce
    [undefined] or [NaN] in their place the model says so with an [option]. *)

From Stdlib Require Import ZArith QArith Qround Ascii String List Bool Lia.
From stdpp Require Import base option list strings gmap pretty.

Close Scope Q_scope.
Open Scope string_scope.
Open Scope list_scope.
Open Scope Z_scope.

(* ================================================================== *)
(** * Part I: definitions                                              *)
(* ================================================================== *)

(** ** JavaScript values, exceptions and completions *)

(** Primitive values, as they are stored in Lists, Records and option bags. *)
Inductive prim :=
| PUndefined
| PNull
| PBool (b : bool)
| PNumber (n : Z)
| PString (s : string).

#[global] Instance prim_eq_dec : EqDecision prim.
Proof. solve_decision. Defined.

(** [a === b] on primitives. *)
Definition strict_eq (a b : prim) : bool := bool_decide (a = b).

(** [ToBoolean]. *)
Definition truthy (p : prim) : bool :=
  match p with
  | PUndefined | PNull => false
  | PBool b => b
  | PNumber n => negb (n =? 0)
  | PString s => negb (String.eqb s "")
  end.

(** Exceptions.  [HostTypeError] is a TypeError raised by the engine itself
    (a property read on [undefined], a built-in called on a missing
    receiver); the others are raised by [throw new ...] in the source,
    [PlainError] by [throw new Error(...)]. *)
Inductive exn :=
| HostTypeError
| PlainError (msg : string)
| TypeError (msg : string)
| RangeError (msg : string)
| ReferenceError (msg : string).

Inductive completion (A : Type) :=
| Normal (a : A)
| Throw (e : exn).
Arguments Normal {A} a.
Arguments Throw {A} e.

#[global] Instance completion_ret : MRet completion := fun _ a => Normal a.
#[global] Instance completion_bind : MBind completion := fun _ _ f c =>
  match c with
  | Normal a => f a
  | Throw e => Throw e
  end.

(** ** Strings *)

Module JS.

Definition is_upper (c : ascii) : bool :=
  let n := nat_of_ascii c in ((65 <=? n) && (n <=? 90))%nat.

Definition is_lower (c : ascii) : bool :=
  let n := nat_of_ascii c in ((97 <=? n) && (n <=? 122))%nat.

Definition lower_char (c : ascii) : ascii :=
  if is_upper c then ascii_of_nat (nat_of_ascii c + 32) else c.

Definition upper_char (c : ascii) : ascii :=
  if is_lower c then ascii_of_nat (nat_of_ascii c - 32) else c.

Fixpoint map_chars (f : ascii -> ascii) (s : string) : string :=
  match s with
  | EmptyString => EmptyString
  | String c s' => String (f c) (map_chars f s')
  end.

(** [s.toLowerCase()] and [s.toUpperCase()] on ASCII text, where the
    host changes the letters [A] to [Z] and [a] to [z] and nothing else.
    On other characters the host follows the Unicode mappings, which these
    definitions do not: statements about every text ask for ASCII text. *)
Definition toLowerCase : string -> string := map_chars lower_char.
Definition toUpperCase : string -> string := map_chars upper_char.

(** The first [n] characters of [s], and [s] without them. *)
Fixpoint take (n : nat) (s : string) : string :=
  match n, s with
  | S n', String c s' => String c (take n' s')
  | _, _ => EmptyString
  end.

Fixpoint drop (n : nat) (s : string) : string :=
  match n, s with
  | S n', String _ s' => drop n' s'
  | _, _ => s
  end.

(** [s.substring(from, to)]: both ends are clamped to [0, length] and
    swapped when they come in the wrong order. *)
Definition clamp (len i : Z) : Z := Z.max 0 (Z.min i len).

Definition substring (s : string) (from to : Z) : string :=
  let len := Z.of_nat (String.length s) in
  let a := clamp len from in
  let b := clamp len to in
  let lo := Z.min a b in
  let hi := Z.max a b in
  take (Z.to_nat (hi - lo)) (drop (Z.to_nat lo) s).

(** [s.substring(from)]. *)
Definition substring_from (s : string) (from : Z) : string :=
  substring s from (Z.of_nat (String.length s)).

(** [s.charAt(i)]: the empty string outside the text. *)
Definition charAt (s : string) (i : Z) : string :=
  if i <? 0 then ""
  else match String.get (Z.to_nat i) s with
       | Some c => String c ""
       | None => ""
       end.

(** [s.slice(1)]. *)
Definition slice1 (s : string) : string := drop 1 s.

(** [s.lastIndexOf(c)] for a one-character [c]: [-1] when absent. *)
Fixpoint lastIndexOf_from (c : ascii) (s : string) (i : Z) : Z :=
  match s with
  | EmptyString => -1
  | String a s' =>
      let r := lastIndexOf_from c s' (i + 1) in
      if 0 <=? r then r else if Ascii.eqb a c then i else -1
  end.

Definition lastIndexOf (c : ascii) (s : string) : Z := lastIndexOf_from c s 0.

(** [s.indexOf(sub)]: [-1] when absent. *)
Definition indexOf (sub s : string) : Z :=
  match String.index 0 sub s with
  | Some i => Z.of_nat i
  | None => -1
  end.

(** [s.split(c)]: never empty, [""] splits into [[""]]. *)
Fixpoint split (c : ascii) (s : string) : list string :=
  match s with
  | EmptyString => [EmptyString]
  | String a s' =>
      if Ascii.eqb a c then EmptyString :: split c s'
      else match split c s' with
           | p :: ps => String a p :: ps
           | [] => [String a EmptyString]
           end
  end.

(** [arrJoin.call(parts, sep)]. *)
Fixpoint join (sep : string) (parts : list string) : string :=
  match parts with
  | [] => ""
  | [p] => p
  | p :: ps => p +:+ sep +:+ join sep ps
  end.

(** [s.replace(pat, by)] with a string pattern: the first occurrence only.
    The replacement is put in as it is: the host expands [$&], [$$] and the
    like in it, so this is [replace] for a replacement without [$]. *)
Definition replace (pat by_ s : string) : string :=
  match String.index 0 pat s with
  | Some i => take i s +:+ by_ +:+ drop (i + String.length pat) s
  | None => s
  end.

End JS.

(** ** Regular expressions

    A pattern is modelled by what it matches at the head of a text: the
    length of the match that starts there, if any.  This covers patterns
    without anchors, which see only the text from the match position on
    (ES5 patterns cannot look behind).  The patterns of this program never
    match the empty string; an empty match counts as no match. *)

Definition regexp := string -> option nat.

Module RegExp.

(** [s.match(re)] for a global [re]: all matches, left to right, without
    overlap ([[]] stands for [null]). *)
Fixpoint match_all_from (re : regexp) (skip : nat) (s : string) : list string :=
  match s with
  | EmptyString => []
  | String _ s' =>
      match skip with
      | S k => match_all_from re k s'
      | O =>
          match re s with
          | Some (S n) => JS.take (S n) s :: match_all_from re n s'
          | _ => match_all_from re 0 s'
          end
      end
  end.

Definition match_all (re : regexp) (s : string) : list string :=
  match_all_from re 0 s.

(** [s.replace(re, by)] for a global [re]: every match is replaced. *)
Fixpoint replace_all_from (re : regexp) (by_ : string) (skip : nat) (s : string) : string :=
  match s with
  | EmptyString => EmptyString
  | String c s' =>
      match skip with
      | S k => replace_all_from re by_ k s'
      | O =>
          match re s with
          | Some (S n) => by_ +:+ replace_all_from re by_ n s'
          | _ => String c (replace_all_from re by_ 0 s')
          end
      end
  end.

Definition replace_all (re : regexp) (by_ s : string) : string :=
  replace_all_from re by_ 0 s.

(** [s.replace(re, by)] for a [re] without the global flag: the first
    match only. *)
Fixpoint replace_first (re : regexp) (by_ s : string) : string :=
  match s with
  | EmptyString => EmptyString
  | String c s' =>
      match re s with
      | Some (S n) => by_ +:+ JS.drop (S n) s
      | _ => String c (replace_first re by_ s')
      end
  end.

(** [RegExp('(?:' + re.source + ')+')]: one or more matches of [re] in a
    row, as many as there are. *)
Fixpoint plus_fuel (re : regexp) (fuel : nat) (s : string) : option nat :=
  match fuel with
  | O => None
  | S fuel' =>
      match re s with
      | Some (S n) =>
          match plus_fuel re fuel' (JS.drop (S n) s) with
          | Some m => Some (S n + m)%nat
          | None => Some (S n)
          end
      | _ => None
      end
  end.

Definition plus (re : regexp) : regexp :=
  fun s => plus_fuel re (String.length s) s.

End RegExp.

(** ** The host and the modules that the source relies on *)

(** The subtag registry of [bcp47.js] ([redundantTags]). *)
Record registry := {
  tags : gmap string string;
  subtags : gmap string string;
  extLang : gmap string (string * string)
}.

(** What [abstracts.js] takes from its environment: whether the host has
    [Array.prototype.indexOf] (otherwise [globals.js] supplies its own),
    the patterns and the registry of [bcp47.js], and the default locale,
    which is [undefined] until locale data has been added. *)
Record env := {
  native_indexOf : bool;
  expBCP47Syntax : string -> bool;
  expVariantDupes : string -> bool;
  expSingletonDupes : string -> bool;
  expExtSequences : regexp;
  expUnicodeExSeq : regexp;
  redundantTags : registry;
  defaultLocale : option string
}.

(** ** [globals.js]: [arrIndexOf] *)

(** [t[i]] on an array-like: [undefined] outside its elements. *)
Definition get_index (t : list prim) (i : Z) : prim :=
  if i <? 0 then PUndefined else default PUndefined (t !! Z.to_nat i).

(** The [for] loop of the fallback: [n] iterations remain, [i] is the loop
    variable.  When the loop runs out the function ends without a [return]
    and the call yields [undefined] ([None]). *)
Fixpoint shim_scan (t : list prim) (search : prim) (n : nat) (i : Z) : option Z :=
  match n with
  | O => None
  | S n' =>
      if strict_eq (get_index t i) search then Some i
      else shim_scan t search n' (i + 1)
  end.

(** The fallback of [globals.js], called on the array-like [t] with
    [search] and an optional start index ([arguments[1] || 0]). *)
Definition arrIndexOf_shim (t : list prim) (search : prim) (fromIndex : option Z) : option Z :=
  if (length t =? 0)%nat then Some (-1)
  else
    let i := match fromIndex with
             | Some n => if n =? 0 then 0 else n
             | None => 0
             end in
    let max := Z.of_nat (length t) in
    shim_scan t search (Z.to_nat (max - i)) i.

(** The built-in [Array.prototype.indexOf] (ES5 15.4.4.14): the index of
    the first element strictly equal to [search] at or after the start
    index, [-1] when there is none.  A negative start index counts from the
    end. *)
Fixpoint first_index_from (t : list prim) (search : prim) (n : nat) (k : Z) : Z :=
  match n with
  | O => -1
  | S n' =>
      if strict_eq (get_index t k) search then k
      else first_index_from t search n' (k + 1)
  end.

Definition builtin_indexOf (t : list prim) (search : prim) (fromIndex : option Z) : option Z :=
  let len := Z.of_nat (length t) in
  if len =? 0 then Some (-1)
  else
    let n := default 0 fromIndex in
    if len <=? n then Some (-1)
    else
      let k := if 0 <=? n then n else Z.max (len - Z.abs n) 0 in
      Some (first_index_from t search (Z.to_nat (len - k)) k).

(** [arrIndexOf = Array.prototype.indexOf || function (search) {...}],
    called as [arrIndexOf.call(t, search, fromIndex)]. *)
Definition arrIndexOf (E : env) (t : list prim) (search : prim) (fromIndex : option Z) : option Z :=
  if native_indexOf E then builtin_indexOf t search fromIndex
  else arrIndexOf_shim t search fromIndex.

(** [arrIndexOf(a, b)] called as a plain function.  The merged program is
    strict code (["use strict"] heads [globals.js], the first file that
    [build.js] merges), so [this] is [undefined]: the built-in throws a
    TypeError when it converts the receiver to an object, the fallback when
    it reads [t.length], both before any argument is looked at. *)
Definition arrIndexOf_no_receiver (E : env) : completion (option Z) :=
  if native_indexOf E then Throw HostTypeError else Throw HostTypeError.

(** A List of strings as an array-like of primitives. *)
Definition List_of (l : list string) : list prim := PString <$> l.

(** Tests on a result of [arrIndexOf], a number or [undefined]:
    [r > -1], [r === -1] and [r !== -1]. *)
Definition gt_minus_one (r : option Z) : bool :=
  match r with
  | Some n => -1 <? n
  | None => false
  end.

Definition is_minus_one (r : option Z) : bool :=
  match r with
  | Some n => n =? -1
  | None => false
  end.

Definition not_minus_one (r : option Z) : bool := negb (is_minus_one r).

(** ** [abstracts.js], section 9.2: locale negotiation *)

(** 9.2.2, steps b-d: where the candidate is cut.  [pos] is the index of
    its last ["-"]; when a ["-"] also sits two characters before it, the
    cut moves there. *)
Definition truncation_point (candidate : string) (pos : Z) : Z :=
  if (2 <=? pos) && String.eqb (JS.charAt candidate (pos - 2)) "-"
  then pos - 2 else pos.

(** 9.2.2, the [while (true)] loop.  The outer [None] means that the loop
    did not reach a [return] within [fuel] iterations; inside, [None] is
    [undefined]. *)
Fixpoint BestAvailableLocale_loop (E : env) (fuel : nat)
    (availableLocales : list string) (candidate : string) : option (option string) :=
  match fuel with
  | O => None
  | S fuel' =>
      if gt_minus_one (arrIndexOf E (List_of availableLocales) (PString candidate) None)
      then Some (Some candidate)
      else
        let pos := JS.lastIndexOf "-" candidate in
        if pos <? 0 then Some None
        else
          let pos := truncation_point candidate pos in
          BestAvailableLocale_loop E fuel' availableLocales (JS.substring candidate 0 pos)
  end.

(** 9.2.2.  Every iteration shortens the candidate, so one more iteration
    than the tag has characters is enough (see [BestAvailableLocale_loop_returns]). *)
Definition BestAvailableLocale (E : env) (availableLocales : list string)
    (locale : string) : option string :=
  match BestAvailableLocale_loop E (S (String.length locale)) availableLocales locale with
  | Some r => r
  | None => None
  end.

(** The Record that the matchers return. *)
Record match_record := {
  mr_locale : option string;            (* [[locale]], [undefined] when there is no default *)
  mr_extension : option (string * Z)    (* [[extension]] and [[extensionIndex]], set together *)
}.

(** [!availableLocale]: [undefined] and [""] are both falsy. *)
Definition falsy_locale (a : option string) : bool :=
  match a with
  | None => true
  | Some s => String.eqb s ""
  end.

(** 9.2.3, step 4.  The loop variables are function-scoped: after the
    loop they hold what the last iteration left ([vars] is
    [(locale, noExtensionsLocale)], [None] before the first iteration). *)
Fixpoint LookupMatcher_loop (E : env) (availableLocales rest : list string)
    (vars : option (string * string)) (availableLocale : option string)
    : option (string * string) * option string :=
  match rest with
  | [] => (vars, availableLocale)
  | locale :: rest' =>
      if falsy_locale availableLocale then
        let noExtensionsLocale := RegExp.replace_all (expUnicodeExSeq E) "" locale in
        let availableLocale := BestAvailableLocale E availableLocales noExtensionsLocale in
        LookupMatcher_loop E availableLocales rest' (Some (locale, noExtensionsLocale)) availableLocale
      else (vars, availableLocale)
  end.

(** 9.2.3. *)
Definition LookupMatcher (E : env) (availableLocales requestedLocales : list string)
    : completion match_record :=
  match LookupMatcher_loop E availableLocales requestedLocales None None with
  | (vars, Some availableLocale) =>
      match vars with
      | Some (locale, noExtensionsLocale) =>
          if negb (String.eqb locale noExtensionsLocale) then
            match RegExp.match_all (expUnicodeExSeq E) locale with
            | extension :: _ =>
                let extensionIndex := JS.indexOf "-u-" locale in
                Normal {| mr_locale := Some availableLocale;
                          mr_extension := Some (extension, extensionIndex) |}
            | [] => Throw HostTypeError     (* [null[0]] *)
            end
          else Normal {| mr_locale := Some availableLocale; mr_extension := None |}
      | None => Normal {| mr_locale := Some availableLocale; mr_extension := None |}
      end
  | (_, None) => Normal {| mr_locale := defaultLocale E; mr_extension := None |}
  end.

(** 9.2.4. *)
Definition BestFitMatcher (E : env) (availableLocales requestedLocales : list string)
    : completion match_record :=
  LookupMatcher E availableLocales requestedLocales.

(** The internal-slot name ['[[' + key + ']]']. *)
Definition slot (key : string) : string := "[[" +:+ key +:+ "]]".

(** [o[k]] on a Record: [undefined] for a missing field. *)
Definition get_field (o : gmap string prim) (k : string) : prim :=
  default PUndefined (o !! k).

(** The property name under which [localeData[foundLocale]] is read. *)
Definition locale_key (foundLocale : option string) : string :=
  default "undefined" foundLocale.

(** 9.2.5, step 11.g.ii.1: the test
    [keyPos + 1 < extensionSubtagsLength && extensionSubtags[keyPos + 1].length > 2]
    and, when it holds, [requestedValue].  With [keyPos] [undefined] the
    sum is [NaN] and the test fails. *)
Definition requested_value (extensionSubtags : list string) (keyPos : option Z) : option string :=
  match keyPos with
  | None => None
  | Some keyPos =>
      if keyPos + 1 <? Z.of_nat (length extensionSubtags) then
        match extensionSubtags !! Z.to_nat (keyPos + 1) with
        | Some requestedValue =>
            if 2 <? Z.of_nat (String.length requestedValue) then Some requestedValue else None
        | None => None
        end
      else None
  end.

(** 9.2.5, steps 11.a-11.i for one key: the value of the key and the
    addition to the supported extension.  [extensionSubtags] is [None]
    when the matcher found no extension. *)
Definition ResolveLocale_key (E : env) (extensionSubtags : option (list string))
    (options : gmap string prim)
    (foundLocaleData : option (gmap string (list string)))
    (key : string) : completion (prim * string) :=
  match foundLocaleData with
  | None => Throw HostTypeError                     (* [undefined[key]] *)
  | Some foundLocaleData =>
  match foundLocaleData !! key with
  | None => Throw HostTypeError                     (* [undefined['0']] *)
  | Some keyLocaleData =>
      let value := get_index (List_of keyLocaleData) 0 in
      let supportedExtensionAddition := "" in
      '(value, supportedExtensionAddition) ←
        match extensionSubtags with
        | None => Normal (value, supportedExtensionAddition)
        | Some extensionSubtags =>
            let keyPos := arrIndexOf E (List_of extensionSubtags) (PString key) None in
            if not_minus_one keyPos then
              match requested_value extensionSubtags keyPos with
              | Some requestedValue =>
                  let valuePos := arrIndexOf E (List_of keyLocaleData) (PString requestedValue) None in
                  if not_minus_one valuePos
                  then Normal (PString requestedValue, "-" +:+ key +:+ "-" +:+ requestedValue)
                  else Normal (value, supportedExtensionAddition)
              | None =>
                  (* [indexOf(keyLocaleData, 'true')] *)
                  valuePos ← arrIndexOf_no_receiver E;
                  if not_minus_one valuePos
                  then Normal (PString "true", supportedExtensionAddition)
                  else Normal (value, supportedExtensionAddition)
              end
            else Normal (value, supportedExtensionAddition)
        end;
      match options !! slot key with
      | Some optionsValue =>
          if not_minus_one (arrIndexOf E (List_of keyLocaleData) optionsValue None)
          then if negb (strict_eq optionsValue value)
               then Normal (optionsValue, "")
               else Normal (value, supportedExtensionAddition)
          else Normal (value, supportedExtensionAddition)
      | None => Normal (value, supportedExtensionAddition)
      end
  end
  end.

(** 9.2.5, step 11: the loop over [relevantExtensionKeys], threading
    [result] and [supportedExtension]. *)
Fixpoint ResolveLocale_loop (E : env) (extensionSubtags : option (list string))
    (options : gmap string prim)
    (foundLocaleData : option (gmap string (list string)))
    (keys : list string) (result : gmap string prim) (supportedExtension : string)
    : completion (gmap string prim * string) :=
  match keys with
  | [] => Normal (result, supportedExtension)
  | key :: keys' =>
      '(value, supportedExtensionAddition) ←
        ResolveLocale_key E extensionSubtags options foundLocaleData key;
      ResolveLocale_loop E extensionSubtags options foundLocaleData keys'
        (<[slot key := value]> result)
        (supportedExtension +:+ supportedExtensionAddition)
  end.

Definition prim_of_locale (l : option string) : prim :=
  match l with
  | Some s => PString s
  | None => PUndefined
  end.

(** 9.2.5. *)
Definition ResolveLocale (E : env) (availableLocales requestedLocales : list string)
    (options : gmap string prim) (relevantExtensionKeys : list string)
    (localeData : gmap string (gmap string (list string)))
    : completion (gmap string prim) :=
  if (length availableLocales =? 0)%nat then
    Throw (ReferenceError "No locale data has been provided for this object yet.")
  else
    let matcher := get_field options "[[localeMatcher]]" in
    r ← (if strict_eq matcher (PString "lookup")
         then LookupMatcher E availableLocales requestedLocales
         else BestFitMatcher E availableLocales requestedLocales);
    let foundLocale := mr_locale r in
    let extensionSubtags := (fun x => JS.split "-" (fst x)) <$> mr_extension r in
    let extensionIndex := snd <$> mr_extension r in
    let result : gmap string prim := <["[[dataLocale]]" := prim_of_locale foundLocale]> ∅ in
    let supportedExtension := "-u" in
    '(result, supportedExtension) ←
      ResolveLocale_loop E extensionSubtags options (localeData !! locale_key foundLocale)
        relevantExtensionKeys result supportedExtension;
    foundLocale ←
      (if 2 <? Z.of_nat (String.length supportedExtension) then
         match foundLocale with
         | None => Throw HostTypeError              (* [undefined.substring] *)
         | Some foundLocale =>
             let preExtension :=
               match extensionIndex with
               | Some i => JS.substring foundLocale 0 i
               | None => foundLocale
               end in
             let postExtension :=
               match extensionIndex with
               | Some i => JS.substring_from foundLocale i
               | None => foundLocale
               end in
             Normal (Some (preExtension +:+ supportedExtension +:+ postExtension))
         end
       else Normal foundLocale);
    Normal (<["[[locale]]" := prim_of_locale foundLocale]> result).

(** ** 9.2.2 in the words of its description

    The candidate is returned when it is available; otherwise it is cut at
    its last ["-"], and two characters earlier when another ["-"] sits
    there (the cut then also drops the one-character subtag in between);
    without a ["-"] there is no match. *)

Definition dash : ascii := "-"%char.

Definition last_separator (s : string) (pos : nat) : Prop :=
  String.get pos s = Some dash /\
  forall i, (pos < i)%nat -> String.get i s <> Some dash.

Definition no_separator (s : string) : Prop :=
  forall i, String.get i s <> Some dash.

Definition after_short_segment (s : string) (pos : nat) : Prop :=
  (2 <= pos)%nat /\ String.get (pos - 2) s = Some dash.

Inductive truncates_to (s : string) : string -> Prop :=
| truncate_at_separator pos :
    last_separator s pos -> ~ after_short_segment s pos ->
    truncates_to s (JS.take pos s)
| truncate_before_segment pos :
    last_separator s pos -> after_short_segment s pos ->
    truncates_to s (JS.take (pos - 2) s).

Inductive best_available (availableLocales : list string) : string -> option string -> Prop :=
| best_present candidate :
    candidate ∈ availableLocales ->
    best_available availableLocales candidate (Some candidate)
| best_no_match candidate :
    candidate ∉ availableLocales -> no_separator candidate ->
    best_available availableLocales candidate None
| best_shorter candidate shorter r :
    candidate ∉ availableLocales -> truncates_to candidate shorter ->
    best_available availableLocales shorter r ->
    best_available availableLocales candidate r.

(** ** [abstracts.js], section 6.2: language tags *)

(** 6.2.2 *)
Definition IsStructurallyValidLanguageTag (E : env) (locale : string) : bool :=
  if negb (expBCP47Syntax E locale) then false
  else if expVariantDupes E locale then false
  else if expSingletonDupes E locale then false
  else true.

(** 6.2.3, the first [for] loop: [n] iterations remain, [i] is the loop
    variable, [parts] the array that the loop updates in place. *)
Fixpoint case_loop (n i : nat) (parts : list string) : list string :=
  match n with
  | O => parts
  | S n' =>
      match parts !! i with
      | None => parts
      | Some p =>
          if (String.length p =? 2)%nat then
            case_loop n' (S i) (<[i := JS.toUpperCase p]> parts)
          else if (String.length p =? 4)%nat then
            case_loop n' (S i)
              (<[i := JS.toUpperCase (JS.charAt p 0) +:+ JS.slice1 p]> parts)
          else if (String.length p =? 1)%nat && negb (String.eqb p "x") then
            parts                                          (* [break] *)
          else case_loop n' (S i) parts
      end
  end.

(** 6.2.3, lines 65-85: the tag in lower case, then the case of its
    subtags regularized. *)
Definition regularize_case (locale : string) : string :=
  let locale := JS.toLowerCase locale in
  let parts := JS.split "-" locale in
  let max := length parts in
  JS.join "-" (case_loop (max - 1) 1 parts).

(** [match.sort()]: the default order of strings, by character code. *)
Fixpoint sort_insert (x : string) (l : list string) : list string :=
  match l with
  | [] => [x]
  | y :: l' => if String.leb x y then x :: l else y :: sort_insert x l'
  end.

Definition sort (l : list string) : list string := foldr sort_insert [] l.

(** 6.2.3, step 1 (lines 91-100).  The run of sequences is searched with
    the same pattern, as the source builds it from [expExtSequences.source]. *)
Definition sort_extensions (E : env) (locale : string) : string :=
  let match_ := RegExp.match_all (expExtSequences E) locale in
  if (1 <? length match_)%nat then
    RegExp.replace_first (RegExp.plus (expExtSequences E))
      (JS.join "" (sort match_)) locale
  else locale.

(** 6.2.3, step 2. *)
Definition replace_redundant_tag (E : env) (locale : string) : string :=
  match tags (redundantTags E) !! locale with
  | Some preferred => preferred
  | None => locale
  end.

(** 6.2.3, step 3, the second [for] loop: [n] iterations remain; the loop
    variables are [i], [max] and [parts].  Removing a redundant prefix
    replaces [parts] by [arrSlice.call(parts, i++)] and lowers [max]; the
    loop then adds its own [i++]. *)
Fixpoint subtag_loop (E : env) (n i max : nat) (parts : list string)
    : completion (list string) :=
  match n with
  | O => Normal parts
  | S n' =>
      if (i <? max)%nat then
        let part := default "undefined" (parts !! i) in
        match subtags (redundantTags E) !! part with
        | Some preferred =>
            subtag_loop E n' (S i) max (<[i := preferred]> parts)
        | None =>
            match extLang (redundantTags E) !! part with
            | Some (preferred, _) =>
                let parts := <[i := preferred]> parts in
                if (i =? 1)%nat then
                  match extLang (redundantTags E) !! default "undefined" (parts !! 1%nat) with
                  | None => Throw HostTypeError              (* [undefined[1]] *)
                  | Some (_, prefix) =>
                      if bool_decide (Some prefix = parts !! 0%nat) then
                        subtag_loop E n' (S (S i)) (max - 1) (List.skipn i parts)
                      else subtag_loop E n' (S i) max parts
                  end
                else subtag_loop E n' (S i) max parts
            | None => subtag_loop E n' (S i) max parts
            end
        end
      else Normal parts
  end.

(** 6.2.3 *)
Definition CanonicalizeLanguageTag (E : env) (locale : string) : completion string :=
  let locale := regularize_case locale in
  let locale := sort_extensions E locale in
  let locale := replace_redundant_tag E locale in
  let parts := JS.split "-" locale in
  let max := length parts in
  parts ← subtag_loop E max 1 max parts;
  Normal (JS.join "-" parts).

(** ** [bcp47.js]: the patterns, modelled

    [bcp47.js] is not among the source files at hand.  Its patterns are
    modelled here from their description; they serve as a concrete
    environment in which the operations above can be run. *)

Module Bcp47.

Definition is_digit (c : ascii) : bool :=
  let n := nat_of_ascii c in ((48 <=? n) && (n <=? 57))%nat.

Definition is_alpha (c : ascii) : bool := JS.is_lower c || JS.is_upper c.

Definition is_alphanum (c : ascii) : bool := is_alpha c || is_digit c.

Fixpoint all_chars (f : ascii -> bool) (s : string) : bool :=
  match s with
  | EmptyString => true
  | String c s' => f c && all_chars f s'
  end.

Definition len_between (lo hi : nat) (s : string) : bool :=
  ((lo <=? String.length s) && (String.length s <=? hi))%nat.

(** A singleton: one letter or digit other than [x]. *)
Definition is_singleton_char (c : ascii) : bool :=
  is_alphanum c && negb (Ascii.eqb (JS.lower_char c) "x").

(** The number of letters and digits at the head of [s], at most [max]. *)
Fixpoint count_alphanum (max : nat) (s : string) : nat :=
  match max, s with
  | S max', String c s' => if is_alphanum c then S (count_alphanum max' s') else O
  | _, _ => O
  end.

(** The length of the longest run of subtags ["-" 2*8alphanum] at the head
    of [s]. *)
Fixpoint subtag_run (fuel : nat) (s : string) : nat :=
  match fuel, s with
  | S fuel', String c s' =>
      if Ascii.eqb c "-" then
        let k := count_alphanum 8 s' in
        if (2 <=? k)%nat then (1 + k + subtag_run fuel' (JS.drop k s'))%nat else O
      else O
  | _, _ => O
  end.

(** Modelled from the spec: [expExtSequences], the pattern that matches an
    extension sequence, a ["-"], a singleton and the subtags of two to
    eight letters or digits that follow it (at least one); all matches are
    found. *)
Definition expExtSequences : regexp := fun s =>
  match s with
  | String d (String c s') =>
      if Ascii.eqb d "-" && is_singleton_char c then
        match subtag_run (String.length s') s' with
        | O => None
        | S r => Some (2 + S r)%nat
        end
      else None
  | _ => None
  end.

(** Modelled from the spec: [expUnicodeExSeq], the pattern that matches a
    Unicode locale extension sequence, the singleton [u] and the subtags
    that follow it; all matches are found. *)
Definition expUnicodeExSeq : regexp := fun s =>
  match s with
  | String d (String c s') =>
      if Ascii.eqb d "-" && Ascii.eqb (JS.lower_char c) "u" then
        match subtag_run (String.length s') s' with
        | O => None
        | S r => Some (2 + S r)%nat
        end
      else None
  | _ => None
  end.

(** The shapes of subtags in the grammar of RFC 5646, section 2.1. *)
Definition is_language (s : string) : bool := all_chars is_alpha s && len_between 2 8 s.
Definition is_extlang (s : string) : bool := all_chars is_alpha s && len_between 3 3 s.
Definition is_script (s : string) : bool := all_chars is_alpha s && len_between 4 4 s.
Definition is_region (s : string) : bool :=
  (all_chars is_alpha s && len_between 2 2 s) || (all_chars is_digit s && len_between 3 3 s).
Definition is_variant (s : string) : bool :=
  (all_chars is_alphanum s && len_between 5 8 s) ||
  (all_chars is_alphanum s && len_between 4 4 s &&
   match s with String c _ => is_digit c | EmptyString => false end).
Definition is_singleton (s : string) : bool :=
  match s with
  | String c EmptyString => is_singleton_char c
  | _ => false
  end.
Definition is_extension_subtag (s : string) : bool := all_chars is_alphanum s && len_between 2 8 s.
Definition is_private_subtag (s : string) : bool := all_chars is_alphanum s && len_between 1 8 s.

(** The subtags at the head of [l] that satisfy [f], at most [max], and
    the rest. *)
Fixpoint take_while (f : string -> bool) (max : nat) (l : list string) : list string * list string :=
  match max, l with
  | S max', x :: l' =>
      if f x then let '(a, b) := take_while f max' l' in (x :: a, b) else ([], l)
  | _, _ => ([], l)
  end.

(** The extension part: each singleton with its subtags.  Returns the
    singletons met and what follows the extensions, or [None] when a
    singleton has no subtag. *)
Fixpoint parse_extensions (fuel : nat) (l : list string) : option (list string * list string) :=
  match fuel, l with
  | S fuel', x :: l' =>
      if is_singleton x then
        match take_while is_extension_subtag (length l') l' with
        | ([], _) => None
        | (_, rest) =>
            match parse_extensions fuel' rest with
            | Some (singletons, rest') => Some (x :: singletons, rest')
            | None => None
            end
        end
      else Some ([], l)
  | _, _ => Some ([], l)
  end.

(** The private-use part: [x] and at least one subtag, to the end. *)
Definition parse_privateuse (l : list string) : bool :=
  match l with
  | [] => true
  | x :: l' =>
      String.eqb x "x" &&
      match take_while is_private_subtag (length l') l' with
      | (_ :: _, []) => true
      | _ => false
      end
  end.

(** A tag of the [langtag] form, taken apart: its variants and its
    singletons, the subtags that must not repeat. *)
Record langtag := { variants : list string; singletons : list string }.

Definition parse_langtag (tag : string) : option langtag :=
  match JS.split "-" (JS.toLowerCase tag) with
  | [] => None
  | language :: l =>
      if is_language language then
        let l := if len_between 2 3 language
                 then snd (take_while is_extlang 3 l) else l in
        let l := snd (take_while is_script 1 l) in
        let l := snd (take_while is_region 1 l) in
        let '(vs, l) := take_while is_variant (length l) l in
        match parse_extensions (length l) l with
        | Some (ss, l) =>
            if parse_privateuse l then Some {| variants := vs; singletons := ss |} else None
        | None => None
        end
      else None
  end.

Definition grandfathered : list string :=
  [ "en-gb-oed"; "i-ami"; "i-bnn"; "i-default"; "i-enochian"; "i-hak";
    "i-klingon"; "i-lux"; "i-mingo"; "i-navajo"; "i-pwn"; "i-tao"; "i-tay";
    "i-tsu"; "sgn-be-fr"; "sgn-be-nl"; "sgn-ch-de";
    "art-lojban"; "cel-gaulish"; "no-bok"; "no-nyn"; "zh-guoyu"; "zh-hakka";
    "zh-min"; "zh-min-nan"; "zh-xiang" ].

(** Modelled from the spec: [expBCP47Syntax], the pattern that recognizes
    a structurally valid tag per the grammar: language, optional extlang,
    script and region, variants, extensions and private use; a tag that is
    private use only; or one of the grandfathered tags of the RFC.  Case
    does not matter. *)
Definition expBCP47Syntax (tag : string) : bool :=
  let lower := JS.toLowerCase tag in
  match parse_langtag tag with Some _ => true | None => false end
  || match JS.split "-" lower with
     | x :: l => String.eqb x "x" && parse_privateuse (x :: l)
     | [] => false
     end
  || bool_decide (lower ∈ grandfathered).

Fixpoint has_duplicates (l : list string) : bool :=
  match l with
  | [] => false
  | x :: l' => bool_decide (x ∈ l') || has_duplicates l'
  end.

(** Modelled from the spec: [expVariantDupes], the pattern that detects
    duplicate variant subtags. *)
Definition expVariantDupes (tag : string) : bool :=
  match parse_langtag tag with
  | Some t => has_duplicates (variants t)
  | None => false
  end.

(** Modelled from the spec: [expSingletonDupes], the pattern that detects
    duplicate singleton (extension) subtags. *)
Definition expSingletonDupes (tag : string) : bool :=
  match parse_langtag tag with
  | Some t => has_duplicates (singletons t)
  | None => false
  end.

End Bcp47.

(** The environment with the modelled patterns: the host's [indexOf], the
    registry and the default locale remain to be chosen. *)
Definition modelled_env (native : bool) (R : registry) (default_locale : option string) : env :=
  {| native_indexOf := native;
     expBCP47Syntax := Bcp47.expBCP47Syntax;
     expVariantDupes := Bcp47.expVariantDupes;
     expSingletonDupes := Bcp47.expSingletonDupes;
     expExtSequences := Bcp47.expExtSequences;
     expUnicodeExSeq := Bcp47.expUnicodeExSeq;
     redundantTags := R;
     defaultLocale := default_locale |}.

(** A small registry in the shape of [redundantTags]: one redundant tag,
    one deprecated region and one extended language with its prefix. *)
Definition sample_registry : registry :=
  {| tags := {[ "art-lojban" := "jbo" ]};
     subtags := {[ "BU" := "MM" ]};
     extLang := {[ "yue" := ("yue", "zh") ]} |}.

Definition empty_registry : registry :=
  {| tags := ∅; subtags := ∅; extLang := ∅ |}.

(** ** 6.2.3, the case of the subtags, in the words of its description

    After the first subtag: a subtag of two characters in upper case, one
    of four characters with a capital first letter; from the first
    singleton other than [x] on, nothing changes. *)

Definition titlecase (p : string) : string :=
  match p with
  | EmptyString => EmptyString
  | String c s => String (JS.upper_char c) s
  end.

Definition special_case (p : string) : string :=
  if (String.length p =? 2)%nat then JS.toUpperCase p
  else if (String.length p =? 4)%nat then titlecase p
  else p.

Definition stops_casing (p : string) : bool :=
  (String.length p =? 1)%nat && negb (String.eqb p "x").

Fixpoint case_subtags (rest : list string) : list string :=
  match rest with
  | [] => []
  | p :: rest' =>
      if stops_casing p then p :: rest'
      else special_case p :: case_subtags rest'
  end.

Definition canonical_case (tag : string) : string :=
  match JS.split "-" (JS.toLowerCase tag) with
  | first :: rest => JS.join "-" (first :: case_subtags rest)
  | [] => ""
  end.

(** ** [abstracts.js], section 12: date and time formats *)

(** Table 3, [dateTimeComponents], in the order of its properties. *)
Definition dateTimeComponents : list (string * list string) :=
  [ ("weekday", ["narrow"; "short"; "long"]);
    ("era", ["narrow"; "short"; "long"]);
    ("year", ["2-digit"; "numeric"]);
    ("month", ["2-digit"; "numeric"; "narrow"; "short"; "long"]);
    ("day", ["2-digit"; "numeric"]);
    ("hour", ["2-digit"; "numeric"]);
    ("minute", ["2-digit"; "numeric"]);
    ("second", ["2-digit"; "numeric"]);
    ("timeZoneName", ["short"; "long"]) ].

Definition component_names : list string := fst <$> dateTimeComponents.

(** [p !== undefined]. *)
Definition defined (p : prim) : bool := negb (strict_eq p PUndefined).

(** *** ToDateTimeOptions *)

(** The [options] argument: [undefined], [null], or an object, given by
    the properties that [new Record(toObject(options))] copies from it. *)
Inductive options_arg :=
| OptionsUndefined
| OptionsNull
| OptionsObject (props : gmap string prim).

(** The object that [ToDateTimeOptions] returns: its own properties and
    its prototype, the Record copy of the argument ([None] for [null]). *)
Record options_object := {
  own : gmap string prim;
  proto : option (gmap string prim)
}.

(** [options[name]], through the prototype. *)
Definition get_option (options : options_object) (name : string) : prim :=
  match own options !! name with
  | Some v => v
  | None =>
      match proto options with
      | Some record => get_field record name
      | None => PUndefined
      end
  end.

(** [options.a = options.b = options.c = 'numeric']. *)
Definition set_numeric (names : list string) (options : options_object) : options_object :=
  {| own := foldr (fun name o => <[name := PString "numeric"]> o) (own options) names;
     proto := proto options |}.

Definition ToDateTimeOptions (options : options_arg) (required defaults : string)
    : completion options_object :=
  record ← match options with
           | OptionsUndefined => Normal None
           | OptionsNull => Throw (TypeError "Cannot convert null or undefined to object")
           | OptionsObject props => Normal (Some props)
           end;
  let options := {| own := ∅; proto := record |} in
  let needDefaults := true in
  let needDefaults :=
    if (String.eqb required "date" || String.eqb required "any")
       && (defined (get_option options "weekday") || defined (get_option options "year")
           || defined (get_option options "month") || defined (get_option options "day"))
    then false else needDefaults in
  let needDefaults :=
    if (String.eqb required "time" || String.eqb required "any")
       && (defined (get_option options "hour") || defined (get_option options "minute")
           || defined (get_option options "second"))
    then false else needDefaults in
  let options :=
    if needDefaults && (String.eqb defaults "date" || String.eqb defaults "all")
    then set_numeric ["year"; "month"; "day"] options else options in
  let options :=
    if needDefaults && (String.eqb defaults "time" || String.eqb defaults "all")
    then set_numeric ["hour"; "minute"; "second"] options else options in
  Normal options.

(** *** BasicFormatMatcher *)

Definition removalPenalty : Z := 120.
Definition additionPenalty : Z := 20.
Definition longLessPenalty : Z := 8.
Definition longMorePenalty : Z := 6.
Definition shortLessPenalty : Z := 6.
Definition shortMorePenalty : Z := 3.

Definition style_values : list string := ["2-digit"; "numeric"; "narrow"; "short"; "long"].

(** Step 11.c for one property: the new score.  An index that
    [arrIndexOf] leaves [undefined] makes [delta] [NaN], which equals
    none of the four values. *)
Definition score_property (E : env) (options format : gmap string prim)
    (score : Z) (property : string) : Z :=
  let optionsProp := get_field options (slot property) in
  let formatProp := get_field format property in
  if negb (defined optionsProp) && defined formatProp then score - additionPenalty
  else if defined optionsProp && negb (defined formatProp) then score - removalPenalty
  else
    let optionsPropIndex := arrIndexOf E (List_of style_values) optionsProp None in
    let formatPropIndex := arrIndexOf E (List_of style_values) formatProp None in
    match formatPropIndex, optionsPropIndex with
    | Some f, Some o =>
        let delta := Z.max (Z.min (f - o) 2) (-2) in
        if delta =? 2 then score - longMorePenalty
        else if delta =? 1 then score - shortMorePenalty
        else if delta =? -1 then score - shortLessPenalty
        else if delta =? -2 then score - longLessPenalty
        else score
    | _, _ => score
    end.

(** Steps 11.b and 11.c: the score of one format. *)
Definition format_score (E : env) (options format : gmap string prim) : Z :=
  foldl (score_property E options format) 0 component_names.

(** [score > bestScore], where [None] is [-Infinity]. *)
Definition better (score : Z) (bestScore : option Z) : bool :=
  match bestScore with
  | None => true
  | Some best => best <? score
  end.

(** Step 11: the loop over the formats. *)
Fixpoint BasicFormatMatcher_loop (E : env) (options : gmap string prim)
    (formats : list (gmap string prim))
    (bestScore : option Z) (bestFormat : option (gmap string prim))
    : option (gmap string prim) :=
  match formats with
  | [] => bestFormat
  | format :: formats' =>
      let score := format_score E options format in
      if better score bestScore
      then BasicFormatMatcher_loop E options formats' (Some score) (Some format)
      else BasicFormatMatcher_loop E options formats' bestScore bestFormat
  end.

(** The format chosen, [None] ([undefined]) when there is no format. *)
Definition BasicFormatMatcher (E : env) (options : gmap string prim)
    (formats : list (gmap string prim)) : option (gmap string prim) :=
  BasicFormatMatcher_loop E options formats None None.

Definition BestFitFormatMatcher (E : env) (options : gmap string prim)
    (formats : list (gmap string prim)) : option (gmap string prim) :=
  BasicFormatMatcher E options formats.

(** *** ToLocalTime and FormatDateTime *)

(** What the getters of [new Date(date)] return, in the local time of the
    host, for a time value inside the range of Date. *)
Record date_fields := {
  getDay : Z;
  getFullYear : Z;
  getMonth : Z;
  getDate : Z;
  getHours : Z;
  getMinutes : Z;
  getSeconds : Z
}.

(** The NumberFormat objects that [FormatDateTime] creates. *)
Record number_format := {
  nf_locale : prim;
  nf_minimumIntegerDigits : Z;
  nf_useGrouping : bool
}.

(** What the date engine takes from outside [abstracts.js]: the host's
    Date and [FormatNumber] of the number engine (its argument is [None]
    for [NaN]). *)
Record date_host := {
  host_date : Z -> date_fields;
  FormatNumber : number_format -> option Z -> string
}.

(** The operands of [d.getFullYear >= 0]: the left one is the method
    itself, not its result. *)
Inductive operand :=
| OFunction
| ONumber (n : Z).

(** [ToNumber]: a function converts to [NaN] ([None]). *)
Definition operand_number (o : operand) : option Z :=
  match o with
  | OFunction => None
  | ONumber n => Some n
  end.

(** [a >= b]: false when either side is [NaN]. *)
Definition operand_ge (a b : operand) : bool :=
  match operand_number a, operand_number b with
  | Some x, Some y => y <=? x
  | _, _ => false
  end.

(** The Record that [ToLocalTime] returns. *)
Record local_time := {
  tm_weekday : Z;
  tm_era : Z;
  tm_year : Z;
  tm_month : Z;
  tm_day : Z;
  tm_hour : Z;
  tm_minute : Z;
  tm_second : Z;
  tm_inDST : bool
}.

Definition ToLocalTime (H : date_host) (date : Z) (calendar timeZone : prim) : local_time :=
  let d := host_date H date in
  {| tm_weekday := getDay d;
     tm_era := Z.b2z (operand_ge OFunction (ONumber 0));    (* [+(d.getFullYear >= 0)] *)
     tm_year := getFullYear d;
     tm_month := getMonth d;
     tm_day := getDate d;
     tm_hour := getHours d;
     tm_minute := getMinutes d;
     tm_second := getSeconds d;
     tm_inDST := false |}.

(** [tm['[[' + p + ']]']] for a component [p]: [None] is [undefined]. *)
Definition tm_get (tm : local_time) (p : string) : option Z :=
  if String.eqb p "weekday" then Some (tm_weekday tm)
  else if String.eqb p "era" then Some (tm_era tm)
  else if String.eqb p "year" then Some (tm_year tm)
  else if String.eqb p "month" then Some (tm_month tm)
  else if String.eqb p "day" then Some (tm_day tm)
  else if String.eqb p "hour" then Some (tm_hour tm)
  else if String.eqb p "minute" then Some (tm_minute tm)
  else if String.eqb p "second" then Some (tm_second tm)
  else None.

(** The values that end up in [fv]: primitives and arrays of names. *)
Inductive jsval :=
| VPrim (p : prim)
| VNames (l : list string).

(** [ToString]. *)
Definition prim_to_string (p : prim) : string :=
  match p with
  | PUndefined => "undefined"
  | PNull => "null"
  | PBool true => "true"
  | PBool false => "false"
  | PNumber n => pretty n
  | PString s => s
  end.

Definition to_string (v : jsval) : string :=
  match v with
  | VPrim p => prim_to_string p
  | VNames l => JS.join "," l
  end.

(** The calendar data of a locale: per calendar and component
    ([months], [days], [dayPeriods]) a table from a width (or [am], [pm])
    to an array of names or a text. *)
Inductive date_entry :=
| Names (l : list string)
| Text (s : string).

Definition calendars := gmap string (gmap string (gmap string date_entry)).

(** [alts[width]] for the widths that [alts] lists.  For another width
    the model has [undefined]; a width that names a member of
    [Object.prototype] would find that member in the source. *)
Definition alts (width : string) : option (string * string) :=
  if String.eqb width "narrow" then Some ("short", "long")
  else if String.eqb width "short" then Some ("long", "narrow")
  else if String.eqb width "long" then Some ("short", "narrow")
  else None.

(** [resolved[key]]. *)
Definition entry_at (e : date_entry) (key : Z) : jsval :=
  match e with
  | Names l =>
      if key <? 0 then VPrim PUndefined
      else match l !! Z.to_nat key with
           | Some s => VPrim (PString s)
           | None => VPrim PUndefined
           end
  | Text s =>
      if key <? 0 then VPrim PUndefined
      else match String.get (Z.to_nat key) s with
           | Some c => VPrim (PString (String c ""))
           | None => VPrim PUndefined
           end
  end.

Definition entry_value (e : date_entry) : jsval :=
  match e with
  | Names l => VNames l
  | Text s => VPrim (PString s)
  end.

Definition resolveDateString (data : calendars) (ca : prim) (component width : string)
    (key : option Z) : completion jsval :=
  obj ← match data !! prim_to_string ca ≫= (.!! component) with
        | Some obj => Normal obj
        | None =>
            match data !! "gregory" with
            | None => Throw HostTypeError                  (* [undefined[component]] *)
            | Some gregory =>
                match gregory !! component with
                | Some obj => Normal obj
                | None => Throw HostTypeError              (* [hop.call(undefined, width)] *)
                end
            end
        end;
  resolved ← match obj !! width with
             | Some e => Normal (Some e)
             | None =>
                 match alts width with
                 | None => Throw HostTypeError             (* [undefined[0]] *)
                 | Some (first, second) =>
                     match obj !! first with
                     | Some e => Normal (Some e)
                     | None => Normal (obj !! second)
                     end
                 end
             end;
  match key with
  | Some key =>
      match resolved with
      | Some e => Normal (entry_at e key)
      | None => Throw HostTypeError                        (* [undefined[key]] *)
      end
  | None =>
      match resolved with
      | Some e => Normal (entry_value e)
      | None => Normal (VPrim PUndefined)
      end
  end.

(** A time value: a finite number of milliseconds, or [NaN] or an
    infinity. *)
Inductive time_value :=
| Finite (t : Z)
| NotFinite.

(** [f in dateWidths]. *)
Definition in_dateWidths (f : prim) : bool :=
  bool_decide (prim_to_string f ∈ ["narrow"; "short"; "long"]).

(** Step 7.a.iv-vi: the value of the component and the [pm] flag.  [v] is
    [None] where the JavaScript value is [undefined] or [NaN]. *)
Definition adjust_value (internal : gmap string prim) (tm : local_time) (p : string)
    (pm : prim) : option Z * prim :=
  let v := tm_get tm p in
  if String.eqb p "year" && match v with Some n => n <=? 0 | None => false end then
    ((fun n => 1 - n) <$> v, pm)
  else if String.eqb p "month" then
    ((fun n => n + 1) <$> v, pm)
  else if String.eqb p "hour" && strict_eq (get_field internal "[[hour12]]") (PBool true) then
    let v := (fun n => Z.rem n 12) <$> v in
    let pm := PBool (negb (bool_decide (v = tm_get tm p /\ is_Some v))) in
    let v := if bool_decide (v = Some 0)
                && strict_eq (get_field internal "[[hourNo0]]") (PBool true)
             then Some 12 else v in
    (v, pm)
  else (v, pm).

(** [fv.slice(-2)]. *)
Definition last_two (s : string) : string :=
  JS.drop (String.length s - 2) s.

(** Step 7.a.vii-ix: the text of the component; [fv] keeps its last value
    when no branch assigns it. *)
Definition format_value (H : date_host) (localeData : calendars)
    (internal : gmap string prim) (nf nf2 : number_format) (tm : local_time)
    (p : string) (f : prim) (v : option Z) (fv : jsval) : completion jsval :=
  if strict_eq f (PString "numeric") then
    Normal (VPrim (PString (FormatNumber H nf v)))
  else if strict_eq f (PString "2-digit") then
    let fv := FormatNumber H nf2 v in
    Normal (VPrim (PString (if (2 <? String.length fv)%nat then last_two fv else fv)))
  else if in_dateWidths f then
    let ca := get_field internal "[[calendar]]" in
    if String.eqb p "month" then
      resolveDateString localeData ca "months" (prim_to_string f) (tm_get tm p)
    else if String.eqb p "weekday" then
      match resolveDateString localeData ca "days" (prim_to_string f) (tm_get tm p) with
      | Normal fv => Normal fv
      | Throw _ =>
          Throw (PlainError ("Could not find weekday data for locale " +:+
                            prim_to_string (get_field internal "[[locale]]")))
      end
    else if String.eqb p "timeZoneName" then Normal (VPrim (PString ""))
    else
      Normal (VPrim (match tm_get tm p with
                     | Some n => PNumber n
                     | None => PUndefined
                     end))
  else Normal fv.

(** The variables that the loop of step 7 carries. *)
Record format_state := {
  st_result : prim;
  st_pm : prim;
  st_fv : jsval
}.

(** [result.replace(pat, fv)]: [result] has to be a string. *)
Definition replace_in (result : prim) (pat : string) (fv : jsval) : completion prim :=
  match result with
  | PString s => Normal (PString (JS.replace pat (to_string fv) s))
  | _ => Throw HostTypeError
  end.

(** Step 7 for one component. *)
Definition format_component (H : date_host) (localeData : calendars)
    (internal : gmap string prim) (nf nf2 : number_format) (tm : local_time)
    (st : format_state) (p : string) : completion format_state :=
  match internal !! slot p with
  | None => Normal st
  | Some f =>
      let '(v, pm) := adjust_value internal tm p (st_pm st) in
      fv ← format_value H localeData internal nf nf2 tm p f v (st_fv st);
      result ← replace_in (st_result st) ("{" +:+ p +:+ "}") fv;
      Normal {| st_result := result; st_pm := pm; st_fv := fv |}
  end.

Fixpoint format_components (H : date_host) (localeData : calendars)
    (internal : gmap string prim) (nf nf2 : number_format) (tm : local_time)
    (st : format_state) (ps : list string) : completion format_state :=
  match ps with
  | [] => Normal st
  | p :: ps' =>
      st ← format_component H localeData internal nf nf2 tm st p;
      format_components H localeData internal nf nf2 tm st ps'
  end.

(** [FormatDateTime(dateTimeFormat, x)], with the internal properties of
    [dateTimeFormat] and the [calendars] of the locales of
    [internals.DateTimeFormat['[[localeData]]']]. *)
Definition FormatDateTime (H : date_host) (allLocaleData : gmap string calendars)
    (internal : gmap string prim) (x : time_value) : completion prim :=
  match x with
  | NotFinite => Throw (RangeError "Invalid valid date passed to format")
  | Finite x =>
      let locale := get_field internal "[[locale]]" in
      let nf := {| nf_locale := locale; nf_minimumIntegerDigits := 1; nf_useGrouping := false |} in
      let nf2 := {| nf_locale := locale; nf_minimumIntegerDigits := 2; nf_useGrouping := false |} in
      let tm := ToLocalTime H x (get_field internal "[[calendar]]")
                  (get_field internal "[[timeZone]]") in
      let dataLocale := get_field internal "[[dataLocale]]" in
      match allLocaleData !! prim_to_string dataLocale with
      | None => Throw HostTypeError                        (* [undefined.calendars] *)
      | Some localeData =>
          let result := get_field internal "[[pattern]]" in
          st ← format_components H localeData internal nf nf2 tm
                 {| st_result := result; st_pm := PUndefined; st_fv := VPrim PUndefined |}
                 component_names;
          if strict_eq (get_field internal "[[hour12]]") (PBool true) then
            fv ← resolveDateString localeData (get_field internal "[[calendar]]")
                   "dayPeriods" (if truthy (st_pm st) then "pm" else "am") None;
            replace_in (st_result st) "{ampm}" fv
          else Normal (st_result st)
      end
  end.

(** *** Sample data for the date engine *)

(** Modelled from the spec: [FormatNumber] of the number engine as the
    date engine uses it, digits without grouping, padded to the minimum
    number of integer digits. *)
Definition sample_FormatNumber (nf : number_format) (v : option Z) : string :=
  match v with
  | None => "NaN"
  | Some n =>
      if (0 <=? n) && (n <? 10) && (2 <=? nf_minimumIntegerDigits nf)
      then "0" +:+ pretty n else pretty n
  end.

(** A host in UTC, for the time values of 1 January 1970, a Thursday. *)
Definition sample_host : date_host :=
  {| host_date := fun t =>
       {| getDay := 4; getFullYear := 1970; getMonth := 0; getDate := 1;
          getHours := (t / 3600000) mod 24;
          getMinutes := (t / 60000) mod 60;
          getSeconds := (t / 1000) mod 60 |};
     FormatNumber := sample_FormatNumber |}.

(** The day periods of one locale. *)
Definition sample_calendars : gmap string calendars :=
  {[ "en" := {[ "gregory" := {[ "dayPeriods" := {[ "am" := Text "AM"; "pm" := Text "PM" ]} ]} ]} ]}.


(** *** BasicFormatMatcher in the words of its description *)

(** The rank of a style on the scale. *)
Definition rank (style : prim) : option Z :=
  match style with
  | PString s =>
      if String.eqb s "2-digit" then Some 0
      else if String.eqb s "numeric" then Some 1
      else if String.eqb s "narrow" then Some 2
      else if String.eqb s "short" then Some 3
      else if String.eqb s "long" then Some 4
      else None
  | _ => None
  end.

(** The charge for the distance between two styles. *)
Definition distance_charge (requested candidate : Z) : Z :=
  let delta := Z.max (-2) (Z.min 2 (candidate - requested)) in
  if delta =? 2 then 6
  else if delta =? 1 then 3
  else if delta =? -1 then 6
  else if delta =? -2 then 8
  else 0.

(** The charge for one component: 120 for a requested component that the
    candidate lacks, 20 for a component of the candidate that was not
    requested, the distance charge when both give a style. *)
Definition component_charge (options format : gmap string prim) (property : string) : Z :=
  let requested := get_field options (slot property) in
  let candidate := get_field format property in
  match defined requested, defined candidate with
  | true, false => 120
  | false, true => 20
  | false, false => 0
  | true, true =>
      match rank requested, rank candidate with
      | Some o, Some f => distance_charge o f
      | _, _ => 0
      end
  end.

Definition total_charge (options format : gmap string prim) : Z :=
  foldr Z.add 0 (component_charge options format <$> component_names).

(** The styles of the request and of the candidate are on the scale. *)
Definition on_scale (v : prim) : bool :=
  negb (defined v) || match rank v with Some _ => true | None => false end.

Definition well_styled (options format : gmap string prim) : bool :=
  forallb (fun p => on_scale (get_field options (slot p)) && on_scale (get_field format p))
    component_names.

(** The formats of the example: a request for a numeric year, a candidate
    with exactly that, and one that adds a long month. *)
Definition year_request : gmap string prim := {[ "[[year]]" := PString "numeric" ]}.
Definition year_format : gmap string prim := {[ "year" := PString "numeric" ]}.
Definition year_month_format : gmap string prim :=
  <[ "month" := PString "long" ]> {[ "year" := PString "numeric" ]}.

(** *** Names used in the statements about the date engine *)




(** What the loop of [BasicFormatMatcher] holds after the formats [seen]:
    nothing when there was none, else the first format with the highest
    score. *)
Definition chosen (E : env) (options : gmap string prim) (seen : list (gmap string prim))
    (bestScore : option Z) (bestFormat : option (gmap string prim)) : Prop :=
  match bestFormat with
  | None => seen = [] /\ bestScore = None
  | Some best =>
      exists i,
        seen !! i = Some best /\
        bestScore = Some (format_score E options best) /\
        (forall j f, seen !! j = Some f ->
                     format_score E options f <= format_score E options best) /\
        (forall j f, (j < i)%nat -> seen !! j = Some f ->
                     format_score E options f < format_score E options best)
  end.

(** ** [abstracts.js]: the remaining operations of sections 6 and 9 *)

(** [toLatinUpperCase]: the [while (i--)] loop, [i] counting down from the
    length of the text; the body runs with [i] already lowered. *)
Fixpoint toLatinUpperCase_loop (i : nat) (str : string) : string :=
  match i with
  | O => str
  | S i' =>
      let ch := JS.charAt str (Z.of_nat i') in
      let str :=
        if String.leb "a" ch && String.leb ch "z"
        then JS.take i' str +:+ JS.toUpperCase ch +:+ JS.drop (S i') str
        else str in
      toLatinUpperCase_loop i' str
  end.

Definition toLatinUpperCase (str : string) : string :=
  toLatinUpperCase_loop (String.length str) str.

(** Modelled from the spec: [expCurrencyCode] of [bcp47.js], the pattern
    behind steps 3 and 4 of 6.3.1: exactly three characters, each in the
    range ["A"] to ["Z"]. *)
Definition modelled_expCurrencyCode (s : string) : bool :=
  Bcp47.len_between 3 3 s && Bcp47.all_chars JS.is_upper s.

(** 6.3.1; [String(currency)] is [prim_to_string]. *)
Definition IsWellFormedCurrencyCode (expCurrencyCode : string -> bool) (currency : prim) : bool :=
  let c := prim_to_string currency in
  let normalized := toLatinUpperCase c in
  if negb (expCurrencyCode normalized) then false else true.

(** An element of the array-like that 9.2.1 takes: a primitive, an
    object, or a function.  Of an object the loop uses nothing but
    [String(kValue)], which runs the object's own conversion: its outcome
    is what the model keeps of the object. *)
Inductive element :=
| Prim (p : prim)
| Object (text : completion string)
| Callable.

(** The [locales] argument of 9.2.1: [undefined], [null], a string, an
    array-like ([None] for an index that the object does not have), or
    another primitive, which has no [length]. *)
Inductive locales_arg :=
| LocalesUndefined
| LocalesNull
| LocalesString (s : string)
| LocalesArray (elems : list (option element))
| LocalesOther.

(** 9.2.1, steps 8.c.ii and 8.c.iii: the test of the type, which lets a
    string and an object pass, and [String(kValue)]. *)
Definition tag_text (kValue : element) : completion string :=
  match kValue with
  | Prim (PString tag) => Normal tag
  | Object text => text
  | Prim _ | Callable => Throw (TypeError "String or Object type expected")
  end.

(** 9.2.1, step 8: the loop over the elements, [seen] being the List
    built so far. *)
Fixpoint CanonicalizeLocaleList_loop (E : env) (elems : list (option element))
    (seen : list string) : completion (list string) :=
  match elems with
  | [] => Normal seen
  | None :: elems' => CanonicalizeLocaleList_loop E elems' seen
  | Some kValue :: elems' =>
      tag ← tag_text kValue;
      if negb (IsStructurallyValidLanguageTag E tag) then
        Throw (RangeError ("'" +:+ tag +:+ "' is not a structurally valid language tag"))
      else
        tag ← CanonicalizeLanguageTag E tag;
        if is_minus_one (arrIndexOf E (List_of seen) (PString tag) None)
        then CanonicalizeLocaleList_loop E elems' (seen ++ [tag])
        else CanonicalizeLocaleList_loop E elems' seen
  end.

(** 9.2.1 *)
Definition CanonicalizeLocaleList (E : env) (locales : locales_arg) : completion (list string) :=
  match locales with
  | LocalesUndefined => Normal []
  | LocalesNull => Throw (TypeError "Cannot convert null or undefined to object")
  | LocalesString s => CanonicalizeLocaleList_loop E [Some (Prim (PString s))] []
  | LocalesArray elems => CanonicalizeLocaleList_loop E elems []
  | LocalesOther => Normal []
  end.

(** 9.2.6, step 4: the loop, [subset] being the List built so far. *)
Fixpoint LookupSupportedLocales_loop (E : env) (availableLocales rest subset : list string)
    : list string :=
  match rest with
  | [] => subset
  | locale :: rest' =>
      let noExtensionsLocale := RegExp.replace_all (expUnicodeExSeq E) "" locale in
      let availableLocale := BestAvailableLocale E availableLocales noExtensionsLocale in
      LookupSupportedLocales_loop E availableLocales rest'
        (match availableLocale with
         | Some _ => subset ++ [locale]
         | None => subset
         end)
  end.

(** 9.2.6 *)
Definition LookupSupportedLocales (E : env) (availableLocales requestedLocales : list string)
    : list string :=
  LookupSupportedLocales_loop E availableLocales requestedLocales [].

(** 9.2.7 *)
Definition BestFitSupportedLocales (E : env) (availableLocales requestedLocales : list string)
    : list string :=
  LookupSupportedLocales E availableLocales requestedLocales.

(** An element of an Array with its [writable] attribute. *)
Record array_property := {
  ap_value : string;
  ap_writable : bool
}.

(** An Array of strings: its elements, and the [writable] attribute of
    its [length]. *)
Record array_object := {
  ao_elements : list array_property;
  ao_length_writable : bool
}.

(** [arrSlice.call(subset)], the last step of 9.2.6: a new Array, whose
    elements and [length] are writable. *)
Definition Array_of (subset : list string) : array_object :=
  {| ao_elements := (fun v => {| ap_value := v; ap_writable := true |}) <$> subset;
     ao_length_writable := true |}.

(** [new Record(obj)]: the copy of the own properties of [obj], made with
    [defineProperty].  [Object.defineProperty] copies every property; the
    fallback of [globals.js] assigns a value only when it is truthy. *)
Definition Record_of (native_defineProperty : bool) (props : gmap string prim)
    : gmap string prim :=
  if native_defineProperty then props
  else filter (fun kv => truthy kv.2 = true) props.

(** [defineProperty(subset, P, {writable: false, configurable: false,
    value: subset[P]})] on an element: [Object.defineProperty] clears the
    attribute; the fallback of [globals.js] does [subset[P] = desc.value]
    when the value is truthy and nothing otherwise, which leaves the
    element as it is. *)
Definition freeze_property (native_defineProperty : bool) (p : array_property)
    : array_property :=
  if native_defineProperty then {| ap_value := ap_value p; ap_writable := false |}
  else p.

(** [defineProperty(subset, 'length', {writable: false})]: the fallback
    finds neither a value nor a getter in the descriptor and does
    nothing. *)
Definition freeze_length (native_defineProperty : bool) (a : array_object) : array_object :=
  {| ao_elements := ao_elements a;
     ao_length_writable := if native_defineProperty then false else ao_length_writable a |}.

Definition quote : string := String (ascii_of_nat 34) "".

(** 9.2.8.  [native_defineProperty] says whether the host has
    [Object.defineProperty] or [defineProperty] is the fallback of
    [globals.js]. *)
Definition SupportedLocales (E : env) (native_defineProperty : bool)
    (availableLocales requestedLocales : list string)
    (options : options_arg) : completion array_object :=
  matcher ← match options with
            | OptionsUndefined => Normal PUndefined
            | OptionsNull => Throw (TypeError "Cannot convert null or undefined to object")
            | OptionsObject props =>
                let options := Record_of native_defineProperty props in
                let matcher := get_field options "localeMatcher" in
                if defined matcher then
                  let matcher := prim_to_string matcher in
                  if negb (String.eqb matcher "lookup") && negb (String.eqb matcher "best fit")
                  then Throw (RangeError ("matcher should be " +:+ quote +:+ "lookup" +:+ quote
                                          +:+ " or " +:+ quote +:+ "best fit" +:+ quote))
                  else Normal (PString matcher)
                else Normal matcher
            end;
  let subset :=
    Array_of
      (if strict_eq matcher PUndefined || strict_eq matcher (PString "best fit")
       then BestFitSupportedLocales E availableLocales requestedLocales
       else LookupSupportedLocales E availableLocales requestedLocales) in
  let subset :=
    {| ao_elements := freeze_property native_defineProperty <$> ao_elements subset;
       ao_length_writable := ao_length_writable subset |} in
  Normal (freeze_length native_defineProperty subset).

(** 9.2.9.  [values] is [None] when the argument is [undefined]. *)
Definition GetOption (E : env) (options : options_object) (property type : string)
    (values : option (list prim)) (fallback : prim) : completion prim :=
  let value := get_option options property in
  if defined value then
    let value :=
      if String.eqb type "boolean" then PBool (truthy value)
      else if String.eqb type "string" then PString (prim_to_string value)
      else value in
    match values with
    | Some values =>
        if is_minus_one (arrIndexOf E values value None)
        then Throw (RangeError ("'" +:+ prim_to_string value +:+
                                "' is not an allowed value for `" +:+ property +:+ "`"))
        else Normal value
    | None => Normal value
    end
  else Normal fallback.

(** ** Conditions used in the statements *)

(** Every preferred value of the extended-language table has an entry of
    its own. *)
Definition extLang_closed (R : registry) : Prop :=
  forall k v p, extLang R !! k = Some (v, p) -> is_Some (extLang R !! v).

(** A requested locale for which 9.2.6 finds an available one. *)
Definition supported (E : env) (availableLocales : list string) (locale : string) : bool :=
  match BestAvailableLocale E availableLocales
          (RegExp.replace_all (expUnicodeExSeq E) "" locale) with
  | Some _ => true
  | None => false
  end.

(** The elements that 9.2.1 visits. *)
Definition elements_of (locales : locales_arg) : list (option element) :=
  match locales with
  | LocalesString s => [Some (Prim (PString s))]
  | LocalesArray elems => elems
  | _ => []
  end.

(** A tag that is the canonical form of the text of one of the elements,
    a text that is a structurally valid tag; and elements that are all
    strings or objects with such a text. *)
Definition from_elements (E : env) (elems : list (option element)) (t : string) : Prop :=
  exists e s, Some e ∈ elems /\
              tag_text e = Normal s /\
              IsStructurallyValidLanguageTag E s = true /\
              CanonicalizeLanguageTag E s = Normal t.

Definition valid_elements (E : env) (elems : list (option element)) : Prop :=
  forall e, Some e ∈ elems ->
    exists s, tag_text e = Normal s /\ IsStructurallyValidLanguageTag E s = true.

(** A value that 9.2.5 may give to a key: one of the values that the
    locale data has for it, or [undefined] when it has none. *)
Definition allowed_value (keyLocaleData : list string) (value : prim) : Prop :=
  value ∈ List_of keyLocaleData \/ (keyLocaleData = [] /\ value = PUndefined).

(** The numbering systems of one locale. *)
Definition sample_number_data : gmap string (gmap string (list string)) :=
  {[ "en" := {[ "nu" := ["latn"; "arab"] ]} ]}.


(** ** [abstracts.js]: 9.2.10 GetNumberOption *)

(** A Number: [NaN], an infinity, or a finite value, kept as a rational. *)
Inductive number :=
| NaN
| NegInfinity
| PosInfinity
| Rational (q : Q).

(** [value < bound] for a finite [bound]; [false] for [NaN]. *)
Definition number_lt (value : number) (bound : Q) : bool :=
  match value with
  | NaN | PosInfinity => false
  | NegInfinity => true
  | Rational q => negb (Qle_bool bound q)
  end.

(** [value > bound] for a finite [bound]; [false] for [NaN]. *)
Definition number_gt (value : number) (bound : Q) : bool :=
  match value with
  | NaN | NegInfinity => false
  | PosInfinity => true
  | Rational q => negb (Qle_bool q bound)
  end.

Definition isNaN (value : number) : bool :=
  match value with
  | NaN => true
  | _ => false
  end.

(** [Math.floor]. *)
Definition floor (value : number) : number :=
  match value with
  | Rational q => Rational (inject_Z (Qfloor q))
  | other => other
  end.

(** 9.2.10, for finite [minimum] and [maximum].  [Number] is the
    conversion of the host, [value] is [options[property]], and [None]
    stands for a fallback that is returned as it is. *)
Definition GetNumberOption (Number : prim -> number) (options : options_object)
    (property : string) (minimum maximum : Q) (fallback : option number)
    : completion (option number) :=
  let value := get_option options property in
  if defined value then
    let value := Number value in
    if isNaN value || number_lt value minimum || number_gt value maximum
    then Throw (RangeError "Value is not a number or outside accepted range")
    else Normal (Some (floor value))
  else Normal fallback.

(** ** [abstracts.js]: 12.1.1.1 InitializeDateTimeFormat *)

(** The date data of one locale, [data.date] of [addLocaleData]: the
    arrays [ca] and [nu] that [ResolveLocale] reads, the formats, and the
    clock of the locale. *)
Record date_locale_data := {
  dd_keys : gmap string (list string);
  dd_formats : list (gmap string prim);
  dd_hour12 : prim;
  dd_hourNo0 : prim;
  dd_calendars : calendars
}.

(** [internals.DateTimeFormat]. *)
Record DateTimeFormat_internals := {
  dtf_availableLocales : list string;
  dtf_relevantExtensionKeys : list string;
  dtf_localeData : gmap string date_locale_data
}.

(** An object given to the constructor: the internal properties behind
    its own [__getInternalProperties], [None] while it has no such
    property. *)
Definition intl_object := option (gmap string prim).

Definition getInternalProperties (obj : intl_object) : gmap string prim :=
  default ∅ obj.

(** The steps write to [internal] as they go and may throw in between: a
    step takes the internal properties and gives its outcome together
    with the properties as it leaves them. *)
Definition init (A : Type) : Type :=
  gmap string prim -> completion A * gmap string prim.

Definition init_ret {A : Type} (a : A) : init A :=
  fun internal => (Normal a, internal).

Definition init_bind {A B : Type} (c : init A) (f : A -> init B) : init B :=
  fun internal =>
    match c internal with
    | (Normal a, internal') => f a internal'
    | (Throw e, internal') => (Throw e, internal')
    end.

(** A step that leaves the internal properties alone. *)
Definition lift {A : Type} (c : completion A) : init A :=
  fun internal => (c, internal).

(** [internal[k] = v]. *)
Definition set_internal (k : string) (v : prim) : init unit :=
  fun internal => (Normal tt, <[k := v]> internal).

(** [internal[k]]. *)
Definition get_internal (k : string) : init prim :=
  fun internal => (Normal (get_field internal k), internal).

(** [toLatinUpperCase(tz)] on a value that need not be a string: [null]
    has no [length]; on a boolean or a number [length] is [undefined],
    the loop does not run and the value comes back. *)
Definition toLatinUpperCase_value (tz : prim) : completion prim :=
  match tz with
  | PString s => Normal (PString (toLatinUpperCase s))
  | PNull | PUndefined => Throw HostTypeError
  | other => Normal other
  end.

(** Steps 19 to 22: the loop over the rows of [dateTimeComponents]. *)
Fixpoint component_options (E : env) (options : options_object)
    (rows : list (string * list string)) (opt : gmap string prim)
    : completion (gmap string prim) :=
  match rows with
  | [] => Normal opt
  | (prop, values) :: rows' =>
      value ← GetOption E options prop "string" (Some (PString <$> values)) PUndefined;
      component_options E options rows' (<[slot prop := value]> opt)
  end.

(** Step 30: the loop that copies the components of [bestFormat];
    [hop.call(undefined, prop)] throws. *)
Fixpoint copy_components (bestFormat : option (gmap string prim)) (props : list string)
    : init unit :=
  match props with
  | [] => init_ret tt
  | prop :: props' =>
      match bestFormat with
      | None => lift (Throw HostTypeError)
      | Some format =>
          init_bind
            (match format !! prop with
             | Some p => set_internal (slot prop) p
             | None => init_ret tt
             end)
            (fun _ => copy_components bestFormat props')
      end
  end.

(** [bestFormat[name]]. *)
Definition format_field (bestFormat : option (gmap string prim)) (name : string)
    : completion prim :=
  match bestFormat with
  | Some format => Normal (get_field format name)
  | None => Throw HostTypeError
  end.

(** Step 16: the time zone, in upper case, which has to be ["UTC"]. *)
Definition resolve_timeZone (tz : prim) : completion prim :=
  if defined tz then
    tz ← toLatinUpperCase_value tz;
    if negb (strict_eq tz (PString "UTC"))
    then Throw (RangeError "timeZone is not supported.")
    else Normal tz
  else Normal tz.

(** Steps 32 and 33: the clock and the pattern. *)
Definition resolve_pattern (dataLocaleData : date_locale_data)
    (bestFormat : option (gmap string prim)) (hr12 : prim) : init prim :=
  init_bind (get_internal "[[hour]]") (fun hour =>
  if truthy hour then
    let hr12 := if strict_eq hr12 PUndefined then dd_hour12 dataLocaleData else hr12 in
    init_bind (set_internal "[[hour12]]" hr12) (fun _ =>
    if strict_eq hr12 (PBool true) then
      init_bind (set_internal "[[hourNo0]]" (dd_hourNo0 dataLocaleData)) (fun _ =>
      lift (format_field bestFormat "pattern12"))
    else lift (format_field bestFormat "pattern"))
  else lift (format_field bestFormat "pattern")).

(** Steps 3 to 36, on the internal properties of an object that step 2
    has marked. *)
Definition InitializeDateTimeFormat_steps (E : env) (D : DateTimeFormat_internals)
    (locales : locales_arg) (options : options_arg) : init unit :=
  init_bind (lift (CanonicalizeLocaleList E locales)) (fun requestedLocales =>
  init_bind (lift (ToDateTimeOptions options "any" "date")) (fun options =>
  init_bind (lift (GetOption E options "localeMatcher" "string"
                     (Some [PString "lookup"; PString "best fit"]) (PString "best fit")))
    (fun matcher =>
  let opt : gmap string prim := {[ "[[localeMatcher]]" := matcher ]} in
  let localeData := dtf_localeData D in
  init_bind (lift (ResolveLocale E (dtf_availableLocales D) requestedLocales opt
                     (dtf_relevantExtensionKeys D) (dd_keys <$> localeData))) (fun r =>
  init_bind (set_internal "[[locale]]" (get_field r "[[locale]]")) (fun _ =>
  init_bind (set_internal "[[calendar]]" (get_field r "[[ca]]")) (fun _ =>
  init_bind (set_internal "[[numberingSystem]]" (get_field r "[[nu]]")) (fun _ =>
  init_bind (set_internal "[[dataLocale]]" (get_field r "[[dataLocale]]")) (fun _ =>
  let dataLocale := get_field r "[[dataLocale]]" in
  let tz := get_option options "timeZone" in
  init_bind (lift (resolve_timeZone tz)) (fun tz =>
  init_bind (set_internal "[[timeZone]]" tz) (fun _ =>
  init_bind (lift (component_options E options dateTimeComponents ∅)) (fun opt =>
  init_bind (lift (match localeData !! prim_to_string dataLocale with
                   | Some dataLocaleData => Normal dataLocaleData
                   | None => Throw HostTypeError           (* [undefined.formats] *)
                   end)) (fun dataLocaleData =>
  let formats := dd_formats dataLocaleData in
  init_bind (lift (GetOption E options "formatMatcher" "string"
                     (Some [PString "basic"; PString "best fit"]) (PString "best fit")))
    (fun matcher =>
  let bestFormat :=
    if strict_eq matcher (PString "basic")
    then BasicFormatMatcher E opt formats
    else BestFitFormatMatcher E opt formats in
  init_bind (copy_components bestFormat component_names) (fun _ =>
  init_bind (lift (GetOption E options "hour12" "boolean" None PUndefined)) (fun hr12 =>
  init_bind (resolve_pattern dataLocaleData bestFormat hr12) (fun pattern =>
  init_bind (set_internal "[[pattern]]" pattern) (fun _ =>
  init_bind (set_internal "[[boundFormat]]" PUndefined) (fun _ =>
  set_internal "[[initializedDateTimeFormat]]" (PBool true))))))))))))))))))).

(** 12.1.1.1.  [regexpState] is the outcome of [createRegExpRestore()],
    which depends on the last match of the host's [RegExp] alone.  The
    result is the outcome and the object as the call leaves it.
    [Object.defineProperty] refuses to replace the
    [__getInternalProperties] that an object already has. *)
Definition InitializeDateTimeFormat (E : env) (D : DateTimeFormat_internals)
    (regexpState : completion unit) (dateTimeFormat : intl_object)
    (locales : locales_arg) (options : options_arg) : completion unit * intl_object :=
  let internal := getInternalProperties dateTimeFormat in
  match regexpState with
  | Throw e => (Throw e, dateTimeFormat)
  | Normal _ =>
      if strict_eq (get_field internal "[[initializedIntlObject]]") (PBool true) then
        (Throw (TypeError "`this` object has already been initialized as an Intl object"),
         dateTimeFormat)
      else
        match dateTimeFormat with
        | Some _ => (Throw HostTypeError, dateTimeFormat)
        | None =>
            let '(outcome, internal) :=
              InitializeDateTimeFormat_steps E D locales options
                (<["[[initializedIntlObject]]" := PBool true]> internal) in
            (outcome, Some internal)
        end
  end.

(** 12.3.2: the getter of [format] on an object and the call of the
    function it returns with a time value. *)
Definition format_getter (H : date_host) (D : DateTimeFormat_internals) (this : intl_object)
    (x : time_value) : completion prim :=
  let internal := getInternalProperties this in
  if negb (truthy (get_field internal "[[initializedDateTimeFormat]]")) then
    Throw (TypeError
      "`this` value for format() is not an initialized Intl.DateTimeFormat object.")
  else FormatDateTime H (dd_calendars <$> dtf_localeData D) internal x.

(** A host conversion for the examples: integers convert to themselves,
    the other values used there are not numbers. *)
Definition integer_Number (value : prim) : number :=
  match value with
  | PNumber n => Rational (inject_Z n)
  | _ => NaN
  end.

(** A step leaves the internal property [k] as it found it. *)
Definition keeps {A : Type} (k : string) (c : init A) : Prop :=
  forall internal, get_field (c internal).2 k = get_field internal k.

(** A step that throws leaves the internal property [k] as it found it. *)
Definition keeps_on_throw {A : Type} (k : string) (c : init A) : Prop :=
  forall internal e internal',
    c internal = (Throw e, internal') -> get_field internal' k = get_field internal k.

(** What step 30 leaves in the internal properties. *)
Definition copied (format : gmap string prim) (props : list string)
    (internal : gmap string prim) : gmap string prim :=
  foldl (fun m prop => match format !! prop with
                       | Some p => <[slot prop := p]> m
                       | None => m
                       end) internal props.

(** Date data for one locale with a single format, an hour on a 12-hour
    clock. *)
Definition sample_date_data : date_locale_data :=
  {| dd_keys := {[ "ca" := ["gregory"]; "nu" := ["latn"] ]};
     dd_formats := [ <["pattern12" := PString "{hour} {ampm}"]>
                       (<["pattern" := PString "{hour}"]> {[ "hour" := PString "numeric" ]}) ];
     dd_hour12 := PBool true;
     dd_hourNo0 := PBool true;
     dd_calendars := sample_calendars !!! "en" |}.

Definition sample_internals : DateTimeFormat_internals :=
  {| dtf_availableLocales := ["en"];
     dtf_relevantExtensionKeys := ["ca"; "nu"];
     dtf_localeData := {[ "en" := sample_date_data ]} |}.

(** A text of ASCII characters, as every language tag is.  On such a text
    the host's [toLowerCase] and [toUpperCase] change the letters [A] to
    [Z] and [a] to [z] and nothing else, as [JS.toLowerCase] and
    [JS.toUpperCase] do. *)
Definition ascii_text (s : string) : bool :=
  Bcp47.all_chars (fun c => (nat_of_ascii c <? 128)%nat) s.



(** ** [globals.js]: [arrIndexOf] on any array-like and any finite start

    The Lists of this program have no holes and the calls above give no
    start index or an integer.  [Array.prototype.indexOf] and its
    fallback also take array-likes with holes and a start index that is
    not an integer; here they are for those. *)

Module ArrayLike.

(** An array-like: its [length] is the length of the list, and [None] is
    an index that the object does not have (a hole).  It has no other
    properties with a number for a name. *)
Definition array_like := list (option prim).

(** The element at an index, [undefined] for a hole and past the end. *)
Definition element_at (t : array_like) (k : Z) : prim :=
  if k <? 0 then PUndefined else default PUndefined (mjoin (t !! Z.to_nat k)).

Definition is_integer (i : Q) : bool := Qeq_bool (inject_Z (Qfloor i)) i.

(** [t[i]] for a number [i]: [undefined] when [i] is not an index. *)
Definition get_index (t : array_like) (i : Q) : prim :=
  if is_integer i then element_at t (Qfloor i) else PUndefined.

(** The [for] loop of the fallback: [n] iterations remain, [i] is the
    loop variable; [None] is the [undefined] of a function that ends
    without a [return]. *)
Fixpoint shim_scan (t : array_like) (search : prim) (n : nat) (i : Q) : option Q :=
  match n with
  | O => None
  | S n' =>
      if strict_eq (get_index t i) search then Some i
      else shim_scan t search n' (i + 1)%Q
  end.

(** The fallback of [globals.js].  The loop runs while [i < max], that is
    [ceiling (max - i)] times. *)
Definition arrIndexOf_shim (t : array_like) (search : prim) (fromIndex : option Q)
    : option Q :=
  if (length t =? 0)%nat then Some (inject_Z (-1))
  else
    let i := match fromIndex with
             | Some q => if Qeq_bool q 0 then 0%Q else q
             | None => 0%Q
             end in
    let max := Z.of_nat (length t) in
    shim_scan t search (Z.to_nat (Qceiling (inject_Z max - i)%Q)) i.

(** [ToInteger] of a finite number: towards zero. *)
Definition ToInteger (q : Q) : Z :=
  if Qle_bool 0 q then Qfloor q else Qceiling q.

(** ES5 15.4.4.14, step 9: the indices from [k] on; an index that the
    object does not have is passed over. *)
Fixpoint first_index_from (t : array_like) (search : prim) (n : nat) (k : Z) : Z :=
  match n with
  | O => -1
  | S n' =>
      match t !! Z.to_nat k with
      | Some (Some elementK) =>
          if strict_eq elementK search then k
          else first_index_from t search n' (k + 1)
      | _ => first_index_from t search n' (k + 1)
      end
  end.

(** The built-in [Array.prototype.indexOf] (ES5 15.4.4.14). *)
Definition builtin_indexOf (t : array_like) (search : prim) (fromIndex : option Q) : Z :=
  let len := Z.of_nat (length t) in
  if len =? 0 then -1
  else
    let n := match fromIndex with
             | Some q => ToInteger q
             | None => 0
             end in
    if len <=? n then -1
    else
      let k := if 0 <=? n then n else Z.max (len - Z.abs n) 0 in
      first_index_from t search (Z.to_nat (len - k)) k.

End ArrayLike.

(* ================================================================== *)
(** * Part II: theorems                                                *)
(* ================================================================== *)

(** ** Facts about [arrIndexOf] *)

Lemma get_index_List_of (l : list string) (j : Z) (c : string) :
  get_index (List_of l) j = PString c <-> 0 <= j /\ l !! Z.to_nat j = Some c.
Proof.
  unfold get_index, List_of.
  destruct (Z.ltb_spec j 0) as [Hneg | Hpos].
  - split; [discriminate | lia].
  - rewrite list_lookup_fmap.
    destruct (l !! Z.to_nat j) as [x |] eqn:Hl; simpl.
    + split.
      * intros [= ->]. auto.
      * intros [_ [= ->]]. reflexivity.
    + split; [discriminate | intros [_ H]; discriminate].
Qed.

Lemma strict_eq_true (a b : prim) : strict_eq a b = true <-> a = b.
Proof. unfold strict_eq. apply bool_decide_eq_true. Qed.

Lemma strict_eq_false (a b : prim) : strict_eq a b = false <-> a <> b.
Proof. unfold strict_eq. apply bool_decide_eq_false. Qed.

(** What the loop of the fallback returns: the first hit in [i, i + n),
    or nothing when there is none. *)
Lemma shim_scan_spec (t : list prim) (search : prim) (n : nat) :
  forall i,
    match shim_scan t search n i with
    | Some j => i <= j < i + Z.of_nat n /\ get_index t j = search /\
                forall k, i <= k < j -> get_index t k <> search
    | None => forall k, i <= k < i + Z.of_nat n -> get_index t k <> search
    end.
Proof.
  induction n as [| n IH]; intros i; simpl.
  - intros k Hk. lia.
  - destruct (strict_eq (get_index t i) search) eqn:Heq.
    + apply strict_eq_true in Heq.
      split; [lia | split; [exact Heq | intros k Hk; lia]].
    + apply strict_eq_false in Heq. specialize (IH (i + 1)).
      destruct (shim_scan t search n (i + 1)) as [j |].
      * destruct IH as (Hj & Hget & Hfirst).
        split; [lia | split; [exact Hget |]].
        intros k Hk. destruct (Z.eq_dec k i) as [-> | Hne]; [exact Heq |].
        apply Hfirst. lia.
      * intros k Hk. destruct (Z.eq_dec k i) as [-> | Hne]; [exact Heq |].
        apply IH. lia.
Qed.

Lemma first_index_from_spec (t : list prim) (search : prim) (n : nat) :
  forall k, 0 <= k ->
    let r := first_index_from t search n k in
    (r = -1 /\ forall j, k <= j < k + Z.of_nat n -> get_index t j <> search) \/
    (k <= r < k + Z.of_nat n /\ get_index t r = search /\
     forall j, k <= j < r -> get_index t j <> search).
Proof.
  induction n as [| n IH]; intros k Hk; simpl.
  - left. split; [reflexivity | intros j Hj; lia].
  - destruct (strict_eq (get_index t k) search) eqn:Heq.
    + apply strict_eq_true in Heq. right.
      split; [lia | split; [exact Heq | intros j Hj; lia]].
    + apply strict_eq_false in Heq.
      destruct (IH (k + 1) ltac:(lia)) as [[Hr Hnone] | (Hr & Hget & Hfirst)].
      * left. split; [exact Hr |].
        intros j Hj. destruct (Z.eq_dec j k) as [-> | Hne]; [exact Heq |].
        apply Hnone. lia.
      * right. split; [lia | split; [exact Hget |]].
        intros j Hj. destruct (Z.eq_dec j k) as [-> | Hne]; [exact Heq |].
        apply Hfirst. lia.
Qed.

Lemma elem_of_get_index (l : list string) (c : string) :
  c ∈ l <-> exists j, 0 <= j < Z.of_nat (length l) /\ get_index (List_of l) j = PString c.
Proof.
  rewrite list_elem_of_lookup. split.
  - intros [i Hi]. exists (Z.of_nat i). split.
    + apply lookup_lt_Some in Hi. lia.
    + apply get_index_List_of. rewrite Nat2Z.id. split; [lia | exact Hi].
  - intros (j & Hj & Hget). apply get_index_List_of in Hget as [_ Hl]. eauto.
Qed.

(** On a List of strings, with no start index, both versions of
    [arrIndexOf] give a result above [-1] exactly for the members. *)
Lemma arrIndexOf_gt_minus_one (E : env) (l : list string) (c : string) :
  gt_minus_one (arrIndexOf E (List_of l) (PString c) None) = true <-> c ∈ l.
Proof.
  rewrite elem_of_get_index.
  unfold arrIndexOf, builtin_indexOf, arrIndexOf_shim.
  assert (Hlen : length (List_of l) = length l) by (unfold List_of; apply length_fmap).
  rewrite Hlen. simpl default.
  destruct (native_indexOf E).
  - destruct (Z.eqb_spec (Z.of_nat (length l)) 0) as [H0 | Hn0].
    { simpl. split; [discriminate | intros (j & Hj & _); lia]. }
    destruct (Z.leb_spec (Z.of_nat (length l)) 0) as [Hle | Hgt]; [lia |].
    simpl. rewrite Z.sub_0_r, Nat2Z.id.
    destruct (first_index_from_spec (List_of l) (PString c) (length l) 0 ltac:(lia))
      as [[Hr Hnone] | (Hr & Hget & _)].
    + rewrite Hr. simpl. split; [discriminate |].
      intros (j & Hj & Hget). exfalso. apply (Hnone j); [lia | exact Hget].
    + split.
      * intros _. eexists. split; [| exact Hget]. lia.
      * intros _. apply Z.ltb_lt. lia.
  - destruct (Nat.eqb_spec (length l) 0) as [H0 | Hn0].
    { simpl. split; [discriminate | intros (j & Hj & _); lia]. }
    rewrite Z.sub_0_r, Nat2Z.id.
    pose proof (shim_scan_spec (List_of l) (PString c) (length l) 0) as Hs.
    destruct (shim_scan (List_of l) (PString c) (length l) 0) as [j |]; simpl.
    + destruct Hs as (Hj & Hget & _). split.
      * intros _. exists j. split; [lia | exact Hget].
      * intros _. apply Z.ltb_lt. lia.
    + split; [discriminate |].
      intros (j & Hj & Hget). exfalso. apply (Hs j); [lia | exact Hget].
Qed.

(** ** Facts about strings *)

Lemma take_length (n : nat) (s : string) :
  String.length (JS.take n s) = Nat.min n (String.length s).
Proof.
  revert s. induction n as [| n IH]; intros [| c s]; simpl; auto.
Qed.

Lemma drop_0 (s : string) : JS.drop 0 s = s.
Proof. destruct s; reflexivity. Qed.

Lemma substring_prefix (s : string) (p : Z) :
  0 <= p <= Z.of_nat (String.length s) ->
  JS.substring s 0 p = JS.take (Z.to_nat p) s.
Proof.
  intros Hp. unfold JS.substring, JS.clamp.
  replace (Z.max 0 (Z.min 0 (Z.of_nat (String.length s)))) with 0 by lia.
  replace (Z.max 0 (Z.min p (Z.of_nat (String.length s)))) with p by lia.
  replace (Z.min 0 p) with 0 by lia.
  replace (Z.max 0 p - 0) with p by lia.
  simpl Z.to_nat. rewrite drop_0. reflexivity.
Qed.

Lemma get_lt_length (s : string) (i : nat) (c : ascii) :
  String.get i s = Some c -> (i < String.length s)%nat.
Proof.
  revert i. induction s as [| a s IH]; intros [| i]; simpl; try discriminate; try lia.
  intros H. apply IH in H. lia.
Qed.

Lemma charAt_is (s : string) (i : Z) (c : ascii) :
  String.eqb (JS.charAt s i) (String c "") = true <->
  0 <= i /\ String.get (Z.to_nat i) s = Some c.
Proof.
  unfold JS.charAt. destruct (Z.ltb_spec i 0) as [Hneg | Hpos].
  - simpl. split; [discriminate | lia].
  - destruct (String.get (Z.to_nat i) s) as [a |].
    + rewrite String.eqb_eq. split.
      * intros [= ->]. auto.
      * intros [_ [= ->]]. reflexivity.
    + simpl. split; [discriminate | intros [_ H]; discriminate].
Qed.

(** [lastIndexOf]: [-1] when the character is absent, else the index of
    its last occurrence. *)
Lemma lastIndexOf_from_spec (c : ascii) (s : string) :
  forall i, 0 <= i ->
    let r := JS.lastIndexOf_from c s i in
    (r = -1 /\ forall k, String.get k s <> Some c) \/
    (i <= r < i + Z.of_nat (String.length s) /\
     String.get (Z.to_nat (r - i)) s = Some c /\
     forall k, (Z.to_nat (r - i) < k)%nat -> String.get k s <> Some c).
Proof.
  induction s as [| a s IH]; intros i Hi; simpl.
  - left. split; [reflexivity | intros [| k]; discriminate].
  - destruct (IH (i + 1) ltac:(lia)) as [[Hr Hnone] | (Hr & Hget & Hlast)].
    + rewrite Hr. simpl. destruct (Ascii.eqb_spec a c) as [-> | Hne].
      * right. split; [lia |]. rewrite Z.sub_diag. simpl. split; [reflexivity |].
        intros [| k] Hk; [lia |]. simpl. apply Hnone.
      * left. split; [reflexivity |].
        intros [| k]; simpl; [congruence | apply Hnone].
    + destruct (Z.leb_spec 0 (JS.lastIndexOf_from c s (i + 1))) as [_ | Hlt]; [| lia].
      right. split; [lia |].
      replace (Z.to_nat (JS.lastIndexOf_from c s (i + 1) - i))
        with (S (Z.to_nat (JS.lastIndexOf_from c s (i + 1) - (i + 1)))) by lia.
      simpl. split; [exact Hget |].
      intros [| k] Hk; [lia |]. simpl. apply Hlast. lia.
Qed.

Lemma lastIndexOf_spec (c : ascii) (s : string) :
  let r := JS.lastIndexOf c s in
  (r = -1 /\ forall k, String.get k s <> Some c) \/
  (0 <= r < Z.of_nat (String.length s) /\
   String.get (Z.to_nat r) s = Some c /\
   forall k, (Z.to_nat r < k)%nat -> String.get k s <> Some c).
Proof.
  unfold JS.lastIndexOf.
  destruct (lastIndexOf_from_spec c s 0 ltac:(lia)) as [H | (Hr & Hget & Hlast)].
  - left. exact H.
  - right. rewrite Z.sub_0_r in Hget, Hlast. auto.
Qed.

(** ** 9.2.2 BestAvailableLocale *)

Lemma truncation_point_spec (candidate : string) (pos : Z) :
  0 <= pos ->
  (after_short_segment candidate (Z.to_nat pos) /\
   truncation_point candidate pos = pos - 2) \/
  (~ after_short_segment candidate (Z.to_nat pos) /\
   truncation_point candidate pos = pos).
Proof.
  intros Hpos. unfold truncation_point, after_short_segment.
  destruct (Z.leb_spec 2 pos) as [H2 | H2]; simpl.
  - destruct (String.eqb (JS.charAt candidate (pos - 2)) "-") eqn:Hc.
    + left. apply (charAt_is candidate (pos - 2) dash) in Hc as [_ Hget].
      replace (Z.to_nat pos - 2)%nat with (Z.to_nat (pos - 2)) by lia.
      split; [split; [lia | exact Hget] | reflexivity].
    + right. split; [| reflexivity]. intros [_ Hget].
      replace (Z.to_nat pos - 2)%nat with (Z.to_nat (pos - 2)) in Hget by lia.
      assert (String.eqb (JS.charAt candidate (pos - 2)) "-" = true) as Ht
        by (apply (charAt_is candidate (pos - 2) dash); split; [lia | exact Hget]).
      congruence.
  - right. split; [| reflexivity]. intros [Hge _]. lia.
Qed.

(** The loop returns as soon as it has more fuel than the candidate has
    characters, and what it returns is what the description asks for. *)
Lemma BestAvailableLocale_loop_returns (E : env) (availableLocales : list string) :
  forall fuel candidate,
    (String.length candidate < fuel)%nat ->
    exists r,
      BestAvailableLocale_loop E fuel availableLocales candidate = Some r /\
      best_available availableLocales candidate r.
Proof.
  induction fuel as [| fuel IH]; intros candidate Hfuel; [lia |].
  simpl.
  destruct (gt_minus_one (arrIndexOf E (List_of availableLocales) (PString candidate) None))
    eqn:Hin.
  - apply arrIndexOf_gt_minus_one in Hin.
    exists (Some candidate). split; [reflexivity | apply best_present; exact Hin].
  - assert (Hnotin : candidate ∉ availableLocales).
    { intros H. apply (arrIndexOf_gt_minus_one E) in H. congruence. }
    destruct (lastIndexOf_spec dash candidate) as [[Hr Hnone] | (Hr & Hget & Hlast)];
      fold dash.
    + rewrite Hr. simpl.
      exists None. split; [reflexivity | apply best_no_match; assumption].
    + destruct (Z.ltb_spec (JS.lastIndexOf dash candidate) 0) as [Hneg | _]; [lia |].
      set (pos := JS.lastIndexOf dash candidate) in *.
      assert (Hsep : last_separator candidate (Z.to_nat pos)) by (split; assumption).
      destruct (truncation_point_spec candidate pos ltac:(lia)) as [[Hseg Hcut] | [Hseg Hcut]].
      * assert (2 <= pos) by (destruct Hseg; lia).
        rewrite Hcut, substring_prefix by lia.
        destruct (IH (JS.take (Z.to_nat (pos - 2)) candidate)) as (r & Hloop & Hbest).
        { rewrite take_length. lia. }
        exists r. split; [exact Hloop |].
        apply best_shorter with (shorter := JS.take (Z.to_nat (pos - 2)) candidate);
          [exact Hnotin | | exact Hbest].
        replace (Z.to_nat (pos - 2)) with (Z.to_nat pos - 2)%nat by lia.
        apply truncate_before_segment; assumption.
      * rewrite Hcut, substring_prefix by lia.
        destruct (IH (JS.take (Z.to_nat pos) candidate)) as (r & Hloop & Hbest).
        { rewrite take_length. lia. }
        exists r. split; [exact Hloop |].
        apply best_shorter with (shorter := JS.take (Z.to_nat pos) candidate);
          [exact Hnotin | | exact Hbest].
        apply truncate_at_separator; assumption.
Qed.

Lemma last_separator_unique (s : string) (p q : nat) :
  last_separator s p -> last_separator s q -> p = q.
Proof.
  intros [Hp Hp'] [Hq Hq'].
  destruct (Nat.lt_trichotomy p q) as [Hlt | [Heq | Hgt]]; [| exact Heq |].
  - exfalso. exact (Hp' q Hlt Hq).
  - exfalso. exact (Hq' p Hgt Hp).
Qed.

Lemma truncates_to_unique (s a b : string) :
  truncates_to s a -> truncates_to s b -> a = b.
Proof.
  intros Ha Hb.
  destruct Ha as [p Hp Hps | p Hp Hps];
    destruct Hb as [q Hq Hqs | q Hq Hqs];
    pose proof (last_separator_unique s p q Hp Hq) as ->;
    solve [reflexivity | contradiction].
Qed.

(** The description determines the result. *)
Lemma best_available_unique (availableLocales : list string) (candidate : string)
    (r1 r2 : option string) :
  best_available availableLocales candidate r1 ->
  best_available availableLocales candidate r2 -> r1 = r2.
Proof.
  intros H1. revert r2.
  induction H1 as [c Hin | c Hnotin Hnone | c c' r Hnotin Hcut Hbest IH]; intros r2 H2.
  - inversion H2; subst; [reflexivity | contradiction | contradiction].
  - inversion H2 as [| | ? ? ? ? Hcut' ?]; subst; [contradiction | reflexivity |].
    exfalso. destruct Hcut' as [p [Hp _] _ | p [Hp _] _]; exact (Hnone p Hp).
  - inversion H2 as [| ? ? Hnone | ? c'' ? ? Hcut' Hbest']; subst; [contradiction | |].
    + exfalso. destruct Hcut as [p [Hp _] _ | p [Hp _] _]; exact (Hnone p Hp).
    + apply IH. rewrite (truncates_to_unique c c' c'' Hcut Hcut'). exact Hbest'.
Qed.

(** What is returned is a member of the available locales and a prefix of
    the requested tag. *)
Lemma best_available_sound (availableLocales : list string) (candidate : string)
    (r : option string) :
  best_available availableLocales candidate r ->
  forall found, r = Some found ->
    found ∈ availableLocales /\
    exists n, found = JS.take n candidate.
Proof.
  induction 1 as [c Hin | c Hnotin Hnone | c c' r Hnotin Hcut Hbest IH];
    intros found Hr.
  - injection Hr as <-. split; [exact Hin |].
    exists (String.length c). clear. induction c as [| a c IH]; simpl; congruence.
  - discriminate.
  - destruct (IH found Hr) as (Hin & n & Hn). split; [exact Hin |].
    assert (Htake : forall m k s, JS.take m (JS.take k s) = JS.take (Nat.min m k) s).
    { clear. induction m as [| m IHm]; intros [| k] [| a s]; simpl; auto.
      now rewrite IHm. }
    destruct Hcut as [p _ _ | p _ _]; rewrite Hn, Htake; eauto.
Qed.

(** C1.  For every List of available locales and every tag,
    [BestAvailableLocale] returns: its loop reaches a [return], the
    candidate itself when it is available, otherwise the result for the
    candidate cut at its last ["-"] (two characters earlier when a ["-"]
    sits there too), and [undefined] once no ["-"] is left.  It holds with
    the built-in [indexOf] and with the fallback.  With ["en-GB"] and
    ["fr"] available, ["en-GB-oed"] gives ["en-GB"]; with only ["fr"]
    available, ["en"] gives no match. *)
Theorem BestAvailableLocale_correct (E : env) (availableLocales : list string)
    (locale : string) :
  (exists r,
     BestAvailableLocale_loop E (S (String.length locale)) availableLocales locale = Some r) /\
  best_available availableLocales locale (BestAvailableLocale E availableLocales locale) /\
  BestAvailableLocale E ["en-GB"; "fr"] "en-GB-oed" = Some "en-GB" /\
  BestAvailableLocale E ["fr"] "en" = None.
Proof.
  destruct (BestAvailableLocale_loop_returns E availableLocales
              (S (String.length locale)) locale ltac:(lia)) as (r & Hloop & Hbest).
  split; [eauto |]. split.
  - unfold BestAvailableLocale. rewrite Hloop. exact Hbest.
  - clear. destruct E as [[|] ? ? ? ? ? ? ?]; split; vm_compute; reflexivity.
Qed.

(** ** The fallback [arrIndexOf] of [globals.js] against the built-in *)

(** C9.  The fallback is not the built-in: on an array-like that has
    elements, none of them equal to the value searched, the loop of the
    fallback runs out and the call yields [undefined], where the built-in
    yields [-1]. *)
Theorem arrIndexOf_shim_not_found (t : list prim) (search : prim) :
  (0 < length t)%nat ->
  (forall j, 0 <= j < Z.of_nat (length t) -> get_index t j <> search) ->
  arrIndexOf_shim t search None = None /\
  builtin_indexOf t search None = Some (-1).
Proof.
  intros Hlen Hnone. unfold arrIndexOf_shim, builtin_indexOf. simpl default.
  destruct (Nat.eqb_spec (length t) 0) as [H0 | _]; [lia |].
  destruct (Z.eqb_spec (Z.of_nat (length t)) 0) as [H0 | _]; [lia |].
  destruct (Z.leb_spec (Z.of_nat (length t)) 0) as [Hle | _]; [lia |].
  simpl. rewrite Z.sub_0_r, Nat2Z.id. split.
  - pose proof (shim_scan_spec t search (length t) 0) as Hs.
    destruct (shim_scan t search (length t) 0) as [i |]; [| reflexivity].
    destruct Hs as (Hi & Hget & _). exfalso. apply (Hnone i); [lia | exact Hget].
  - destruct (first_index_from_spec t search (length t) 0 ltac:(lia))
      as [[Hr _] | (Hr & Hget & _)]; [congruence |].
    exfalso. apply (Hnone (first_index_from t search (length t) 0)); [lia | exact Hget].
Qed.

Lemma arrIndexOf_shim_not_found_witness :
  arrIndexOf_shim [PString "a"] (PString "b") None = None /\
  builtin_indexOf [PString "a"] (PString "b") None = Some (-1).
Proof.
  apply (arrIndexOf_shim_not_found [PString "a"] (PString "b")).
  - simpl. lia.
  - intros j Hj. simpl in Hj. assert (j = 0) as -> by lia. vm_compute. discriminate.
Defined.

(** ** 9.2.5 ResolveLocale *)

(** C3.  With no available locale [ResolveLocale] throws the
    ReferenceError of its first statement, whatever the requested locales,
    the options, the relevant extension keys and the locale data are:
    nothing else of the function is evaluated. *)
Theorem ResolveLocale_no_locale_data (E : env) (requestedLocales : list string)
    (options : gmap string prim) (relevantExtensionKeys : list string)
    (localeData : gmap string (gmap string (list string))) :
  ResolveLocale E [] requestedLocales options relevantExtensionKeys localeData =
  Throw (ReferenceError "No locale data has been provided for this object yet.").
Proof. reflexivity. Qed.

Lemma gt_minus_one_not_minus_one (r : option Z) :
  gt_minus_one r = true -> not_minus_one r = true.
Proof.
  destruct r as [n |]; simpl; [| discriminate].
  unfold not_minus_one. simpl. intros H%Z.ltb_lt.
  destruct (Z.eqb_spec n (-1)); [lia | reflexivity].
Qed.

Lemma arrIndexOf_no_receiver_throws (E : env) :
  arrIndexOf_no_receiver E = Throw HostTypeError.
Proof. unfold arrIndexOf_no_receiver. destruct (native_indexOf E); reflexivity. Qed.

(** The first half of step 11.g: a key followed by a value of more than two
    characters that the locale allows takes that value (here without an
    option for the key). *)
Lemma ResolveLocale_key_requested_value (E : env) (extensionSubtags : list string)
    (options : gmap string prim) (foundLocaleData : gmap string (list string))
    (keyLocaleData : list string) (key requestedValue : string) :
  foundLocaleData !! key = Some keyLocaleData ->
  key ∈ extensionSubtags ->
  requested_value extensionSubtags
    (arrIndexOf E (List_of extensionSubtags) (PString key) None) = Some requestedValue ->
  requestedValue ∈ keyLocaleData ->
  options !! slot key = None ->
  ResolveLocale_key E (Some extensionSubtags) options (Some foundLocaleData) key =
  Normal (PString requestedValue, "-" +:+ key +:+ "-" +:+ requestedValue).
Proof.
  intros Hdata Hkey Hreq Hallowed Hopt. unfold ResolveLocale_key.
  rewrite Hdata. simpl.
  apply (arrIndexOf_gt_minus_one E) in Hkey. apply gt_minus_one_not_minus_one in Hkey.
  rewrite Hkey, Hreq.
  apply (arrIndexOf_gt_minus_one E) in Hallowed.
  apply gt_minus_one_not_minus_one in Hallowed.
  rewrite Hallowed. simpl. rewrite Hopt. reflexivity.
Qed.

(** C2.  The second half of step 11.g fails: when the extension names the
    key and no value of more than two characters follows it, the call
    [indexOf(keyLocaleData, 'true')] has no receiver and throws a
    TypeError, also when ["true"] is among the values that the locale
    allows for the key.  The value ["true"] is never taken. *)
Theorem ResolveLocale_key_without_value (E : env) (extensionSubtags : list string)
    (options : gmap string prim) (foundLocaleData : gmap string (list string))
    (keyLocaleData : list string) (key : string) :
  foundLocaleData !! key = Some keyLocaleData ->
  "true" ∈ keyLocaleData ->
  key ∈ extensionSubtags ->
  requested_value extensionSubtags
    (arrIndexOf E (List_of extensionSubtags) (PString key) None) = None ->
  ResolveLocale_key E (Some extensionSubtags) options (Some foundLocaleData) key =
  Throw HostTypeError.
Proof.
  intros Hdata _ Hkey Hreq. unfold ResolveLocale_key.
  rewrite Hdata. simpl.
  apply (arrIndexOf_gt_minus_one E) in Hkey. apply gt_minus_one_not_minus_one in Hkey.
  rewrite Hkey, Hreq, arrIndexOf_no_receiver_throws. reflexivity.
Qed.

Lemma ResolveLocale_key_without_value_witness :
  ResolveLocale_key (modelled_env true empty_registry None) (Some [""; "u"; "nu"]) ∅
    (Some {[ "nu" := ["latn"; "true"] ]}) "nu" = Throw HostTypeError.
Proof.
  apply (ResolveLocale_key_without_value (modelled_env true empty_registry None)
           [""; "u"; "nu"] ∅ {[ "nu" := ["latn"; "true"] ]} ["latn"; "true"] "nu").
  - reflexivity.
  - apply list_elem_of_In. simpl. auto.
  - apply list_elem_of_In. simpl. auto.
  - vm_compute. reflexivity.
Defined.

(** The same through the whole of [ResolveLocale], with the built-in
    [indexOf] and with the fallback: the request ["en-u-nu"] names the key
    [nu] without a value, ["true"] is allowed, and the call throws. *)
Lemma ResolveLocale_key_without_value_example (native : bool) :
  ResolveLocale (modelled_env native empty_registry None) ["en"] ["en-u-nu"]
    {[ "[[localeMatcher]]" := PString "lookup" ]} ["nu"]
    {[ "en" := {[ "nu" := ["latn"; "true"] ]} ]} = Throw HostTypeError.
Proof. destruct native; vm_compute; reflexivity. Qed.

(** ** 6.2.3 CanonicalizeLanguageTag *)

Lemma titlecase_charAt (p : string) :
  p <> "" -> JS.toUpperCase (JS.charAt p 0) +:+ JS.slice1 p = titlecase p.
Proof. destruct p as [| c s]; [congruence |]. intros _. reflexivity. Qed.

(** The first loop, started behind the subtags [pre] with enough
    iterations left for the subtags [rest], leaves [pre] alone and gives
    [rest] the case that the description asks for. *)
Lemma case_loop_spec (rest : list string) :
  forall n pre,
    (length rest <= n)%nat ->
    case_loop n (length pre) (pre ++ rest) = pre ++ case_subtags rest.
Proof.
  induction rest as [| p rest IH]; intros n pre Hn.
  - destruct n as [| n]; simpl; rewrite !app_nil_r; [reflexivity |].
    rewrite lookup_ge_None_2 by lia. reflexivity.
  - destruct n as [| n]; simpl in Hn; [lia |].
    simpl. rewrite list_lookup_middle by reflexivity.
    assert (Hins : forall q, <[length pre := q]> (pre ++ p :: rest) = (pre ++ [q]) ++ rest).
    { intros q. rewrite insert_app_r_alt by lia. rewrite Nat.sub_diag. simpl.
      rewrite <- app_assoc. reflexivity. }
    assert (Hnext : forall q, case_loop n (S (length pre)) ((pre ++ [q]) ++ rest)
                              = pre ++ q :: case_subtags rest).
    { intros q. replace (S (length pre)) with (length (pre ++ [q]))
        by (rewrite length_app; simpl; lia).
      rewrite IH by lia. rewrite <- app_assoc. reflexivity. }
    unfold stops_casing, special_case.
    destruct (Nat.eqb_spec (String.length p) 2) as [H2 | H2].
    + rewrite Hins, Hnext. destruct (Nat.eqb_spec (String.length p) 1); [lia |]. reflexivity.
    + destruct (Nat.eqb_spec (String.length p) 4) as [H4 | H4].
      * rewrite Hins, Hnext. destruct (Nat.eqb_spec (String.length p) 1); [lia |].
        simpl. rewrite titlecase_charAt; [reflexivity |]. intros ->. simpl in H4. lia.
      * destruct ((String.length p =? 1)%nat && negb (String.eqb p "x")); [reflexivity |].
        replace (pre ++ p :: rest) with ((pre ++ [p]) ++ rest)
          by (rewrite <- app_assoc; reflexivity).
        apply Hnext.
Qed.

Lemma split_not_nil (c : ascii) (s : string) : JS.split c s <> [].
Proof.
  destruct s as [| a s]; simpl; [discriminate |].
  destruct (Ascii.eqb a c); [discriminate |]. destruct (JS.split c s); discriminate.
Qed.

Lemma regularize_case_spec (tag : string) : regularize_case tag = canonical_case tag.
Proof.
  unfold regularize_case, canonical_case.
  destruct (JS.split "-" (JS.toLowerCase tag)) as [| first rest] eqn:Hs.
  - exfalso. exact (split_not_nil _ _ Hs).
  - replace (length (first :: rest) - 1)%nat with (length rest) by (simpl; lia).
    f_equal. apply (case_loop_spec rest (length rest) [first]). lia.
Qed.

Lemma subtag_loop_unfold (E : env) (n i max : nat) (parts : list string) :
  subtag_loop E (S n) i max parts =
  if (i <? max)%nat then
    let part := default "undefined" (parts !! i) in
    match subtags (redundantTags E) !! part with
    | Some preferred => subtag_loop E n (S i) max (<[i := preferred]> parts)
    | None =>
        match extLang (redundantTags E) !! part with
        | Some (preferred, _) =>
            let parts := <[i := preferred]> parts in
            if (i =? 1)%nat then
              match extLang (redundantTags E) !! default "undefined" (parts !! 1%nat) with
              | None => Throw HostTypeError
              | Some (_, prefix) =>
                  if bool_decide (Some prefix = parts !! 0%nat) then
                    subtag_loop E n (S (S i)) (max - 1) (List.skipn i parts)
                  else subtag_loop E n (S i) max parts
              end
            else subtag_loop E n (S i) max parts
        | None => subtag_loop E n (S i) max parts
        end
    end
  else Normal parts.
Proof. reflexivity. Qed.

(** The second loop ends by its own test: once the iterations left reach
    past [max], their number does not matter. *)
Lemma subtag_loop_fuel (E : env) :
  forall n m i max parts,
    (max < i + n)%nat -> (max < i + m)%nat ->
    subtag_loop E n i max parts = subtag_loop E m i max parts.
Proof.
  induction n as [| n IH]; intros [| m] i max parts Hn Hm.
  - reflexivity.
  - rewrite subtag_loop_unfold. destruct (Nat.ltb_spec i max); [lia | reflexivity].
  - rewrite subtag_loop_unfold. destruct (Nat.ltb_spec i max); [lia | reflexivity].
  - rewrite !subtag_loop_unfold. destruct (Nat.ltb_spec i max); [| reflexivity].
    cbv zeta. repeat case_match; try reflexivity; apply IH; lia.
Qed.

(** C4.  Canonicalization is not idempotent on structurally valid tags.
    With a registry that knows the extended language [yue] with its prefix
    [zh] and the deprecated region [BU], the valid tag ["zh-yue-BU"]
    becomes ["yue-BU"]: when the second loop removes the prefix it
    advances [i] twice and never looks at [BU].  Canonicalizing the result
    again gives ["yue-MM"]. *)
Theorem CanonicalizeLanguageTag_not_idempotent (native : bool) (R : registry)
    (default_locale : option string) :
  tags R !! "zh-yue-BU" = None ->
  tags R !! "yue-BU" = None ->
  subtags R !! "yue" = None ->
  extLang R !! "yue" = Some ("yue", "zh") ->
  subtags R !! "BU" = Some "MM" ->
  let E := modelled_env native R default_locale in
  IsStructurallyValidLanguageTag E "zh-yue-BU" = true /\
  CanonicalizeLanguageTag E "zh-yue-BU" = Normal "yue-BU" /\
  (CanonicalizeLanguageTag E "zh-yue-BU" ≫= CanonicalizeLanguageTag E) = Normal "yue-MM".
Proof.
  intros Ht1 Ht2 Hs1 He Hs2 E.
  split; [vm_compute; reflexivity |].
  assert (Hfirst : CanonicalizeLanguageTag E "zh-yue-BU" = Normal "yue-BU").
  { unfold CanonicalizeLanguageTag, replace_redundant_tag.
    replace (sort_extensions E (regularize_case "zh-yue-BU")) with "zh-yue-BU"
      by (vm_compute; reflexivity).
    simpl redundantTags. rewrite Ht1.
    change (JS.split "-" "zh-yue-BU") with ["zh"; "yue"; "BU"].
    simpl length. rewrite subtag_loop_unfold. simpl redundantTags.
    cbv zeta. simpl default. rewrite Hs1, He. simpl. rewrite He. simpl. reflexivity. }
  split; [exact Hfirst |].
  rewrite Hfirst. simpl mbind.
  unfold CanonicalizeLanguageTag, replace_redundant_tag.
  replace (sort_extensions E (regularize_case "yue-BU")) with "yue-BU"
    by (vm_compute; reflexivity).
  simpl redundantTags. rewrite Ht2.
  change (JS.split "-" "yue-BU") with ["yue"; "BU"].
  simpl length. rewrite subtag_loop_unfold. simpl redundantTags.
  cbv zeta. simpl default. rewrite Hs2. simpl. reflexivity.
Qed.

Lemma CanonicalizeLanguageTag_not_idempotent_witness :
  let E := modelled_env true sample_registry None in
  IsStructurallyValidLanguageTag E "zh-yue-BU" = true /\
  CanonicalizeLanguageTag E "zh-yue-BU" = Normal "yue-BU" /\
  (CanonicalizeLanguageTag E "zh-yue-BU" ≫= CanonicalizeLanguageTag E) = Normal "yue-MM".
Proof.
  apply (CanonicalizeLanguageTag_not_idempotent true sample_registry None);
    vm_compute; reflexivity.
Defined.

(** A second way in which the second pass differs, through step 1: the
    pattern also finds a sequence inside the private-use part, and the
    first run of sequences is replaced by all the matches joined. *)
Lemma CanonicalizeLanguageTag_extension_example (native : bool) :
  let E := modelled_env native empty_registry None in
  IsStructurallyValidLanguageTag E "en-a-bb-x-c-dd" = true /\
  CanonicalizeLanguageTag E "en-a-bb-x-c-dd" = Normal "en-a-bb-c-dd-x-c-dd" /\
  CanonicalizeLanguageTag E "en-a-bb-c-dd-x-c-dd" = Normal "en-a-bb-c-dd-c-dd-x-c-dd".
Proof. destruct native; vm_compute; auto. Qed.

(** ** 12.1.1 ToDateTimeOptions *)

Lemma defined_false (p : prim) : defined p = false <-> p = PUndefined.
Proof.
  unfold defined, strict_eq. rewrite negb_false_iff. apply bool_decide_eq_true.
Qed.

Lemma defined_true (p : prim) : defined p = true <-> p <> PUndefined.
Proof.
  unfold defined, strict_eq. rewrite negb_true_iff. apply bool_decide_eq_false.
Qed.





(** ** 12.1.1 BasicFormatMatcher *)

Lemma rank_cases (v : prim) (r : Z) :
  rank v = Some r ->
  (v = PString "2-digit" /\ r = 0) \/ (v = PString "numeric" /\ r = 1) \/
  (v = PString "narrow" /\ r = 2) \/ (v = PString "short" /\ r = 3) \/
  (v = PString "long" /\ r = 4).
Proof.
  destruct v as [| | | | s]; simpl; try discriminate.
  repeat (match goal with
          | |- context [String.eqb s ?t] =>
              destruct (String.eqb_spec s t) as [-> | ?]
          end; [intros [= <-]; tauto |]).
  discriminate.
Qed.

Lemma arrIndexOf_style (E : env) (v : prim) (r : Z) :
  rank v = Some r -> arrIndexOf E (List_of style_values) v None = Some r.
Proof.
  intros Hr. unfold arrIndexOf.
  destruct (rank_cases v r Hr) as [[-> ->] | [[-> ->] | [[-> ->] | [[-> ->] | [-> ->]]]]];
    destruct (native_indexOf E); reflexivity.
Qed.

Lemma arrIndexOf_style_undefined (E : env) :
  arrIndexOf E (List_of style_values) PUndefined None = Some (-1) \/
  arrIndexOf E (List_of style_values) PUndefined None = None.
Proof. unfold arrIndexOf. destruct (native_indexOf E); [left | right]; reflexivity. Qed.

Lemma score_property_charge (E : env) (options format : gmap string prim)
    (score : Z) (p : string) :
  on_scale (get_field options (slot p)) = true ->
  on_scale (get_field format p) = true ->
  score_property E options format score p = score - component_charge options format p.
Proof.
  unfold on_scale, score_property, component_charge.
  set (o := get_field options (slot p)). set (f := get_field format p).
  destruct (defined o) eqn:Ho, (defined f) eqn:Hf; cbn [negb andb orb].
  - destruct (rank o) as [ro |] eqn:Hro; [| discriminate].
    destruct (rank f) as [rf |] eqn:Hrf; [| discriminate].
    intros _ _. rewrite (arrIndexOf_style E o ro Hro), (arrIndexOf_style E f rf Hrf).
    unfold distance_charge, longMorePenalty, shortMorePenalty, shortLessPenalty, longLessPenalty.
    replace (Z.max (Z.min (rf - ro) 2) (-2)) with (Z.max (-2) (Z.min 2 (rf - ro))) by lia.
    repeat case_match; lia.
  - intros _ _. unfold removalPenalty. lia.
  - intros _ _. unfold additionPenalty. lia.
  - intros _ _. apply defined_false in Ho, Hf. rewrite Ho, Hf.
    destruct (arrIndexOf_style_undefined E) as [-> | ->]; [| lia].
    change (Z.max (Z.min (-1 - -1) 2) (-2)) with 0. cbn. lia.
Qed.

Lemma foldl_score_charge (E : env) (options format : gmap string prim) (names : list string) :
  forall score,
    forallb (fun p => on_scale (get_field options (slot p)) && on_scale (get_field format p))
      names = true ->
    foldl (score_property E options format) score names =
    score - foldr Z.add 0 (component_charge options format <$> names).
Proof.
  induction names as [| p names IH]; intros score Hwell.
  - simpl. lia.
  - change (foldl (score_property E options format) score (p :: names))
      with (foldl (score_property E options format) (score_property E options format score p) names).
    change (foldr Z.add 0 (component_charge options format <$> p :: names))
      with (component_charge options format p + foldr Z.add 0 (component_charge options format <$> names)).
    cbn [forallb] in Hwell. apply andb_true_iff in Hwell as [Hp Hrest].
    apply andb_true_iff in Hp as [Ho Hf].
    rewrite IH by exact Hrest. rewrite score_property_charge by assumption. lia.
Qed.

Lemma format_score_charge (E : env) (options format : gmap string prim) :
  well_styled options format = true ->
  format_score E options format = - total_charge options format.
Proof.
  intros Hwell. unfold format_score, total_charge.
  rewrite foldl_score_charge by exact Hwell. lia.
Qed.

Lemma BasicFormatMatcher_loop_cons (E : env) (options : gmap string prim)
    (format : gmap string prim) (formats : list (gmap string prim))
    (bestScore : option Z) (bestFormat : option (gmap string prim)) :
  BasicFormatMatcher_loop E options (format :: formats) bestScore bestFormat =
  if better (format_score E options format) bestScore
  then BasicFormatMatcher_loop E options formats
         (Some (format_score E options format)) (Some format)
  else BasicFormatMatcher_loop E options formats bestScore bestFormat.
Proof. reflexivity. Qed.

Lemma better_Some (score best : Z) : better score (Some best) = (best <? score).
Proof. reflexivity. Qed.

Lemma better_None (score : Z) : better score None = true.
Proof. reflexivity. Qed.

Lemma BasicFormatMatcher_loop_chosen (E : env) (options : gmap string prim) :
  forall formats seen bestScore bestFormat,
    chosen E options seen bestScore bestFormat ->
    exists bestScore',
      chosen E options (seen ++ formats) bestScore'
        (BasicFormatMatcher_loop E options formats bestScore bestFormat).
Proof.
  induction formats as [| format formats IH]; intros seen bestScore bestFormat Hch.
  - rewrite app_nil_r. exists bestScore. exact Hch.
  - rewrite BasicFormatMatcher_loop_cons.
    replace (seen ++ format :: formats) with ((seen ++ [format]) ++ formats)
      by (rewrite <- app_assoc; reflexivity).
    destruct (better (format_score E options format) bestScore) eqn:Hb.
    + apply IH. unfold chosen. exists (length seen).
      split; [apply list_lookup_middle; reflexivity |]. split; [reflexivity |].
      destruct bestFormat as [best |].
      * destruct Hch as (i & Hi & -> & Hmax & Hfirst). rewrite better_Some in Hb.
        apply Z.ltb_lt in Hb. split.
        -- intros j f Hj. apply lookup_app_Some in Hj as [Hj | [_ Hj]].
           ++ specialize (Hmax j f Hj). lia.
           ++ apply list_lookup_singleton_Some in Hj as [_ <-]. lia.
        -- intros j f Hlt Hj. rewrite lookup_app_l in Hj by lia.
           specialize (Hmax j f Hj). lia.
      * destruct Hch as [-> ->]. split.
        -- intros j f Hj. rewrite app_nil_l in Hj.
           apply list_lookup_singleton_Some in Hj as [_ <-]. lia.
        -- intros j f Hlt Hj. change (length (@nil (gmap string prim))) with 0%nat in Hlt. lia.
    + apply IH. destruct bestFormat as [best |].
      * destruct Hch as (i & Hi & -> & Hmax & Hfirst). rewrite better_Some in Hb.
        apply Z.ltb_ge in Hb. exists i.
        split; [apply lookup_app_l_Some; exact Hi |]. split; [reflexivity |]. split.
        -- intros j f Hj. apply lookup_app_Some in Hj as [Hj | [_ Hj]].
           ++ exact (Hmax j f Hj).
           ++ apply list_lookup_singleton_Some in Hj as [_ <-]. lia.
        -- intros j f Hlt Hj. apply lookup_lt_Some in Hi.
           rewrite lookup_app_l in Hj by lia. exact (Hfirst j f Hlt Hj).
      * destruct Hch as [_ ->]. rewrite better_None in Hb. discriminate.
Qed.

(** C7.  [BasicFormatMatcher] gives each format the score that its charges
    add up to, taken from zero: 120 for every component that the options
    request and the format lacks, 20 for every component that the format
    has and the options do not request, and the distance charge where both
    give a style (for styles on the scale).  It returns the first of the
    formats with the highest score, and nothing when there are no formats.
    For a request of a numeric year, a format with a numeric year and a
    long month scores 20 less than a format with just the numeric year,
    which is chosen in either order. *)
Theorem BasicFormatMatcher_correct (E : env) (options : gmap string prim)
    (formats : list (gmap string prim)) :
  (forall format, format ∈ formats -> well_styled options format = true) ->
  (forall format, format ∈ formats ->
     format_score E options format = - total_charge options format) /\
  (exists bestScore,
     chosen E options formats bestScore (BasicFormatMatcher E options formats)) /\
  format_score E year_request year_format = 0 /\
  format_score E year_request year_month_format = -20 /\
  BasicFormatMatcher E year_request [year_month_format; year_format] = Some year_format /\
  BasicFormatMatcher E year_request [year_format; year_month_format] = Some year_format.
Proof.
  intros Hwell. split; [| split].
  - intros format Hin. apply format_score_charge. exact (Hwell format Hin).
  - apply (BasicFormatMatcher_loop_chosen E options formats [] None None).
    split; reflexivity.
  - clear. destruct E as [[|] ? ? ? ? ? ? ?]; repeat split; vm_compute; reflexivity.
Qed.

Lemma BasicFormatMatcher_correct_witness :
  let E := modelled_env true empty_registry None in
  let formats := [year_month_format; year_format] in
  (forall format, format ∈ formats ->
     format_score E year_request format = - total_charge year_request format) /\
  (exists bestScore,
     chosen E year_request formats bestScore (BasicFormatMatcher E year_request formats)) /\
  format_score E year_request year_format = 0 /\
  format_score E year_request year_month_format = -20 /\
  BasicFormatMatcher E year_request [year_month_format; year_format] = Some year_format /\
  BasicFormatMatcher E year_request [year_format; year_month_format] = Some year_format.
Proof.
  apply (BasicFormatMatcher_correct (modelled_env true empty_registry None) year_request
           [year_month_format; year_format]).
  intros format Hin. apply list_elem_of_In in Hin. simpl in Hin.
  destruct Hin as [<- | [<- | []]]; vm_compute; reflexivity.
Defined.

(** ** 12.3.2 FormatDateTime and ToLocalTime *)







(** ** [toLatinUpperCase] and 6.3.1 *)

Lemma take_drop_get (s : string) :
  forall i c, String.get i s = Some c ->
    s = JS.take i s +:+ String c (JS.drop (S i) s).
Proof.
  induction s as [| a s IH]; intros [| i] c Hget; try discriminate.
  - injection Hget as ->. reflexivity.
  - change (String a s = String a (JS.take i s +:+ String c (JS.drop (S i) s))).
    f_equal. apply IH. exact Hget.
Qed.

Lemma take_app_exact (a b : string) : JS.take (String.length a) (a +:+ b) = a.
Proof. induction a as [| c a IH]; simpl; [destruct b; reflexivity | now rewrite IH]. Qed.

Lemma drop_app_exact (a b : string) : JS.drop (String.length a) (a +:+ b) = b.
Proof. induction a as [| c a IH]; simpl; [destruct b; reflexivity | exact IH]. Qed.

Lemma map_chars_app (f : ascii -> ascii) (a b : string) :
  JS.map_chars f (a +:+ b) = JS.map_chars f a +:+ JS.map_chars f b.
Proof. induction a as [| c a IH]; simpl; [reflexivity | now rewrite IH]. Qed.

Lemma map_chars_length (f : ascii -> ascii) (s : string) :
  String.length (JS.map_chars f s) = String.length s.
Proof. induction s as [| c s IH]; simpl; [reflexivity | now rewrite IH]. Qed.

Lemma append_cons (x : ascii) (a b : string) : String x a +:+ b = String x (a +:+ b).
Proof. reflexivity. Qed.

Lemma app_assoc_string (a b c : string) : (a +:+ b) +:+ c = a +:+ (b +:+ c).
Proof.
  induction a as [| x a IH]; [reflexivity |].
  rewrite !append_cons. f_equal. exact IH.
Qed.

Lemma latin_range (c : ascii) :
  String.leb "a" (String c "") && String.leb (String c "") "z" = JS.is_lower c.
Proof. destruct c as [[] [] [] [] [] [] [] []]; reflexivity. Qed.

Lemma charAt_get (s : string) (i : nat) (c : ascii) :
  String.get i s = Some c -> JS.charAt s (Z.of_nat i) = String c "".
Proof.
  intros Hget. unfold JS.charAt.
  destruct (Z.ltb_spec (Z.of_nat i) 0) as [Hneg | _]; [lia |].
  rewrite Nat2Z.id, Hget. reflexivity.
Qed.

Lemma get_is_Some (s : string) (i : nat) :
  (i < String.length s)%nat -> exists c, String.get i s = Some c.
Proof.
  revert i. induction s as [| a s IH]; intros [| i] Hi; simpl in *; try lia; eauto.
  apply IH. lia.
Qed.

Lemma upper_char_not_lower (c : ascii) : JS.is_lower c = false -> JS.upper_char c = c.
Proof. unfold JS.upper_char. intros ->. reflexivity. Qed.

(** After the positions from [i] on have been visited, the text is the
    first [i] characters still to visit followed by the rest as the loop
    left it. *)
Lemma toLatinUpperCase_loop_spec :
  forall i str,
    (i <= String.length str)%nat ->
    toLatinUpperCase_loop i str =
    JS.map_chars JS.upper_char (JS.take i str) +:+ JS.drop i str.
Proof.
  induction i as [| i IH]; intros str Hi.
  - simpl. destruct str; reflexivity.
  - destruct (get_is_Some str i ltac:(lia)) as [c Hc].
    pose proof (take_drop_get str i c Hc) as Hsplit.
    assert (Hlen : String.length (JS.take i str) = i)
      by (rewrite take_length; lia).
    assert (Htake : JS.take (S i) str = JS.take i str +:+ String c "").
    { clear -Hc. revert i Hc. induction str as [| a s IHs]; intros [| i] Hc;
        try discriminate.
      - injection Hc as ->. reflexivity.
      - change (String a (JS.take (S i) s) = String a (JS.take i s +:+ String c "")).
        f_equal. apply IHs. exact Hc. }
    cbn [toLatinUpperCase_loop]. cbv zeta. rewrite (charAt_get str i c Hc), latin_range.
    set (str' := JS.take i str +:+ String (JS.upper_char c) (JS.drop (S i) str)).
    assert (Hstr' : (if JS.is_lower c
                     then JS.take i str +:+ JS.toUpperCase (String c "") +:+ JS.drop (S i) str
                     else str) = str').
    { subst str'. destruct (JS.is_lower c) eqn:Hl.
      - reflexivity.
      - rewrite (upper_char_not_lower c Hl). exact Hsplit. }
    rewrite Hstr'. rewrite IH.
    + pose proof (take_app_exact (JS.take i str)
                    (String (JS.upper_char c) (JS.drop (S i) str))) as Ht.
      pose proof (drop_app_exact (JS.take i str)
                    (String (JS.upper_char c) (JS.drop (S i) str))) as Hd.
      rewrite Hlen in Ht, Hd. fold str' in Ht, Hd. rewrite Ht, Hd.
      rewrite Htake, map_chars_app, app_assoc_string. reflexivity.
    + subst str'. rewrite <- (map_chars_length (fun x => x)) at 1.
      assert (Hl : forall a b, String.length (a +:+ b) = (String.length a + String.length b)%nat).
      { clear. induction a as [| x a IHa]; intros b; [reflexivity |].
        rewrite append_cons. simpl. now rewrite IHa. }
      rewrite map_chars_length, Hl, Hlen. lia.
Qed.

Lemma take_all (s : string) : JS.take (String.length s) s = s.
Proof. induction s as [| a s IH]; simpl; [reflexivity | now rewrite IH]. Qed.

Lemma drop_all (s : string) : JS.drop (String.length s) s = "".
Proof. induction s as [| a s IH]; simpl; [reflexivity | exact IH]. Qed.

Lemma append_empty_r (s : string) : s +:+ "" = s.
Proof. induction s as [| a s IH]; [reflexivity |]. rewrite append_cons. now rewrite IH. Qed.

Lemma toLatinUpperCase_map (s : string) :
  toLatinUpperCase s = JS.map_chars JS.upper_char s.
Proof.
  unfold toLatinUpperCase. rewrite toLatinUpperCase_loop_spec by lia.
  rewrite take_all, drop_all, append_empty_r. reflexivity.
Qed.

Lemma map_chars_ext_idem (f g : ascii -> ascii) (s : string) :
  (forall c, f (g c) = f c) ->
  JS.map_chars f (JS.map_chars g s) = JS.map_chars f s.
Proof.
  intros Hfg. induction s as [| c s IH]; simpl; [reflexivity |]. now rewrite Hfg, IH.
Qed.

Lemma upper_upper (c : ascii) : JS.upper_char (JS.upper_char c) = JS.upper_char c.
Proof. destruct c as [[] [] [] [] [] [] [] []]; reflexivity. Qed.

Lemma upper_lower (c : ascii) : JS.upper_char (JS.lower_char c) = JS.upper_char c.
Proof. destruct c as [[] [] [] [] [] [] [] []]; reflexivity. Qed.

Lemma is_upper_upper (c : ascii) : JS.is_upper (JS.upper_char c) = Bcp47.is_alpha c.
Proof. destruct c as [[] [] [] [] [] [] [] []]; reflexivity. Qed.

(** X1.  [toLatinUpperCase] turns the letters [a] to [z] into capitals
    and leaves every other character alone; the text keeps its length and
    a second application changes nothing. *)
Theorem toLatinUpperCase_spec (s : string) :
  toLatinUpperCase s = JS.map_chars JS.upper_char s /\
  String.length (toLatinUpperCase s) = String.length s /\
  toLatinUpperCase (toLatinUpperCase s) = toLatinUpperCase s.
Proof.
  rewrite !toLatinUpperCase_map. split; [reflexivity |]. split.
  - apply map_chars_length.
  - apply map_chars_ext_idem. exact upper_upper.
Qed.

Lemma all_chars_map (f : ascii -> bool) (g : ascii -> ascii) (s : string) :
  Bcp47.all_chars f (JS.map_chars g s) = Bcp47.all_chars (fun c => f (g c)) s.
Proof. induction s as [| c s IH]; simpl; [reflexivity | now rewrite IH]. Qed.

Lemma all_chars_ext (f g : ascii -> bool) (s : string) :
  (forall c, f c = g c) -> Bcp47.all_chars f s = Bcp47.all_chars g s.
Proof. intros H. induction s as [| c s IH]; simpl; [reflexivity | now rewrite H, IH]. Qed.

(** X2.  With the pattern that steps 3 and 4 describe,
    [IsWellFormedCurrencyCode] accepts a text exactly when it has three
    characters, all of them letters [A] to [Z] in either case.  For every
    pattern, the answer does not change when the text is put in lower case
    or upper-cased by [toLatinUpperCase] first. *)
Theorem IsWellFormedCurrencyCode_spec (s : string) :
  (IsWellFormedCurrencyCode modelled_expCurrencyCode (PString s) = true <->
   String.length s = 3%nat /\ Bcp47.all_chars Bcp47.is_alpha s = true) /\
  (forall expCurrencyCode,
     IsWellFormedCurrencyCode expCurrencyCode (PString (JS.toLowerCase s)) =
     IsWellFormedCurrencyCode expCurrencyCode (PString s) /\
     IsWellFormedCurrencyCode expCurrencyCode (PString (toLatinUpperCase s)) =
     IsWellFormedCurrencyCode expCurrencyCode (PString s)).
Proof.
  split.
  - unfold IsWellFormedCurrencyCode, modelled_expCurrencyCode, Bcp47.len_between.
    simpl prim_to_string. rewrite toLatinUpperCase_map, map_chars_length, all_chars_map.
    rewrite (all_chars_ext _ Bcp47.is_alpha s is_upper_upper).
    destruct (Bcp47.all_chars Bcp47.is_alpha s);
      destruct (Nat.leb_spec 3 (String.length s)), (Nat.leb_spec (String.length s) 3);
      simpl; split; try discriminate; try lia; intros [? ?]; try discriminate; lia.
  - intros p. unfold IsWellFormedCurrencyCode. simpl prim_to_string.
    rewrite !toLatinUpperCase_map. unfold JS.toLowerCase.
    rewrite (map_chars_ext_idem _ _ s upper_lower), (map_chars_ext_idem _ _ s upper_upper).
    split; reflexivity.
Qed.

(** ** More on 6.2.3: the case of the subtags *)

Lemma join_cons (sep p : string) (ps : list string) :
  ps <> [] -> JS.join sep (p :: ps) = p +:+ sep +:+ JS.join sep ps.
Proof. destruct ps; [congruence | reflexivity]. Qed.

Lemma join_split (s : string) : JS.join "-" (JS.split "-" s) = s.
Proof.
  induction s as [| a s IH]; [reflexivity |].
  cbn [JS.split]. destruct (Ascii.eqb_spec a "-") as [-> | Hne].
  - rewrite join_cons by apply split_not_nil. rewrite IH. reflexivity.
  - destruct (JS.split "-" s) as [| p ps] eqn:Hs; [exfalso; exact (split_not_nil _ _ Hs) |].
    destruct ps as [| q ps].
    + simpl in IH. simpl. now rewrite IH.
    + rewrite join_cons by discriminate. rewrite join_cons in IH by discriminate.
      rewrite append_cons. now rewrite IH.
Qed.

Lemma map_chars_join (f : ascii -> ascii) (parts : list string) :
  f "-"%char = "-"%char ->
  JS.map_chars f (JS.join "-" parts) = JS.join "-" (JS.map_chars f <$> parts).
Proof.
  intros Hf. induction parts as [| p ps IH]; [reflexivity |].
  destruct ps as [| q ps]; [reflexivity |].
  rewrite join_cons by discriminate. rewrite !map_chars_app, IH.
  change (JS.map_chars f <$> p :: q :: ps)
    with (JS.map_chars f p :: (JS.map_chars f <$> q :: ps)).
  rewrite join_cons by discriminate. simpl. rewrite Hf. reflexivity.
Qed.

Lemma lower_lower (c : ascii) : JS.lower_char (JS.lower_char c) = JS.lower_char c.
Proof. destruct c as [[] [] [] [] [] [] [] []]; reflexivity. Qed.

Lemma lower_upper (c : ascii) : JS.lower_char (JS.upper_char c) = JS.lower_char c.
Proof. destruct c as [[] [] [] [] [] [] [] []]; reflexivity. Qed.

Lemma lower_special_case (p : string) :
  JS.toLowerCase (special_case p) = JS.toLowerCase p.
Proof.
  unfold special_case, JS.toLowerCase, JS.toUpperCase.
  destruct (String.length p =? 2)%nat.
  - apply map_chars_ext_idem. exact lower_upper.
  - destruct (String.length p =? 4)%nat; [| reflexivity].
    destruct p as [| c p]; [reflexivity |]. simpl. now rewrite lower_upper.
Qed.

Lemma lower_case_subtags (rest : list string) :
  JS.toLowerCase <$> case_subtags rest = JS.toLowerCase <$> rest.
Proof.
  induction rest as [| p rest IH]; [reflexivity |].
  cbn [case_subtags]. destruct (stops_casing p); [reflexivity |].
  rewrite !fmap_cons, IH, lower_special_case. reflexivity.
Qed.

Lemma lower_regularize_case (tag : string) :
  JS.toLowerCase (regularize_case tag) = JS.toLowerCase tag.
Proof.
  rewrite regularize_case_spec. unfold canonical_case.
  pose proof (join_split (JS.toLowerCase tag)) as Hjoin.
  destruct (JS.split "-" (JS.toLowerCase tag)) as [| first rest] eqn:Hs;
    [exfalso; exact (split_not_nil _ _ Hs) |].
  unfold JS.toLowerCase at 1. rewrite map_chars_join by reflexivity.
  rewrite fmap_cons. fold JS.toLowerCase. rewrite lower_case_subtags.
  rewrite <- fmap_cons. unfold JS.toLowerCase at 1 2.
  rewrite <- map_chars_join by reflexivity. rewrite Hjoin.
  apply map_chars_ext_idem. exact lower_lower.
Qed.

Lemma ascii_lower_char (c : ascii) :
  (nat_of_ascii (JS.lower_char c) <? 128)%nat = (nat_of_ascii c <? 128)%nat.
Proof. destruct c as [[] [] [] [] [] [] [] []]; reflexivity. Qed.

Lemma ascii_text_lower (s : string) : ascii_text (JS.toLowerCase s) = ascii_text s.
Proof.
  unfold ascii_text, JS.toLowerCase. rewrite all_chars_map.
  apply all_chars_ext. exact ascii_lower_char.
Qed.

(** X3.  On a tag of ASCII characters the first phase of canonicalization
    changes nothing but the case of letters: the outcome is a text of
    ASCII characters of the same length that reads the same in lower
    case, and applying the phase twice is applying it once. *)
Theorem regularize_case_idempotent (tag : string) :
  ascii_text tag = true ->
  ascii_text (regularize_case tag) = true /\
  JS.toLowerCase (regularize_case tag) = JS.toLowerCase tag /\
  String.length (regularize_case tag) = String.length tag /\
  regularize_case (regularize_case tag) = regularize_case tag.
Proof.
  intros Hascii. pose proof (lower_regularize_case tag) as Hlow.
  split; [| split; [exact Hlow | split]].
  - rewrite <- ascii_text_lower, Hlow, ascii_text_lower. exact Hascii.
  - rewrite <- (map_chars_length JS.lower_char (regularize_case tag)).
    rewrite <- (map_chars_length JS.lower_char tag).
    fold JS.toLowerCase. now rewrite Hlow.
  - unfold regularize_case at 1. rewrite Hlow. reflexivity.
Qed.

Lemma regularize_case_idempotent_witness :
  ascii_text (regularize_case "EN-latn-us-X-Ab") = true /\
  JS.toLowerCase (regularize_case "EN-latn-us-X-Ab") = JS.toLowerCase "EN-latn-us-X-Ab" /\
  String.length (regularize_case "EN-latn-us-X-Ab") = String.length "EN-latn-us-X-Ab" /\
  regularize_case (regularize_case "EN-latn-us-X-Ab") = regularize_case "EN-latn-us-X-Ab".
Proof.
  apply (regularize_case_idempotent "EN-latn-us-X-Ab"). vm_compute. reflexivity.
Defined.

(** ** 6.2.3: the case of the subtags and the whole operation *)






(** With an entry for the tag in the registry, step 2 returns the
    preferred value instead. *)
Lemma CanonicalizeLanguageTag_redundant_example :
  CanonicalizeLanguageTag
    (modelled_env true {| tags := {[ "sgn-BE-FR" := "sfb" ]}; subtags := ∅; extLang := ∅ |} None)
    "sgn-BE-FR" = Normal "sfb".
Proof. vm_compute. reflexivity. Qed.

(** ** More on 6.2.3: when canonicalization returns *)

Lemma subtag_loop_returns (E : env) :
  extLang_closed (redundantTags E) ->
  forall n i max parts,
    (max <= length parts)%nat ->
    exists r, subtag_loop E n i max parts = Normal r.
Proof.
  intros Hclosed. induction n as [| n IH]; intros i max parts Hmax; [eexists; reflexivity |].
  rewrite subtag_loop_unfold. destruct (Nat.ltb_spec i max) as [Hi | Hi]; [| eauto].
  cbv zeta.
  destruct (subtags (redundantTags E) !! default "undefined" (parts !! i)) as [preferred |].
  { apply IH. rewrite length_insert. exact Hmax. }
  destruct (extLang (redundantTags E) !! default "undefined" (parts !! i))
    as [[preferred prefix] |] eqn:Hext; [| apply IH; exact Hmax].
  destruct (Nat.eqb_spec i 1) as [-> | Hne].
  - rewrite list_lookup_insert_eq by lia. simpl default.
    destruct (Hclosed _ _ _ Hext) as [[v p] Hv]. rewrite Hv.
    destruct (bool_decide (Some p = <[1%nat:=preferred]> parts !! 0%nat)).
    + apply IH. rewrite length_skipn, length_insert. lia.
    + apply IH. rewrite length_insert. exact Hmax.
  - apply IH. rewrite length_insert. exact Hmax.
Qed.

(** X4.  When every preferred value of the extended-language table is
    itself an entry of that table, [CanonicalizeLanguageTag] returns a tag
    for every text.  Without that it can fail: with an entry [yue] whose
    preferred value [xyz] has no entry of its own, the tag ["zh-yue"]
    makes the prefix test read a property of [undefined]. *)
Theorem CanonicalizeLanguageTag_returns (E : env) (locale : string) :
  extLang_closed (redundantTags E) ->
  (exists tag, CanonicalizeLanguageTag E locale = Normal tag) /\
  CanonicalizeLanguageTag
    (modelled_env true {| tags := ∅; subtags := ∅; extLang := {[ "yue" := ("xyz", "zh") ]} |} None)
    "zh-yue" = Throw HostTypeError.
Proof.
  intros Hclosed. split; [| vm_compute; reflexivity].
  unfold CanonicalizeLanguageTag. cbv zeta.
  set (parts := JS.split "-" _).
  destruct (subtag_loop_returns E Hclosed (length parts) 1 (length parts) parts ltac:(lia))
    as [r Hr].
  rewrite Hr. eexists. reflexivity.
Qed.

Lemma CanonicalizeLanguageTag_returns_witness :
  (exists tag, CanonicalizeLanguageTag (modelled_env true sample_registry None) "zh-yue-BU"
               = Normal tag) /\
  CanonicalizeLanguageTag
    (modelled_env true {| tags := ∅; subtags := ∅; extLang := {[ "yue" := ("xyz", "zh") ]} |} None)
    "zh-yue" = Throw HostTypeError.
Proof.
  apply (CanonicalizeLanguageTag_returns (modelled_env true sample_registry None) "zh-yue-BU").
  intros k v p Hk. simpl in Hk. apply lookup_singleton_Some in Hk as [<- [= <- <-]].
  simpl. rewrite lookup_singleton_eq. eauto.
Defined.

(** ** More on 9.2.2 to 9.2.8: what the matchers return *)

Lemma BestAvailableLocale_described (E : env) (availableLocales : list string)
    (locale : string) :
  best_available availableLocales locale (BestAvailableLocale E availableLocales locale).
Proof.
  destruct (BestAvailableLocale_loop_returns E availableLocales
              (S (String.length locale)) locale ltac:(lia)) as (r & Hloop & Hbest).
  unfold BestAvailableLocale. rewrite Hloop. exact Hbest.
Qed.

Lemma BestAvailableLocale_member (E : env) (availableLocales : list string)
    (locale found : string) :
  BestAvailableLocale E availableLocales locale = Some found ->
  found ∈ availableLocales.
Proof.
  intros Hfound.
  exact (proj1 (best_available_sound availableLocales locale _
                  (BestAvailableLocale_described E availableLocales locale) found Hfound)).
Qed.

(** X5.  What [BestAvailableLocale] returns is one of the available
    locales and a prefix of the requested tag, and it is the requested tag
    itself when that is available. *)
Theorem BestAvailableLocale_sound (E : env) (availableLocales : list string)
    (locale found : string) :
  BestAvailableLocale E availableLocales locale = Some found ->
  found ∈ availableLocales /\
  (exists n, found = JS.take n locale) /\
  (locale ∈ availableLocales -> found = locale).
Proof.
  intros Hfound.
  pose proof (BestAvailableLocale_described E availableLocales locale) as Hbest.
  destruct (best_available_sound availableLocales locale _ Hbest found Hfound) as [Hin Hprefix].
  split; [exact Hin |]. split; [exact Hprefix |].
  intros Hlocale. rewrite Hfound in Hbest.
  pose proof (best_available_unique availableLocales locale _ _ Hbest
                (best_present availableLocales locale Hlocale)) as Heq.
  congruence.
Qed.

Lemma BestAvailableLocale_sound_witness :
  "en-GB" ∈ ["en-GB"; "fr"] /\
  (exists n, "en-GB" = JS.take n "en-GB-oed") /\
  ("en-GB-oed" ∈ ["en-GB"; "fr"] -> "en-GB" = "en-GB-oed").
Proof.
  apply (BestAvailableLocale_sound (modelled_env true empty_registry None)
           ["en-GB"; "fr"] "en-GB-oed" "en-GB").
  vm_compute. reflexivity.
Defined.

(** A global pattern that finds nothing in a text leaves it as it is. *)
Lemma replace_all_no_match (re : regexp) (by_ s : string) :
  RegExp.match_all re s = [] -> RegExp.replace_all re by_ s = s.
Proof.
  unfold RegExp.match_all, RegExp.replace_all.
  induction s as [| c s IH]; [reflexivity |].
  cbn [RegExp.match_all_from RegExp.replace_all_from].
  destruct (re (String c s)) as [[| n] |]; try discriminate;
    intros H; f_equal; exact (IH H).
Qed.

(** A global pattern that changes a text by its replacement has found
    something in it. *)
Lemma replace_all_changed (re : regexp) (by_ s : string) :
  RegExp.replace_all re by_ s <> s -> RegExp.match_all re s <> [].
Proof. intros Hne Hnil. apply Hne. apply replace_all_no_match. exact Hnil. Qed.

(** The variables of the loop of 9.2.3 after it: the locale found is
    available, and [noExtensionsLocale] is [locale] without its
    extensions. *)
Lemma LookupMatcher_loop_spec (E : env) (availableLocales : list string) :
  forall rest vars availableLocale,
    (forall l, availableLocale = Some l -> l ∈ availableLocales) ->
    (forall locale noExt, vars = Some (locale, noExt) ->
       noExt = RegExp.replace_all (expUnicodeExSeq E) "" locale) ->
    forall vars' availableLocale',
      LookupMatcher_loop E availableLocales rest vars availableLocale
        = (vars', availableLocale') ->
      (forall l, availableLocale' = Some l -> l ∈ availableLocales) /\
      (forall locale noExt, vars' = Some (locale, noExt) ->
         noExt = RegExp.replace_all (expUnicodeExSeq E) "" locale) /\
      (vars' = vars \/ exists locale noExt, vars' = Some (locale, noExt) /\ locale ∈ rest).
Proof.
  induction rest as [| locale rest IH]; intros vars a Ha Hvars vars' a' Hloop.
  - injection Hloop as <- <-. auto.
  - cbn [LookupMatcher_loop] in Hloop. destruct (falsy_locale a).
    + cbv zeta in Hloop. apply IH in Hloop.
      * destruct Hloop as (H1 & H2 & [-> | (l & n & -> & Hin)]).
        -- split; [exact H1 |]. split; [exact H2 |]. right.
           eexists _, _. split; [reflexivity | apply list_elem_of_here].
        -- split; [exact H1 |]. split; [exact H2 |]. right.
           eexists _, _. split; [reflexivity | apply list_elem_of_further; exact Hin].
      * intros l Hl. exact (BestAvailableLocale_member E _ _ _ Hl).
      * intros l n [= <- <-]. reflexivity.
    + injection Hloop as <- <-. auto.
Qed.

(** X6.  [LookupMatcher] always returns a Record.  Its locale is one of
    the available locales, or it is the default locale, and then the
    Record has no extension. *)
Theorem LookupMatcher_returns (E : env) (availableLocales requestedLocales : list string) :
  exists r,
    LookupMatcher E availableLocales requestedLocales = Normal r /\
    ((exists l, mr_locale r = Some l /\ l ∈ availableLocales) \/
     (mr_locale r = defaultLocale E /\ mr_extension r = None)).
Proof.
  unfold LookupMatcher.
  destruct (LookupMatcher_loop E availableLocales requestedLocales None None)
    as [vars a] eqn:Hloop.
  apply LookupMatcher_loop_spec in Hloop as (Ha & Hvars & _); try discriminate.
  destruct a as [l |]; [| eexists; split; [reflexivity | right; auto]].
  specialize (Ha l eq_refl).
  destruct vars as [[locale noExt] |];
    [| eexists; split; [reflexivity | left; eauto]].
  specialize (Hvars locale noExt eq_refl). subst noExt.
  destruct (String.eqb_spec locale (RegExp.replace_all (expUnicodeExSeq E) "" locale))
    as [Heq | Hne]; simpl negb; cbv iota.
  - eexists; split; [reflexivity | left; eauto].
  - assert (Hm : RegExp.match_all (expUnicodeExSeq E) locale <> [])
      by (apply (replace_all_changed _ ""); congruence).
    destruct (RegExp.match_all (expUnicodeExSeq E) locale) as [| extension rest];
      [congruence |].
    eexists; split; [reflexivity | left; eauto].
Qed.

Lemma LookupSupportedLocales_loop_filter (E : env) (availableLocales : list string) :
  forall rest subset,
    LookupSupportedLocales_loop E availableLocales rest subset =
    subset ++ List.filter (supported E availableLocales) rest.
Proof.
  induction rest as [| locale rest IH]; intros subset.
  - simpl. now rewrite app_nil_r.
  - cbn [LookupSupportedLocales_loop List.filter]. cbv zeta. rewrite IH.
    unfold supported at 2.
    destruct (BestAvailableLocale E availableLocales
                (RegExp.replace_all (expUnicodeExSeq E) "" locale)).
    + rewrite <- app_assoc. reflexivity.
    + reflexivity.
Qed.

Lemma frozen_values (native_defineProperty : bool) (subset : list string) :
  ap_value <$> (freeze_property native_defineProperty <$> ao_elements (Array_of subset))
    = subset.
Proof.
  induction subset as [| v subset IH]; [reflexivity |].
  cbn [Array_of ao_elements fmap list_fmap] in *. rewrite IH.
  destruct native_defineProperty; reflexivity.
Qed.

Lemma frozen_writable (native_defineProperty : bool) (subset : list string) (p : array_property) :
  p ∈ freeze_property native_defineProperty <$> ao_elements (Array_of subset) ->
  ap_writable p = negb native_defineProperty.
Proof.
  induction subset as [| v subset IH]; cbn [Array_of ao_elements fmap list_fmap] in *.
  - intros Hin. apply elem_of_nil in Hin. contradiction.
  - intros Hin. apply elem_of_cons in Hin as [-> | Hin]; [| exact (IH Hin)].
    destruct native_defineProperty; reflexivity.
Qed.

(** X7.  Whatever matcher the options name, when [SupportedLocales]
    returns, its array holds the requested locales for which
    [BestAvailableLocale] finds an available one on the tag without its
    Unicode extensions, in the order of the request.  On a host with
    [Object.defineProperty] neither its elements nor its length can be
    written; with the fallback [defineProperty] of [globals.js] all of
    them stay writable. *)
Theorem SupportedLocales_filter (E : env) (native_defineProperty : bool)
    (availableLocales requestedLocales : list string)
    (options : options_arg) (r : array_object) :
  SupportedLocales E native_defineProperty availableLocales requestedLocales options
    = Normal r ->
  ap_value <$> ao_elements r = List.filter (supported E availableLocales) requestedLocales /\
  (forall p, p ∈ ao_elements r -> ap_writable p = negb native_defineProperty) /\
  ao_length_writable r = negb native_defineProperty /\
  (forall p, p ∈ ao_elements r -> ap_value p ∈ requestedLocales).
Proof.
  intros Hr.
  assert (Hsub : forall matcher : prim,
            (if strict_eq matcher PUndefined || strict_eq matcher (PString "best fit")
             then BestFitSupportedLocales E availableLocales requestedLocales
             else LookupSupportedLocales E availableLocales requestedLocales)
            = List.filter (supported E availableLocales) requestedLocales).
  { intros matcher. unfold BestFitSupportedLocales, LookupSupportedLocales.
    rewrite LookupSupportedLocales_loop_filter.
    destruct (strict_eq matcher PUndefined || strict_eq matcher (PString "best fit"));
      reflexivity. }
  unfold SupportedLocales in Hr.
  destruct (match options with
            | OptionsUndefined => _ | OptionsNull => _ | OptionsObject props => _
            end) as [matcher | e]; [| discriminate].
  change (Normal matcher ≫= ?k) with (k matcher) in Hr. cbv beta zeta in Hr.
  rewrite Hsub in Hr. injection Hr as <-.
  set (subset := List.filter (supported E availableLocales) requestedLocales).
  cbn [freeze_length ao_elements ao_length_writable Array_of].
  assert (Hvalues := frozen_values native_defineProperty subset).
  cbn [Array_of ao_elements] in Hvalues.
  split; [exact Hvalues |]. split.
  { intros p Hp. apply (frozen_writable native_defineProperty subset). exact Hp. }
  split; [destruct native_defineProperty; reflexivity |].
  intros p Hp.
  assert (Hin : ap_value p ∈ subset).
  { rewrite <- Hvalues. apply list_elem_of_fmap. exists p. split; [reflexivity | exact Hp]. }
  subst subset. apply list_elem_of_In in Hin. apply filter_In in Hin as [Hin _].
  apply list_elem_of_In. exact Hin.
Qed.

Lemma SupportedLocales_filter_witness :
  let r := {| ao_elements := [ {| ap_value := "en-GB-oed"; ap_writable := false |} ];
              ao_length_writable := false |} in
  ap_value <$> ao_elements r =
    List.filter (supported (modelled_env true empty_registry None) ["en-GB"])
      ["fr"; "en-GB-oed"] /\
  (forall p, p ∈ ao_elements r -> ap_writable p = negb true) /\
  ao_length_writable r = negb true /\
  (forall p, p ∈ ao_elements r -> ap_value p ∈ ["fr"; "en-GB-oed"]).
Proof.
  apply (SupportedLocales_filter (modelled_env true empty_registry None) true ["en-GB"]
           ["fr"; "en-GB-oed"] (OptionsObject {[ "localeMatcher" := PString "lookup" ]})
           {| ao_elements := [ {| ap_value := "en-GB-oed"; ap_writable := false |} ];
              ao_length_writable := false |}).
  vm_compute. reflexivity.
Defined.

(** ** 9.2.1 CanonicalizeLocaleList *)

Lemma is_minus_one_not_member (E : env) (l : list string) (c : string) :
  is_minus_one (arrIndexOf E (List_of l) (PString c) None) = true -> c ∉ l.
Proof.
  intros Hm Hin. apply (arrIndexOf_gt_minus_one E) in Hin.
  destruct (arrIndexOf E (List_of l) (PString c) None) as [n |]; simpl in *; [| discriminate].
  apply Z.eqb_eq in Hm. apply Z.ltb_lt in Hin. lia.
Qed.

(** With the built-in [indexOf] a tag that is not yet in the List is
    appended. *)
Lemma is_minus_one_native (E : env) (l : list string) (c : string) :
  native_indexOf E = true ->
  is_minus_one (arrIndexOf E (List_of l) (PString c) None) = false -> c ∈ l.
Proof.
  intros Hnative Hm. apply (arrIndexOf_gt_minus_one E).
  unfold arrIndexOf in *. rewrite Hnative in *.
  unfold builtin_indexOf in *. simpl default in *.
  destruct (Z.of_nat (length (List_of l)) =? 0); [discriminate |].
  destruct (Z.of_nat (length (List_of l)) <=? 0); [discriminate |].
  simpl in *. rewrite Z.sub_0_r in *.
  destruct (first_index_from_spec (List_of l) (PString c)
              (Z.to_nat (Z.of_nat (length (List_of l)))) 0 ltac:(lia))
    as [[Hr _] | (Hr & _)].
  - rewrite Hr in Hm. discriminate.
  - apply Z.ltb_lt. lia.
Qed.

(** With the fallback [indexOf] a tag is appended only to an empty List. *)
Lemma is_minus_one_shim (E : env) (l : list string) (c : string) :
  native_indexOf E = false ->
  is_minus_one (arrIndexOf E (List_of l) (PString c) None) = true -> l = [].
Proof.
  intros Hshim Hm. unfold arrIndexOf in Hm. rewrite Hshim in Hm.
  unfold arrIndexOf_shim in Hm. destruct l as [| x l]; [reflexivity |]. exfalso.
  set (t := List_of (x :: l)) in *.
  destruct (Nat.eqb_spec (length t) 0) as [H0 | _]; [subst t; discriminate H0 |].
  pose proof (shim_scan_spec t (PString c) (Z.to_nat (Z.of_nat (length t) - 0)) 0) as Hs.
  destruct (shim_scan t (PString c) (Z.to_nat (Z.of_nat (length t) - 0)) 0) as [j |];
    [| discriminate].
  simpl in Hm. apply Z.eqb_eq in Hm. lia.
Qed.

Lemma CanonicalizeLocaleList_loop_spec (E : env) :
  forall elems seen result,
    CanonicalizeLocaleList_loop E elems seen = Normal result ->
    NoDup seen ->
    (NoDup result) /\
    (forall t, t ∈ result -> t ∈ seen \/ from_elements E elems t) /\
    valid_elements E elems /\
    (forall t, t ∈ seen -> t ∈ result) /\
    (native_indexOf E = true ->
     forall e s, Some e ∈ elems -> tag_text e = Normal s ->
       exists t, CanonicalizeLanguageTag E s = Normal t /\ t ∈ result) /\
    (native_indexOf E = false -> (length seen <= 1)%nat -> (length result <= 1)%nat).
Proof.
  induction elems as [| e elems IH]; intros seen result Hloop Hnodup.
  - injection Hloop as <-. split; [exact Hnodup |]. split; [auto |].
    split; [intros e He; inversion He |]. split; [auto |].
    split; [intros _ e s Hs; inversion Hs | auto].
  - cbn [CanonicalizeLocaleList_loop] in Hloop.
    destruct e as [kValue |].
    2:{ destruct (IH seen result Hloop Hnodup) as (H1 & H2 & H3 & H4 & H5 & H6).
        split; [exact H1 |]. split.
        { intros t Ht. destruct (H2 t Ht) as [? | (e & s & Hs & Ht' & Hv & Hc)]; [auto |].
          right. exists e, s. split; [apply list_elem_of_further; exact Hs | auto]. }
        split.
        { intros e He. apply elem_of_cons in He as [He | He]; [discriminate | auto]. }
        split; [exact H4 |]. split; [| exact H6].
        intros Hn e s Hs. apply elem_of_cons in Hs as [Hs | Hs]; [discriminate | eauto]. }
    destruct (tag_text kValue) as [tag | ex] eqn:Htext; [| discriminate].
    change (Normal tag ≫= ?k) with (k tag) in Hloop. cbv beta in Hloop.
    destruct (IsStructurallyValidLanguageTag E tag) eqn:Hvalid; [| discriminate].
    simpl negb in Hloop. cbv iota in Hloop.
    destruct (CanonicalizeLanguageTag E tag) as [canon | ex] eqn:Hcanon; [| discriminate].
    change (Normal canon ≫= ?k) with (k canon) in Hloop. cbv beta in Hloop.
    assert (Hhead : from_elements E (Some kValue :: elems) canon).
    { exists kValue, tag. split; [apply list_elem_of_here | auto]. }
    assert (Hlift : forall t, from_elements E elems t ->
                              from_elements E (Some kValue :: elems) t).
    { intros t (e & s & Hs & Ht & Hv & Hc). exists e, s.
      split; [apply list_elem_of_further; exact Hs | auto]. }
    assert (Hvalids : valid_elements E elems ->
                      valid_elements E (Some kValue :: elems)).
    { intros Hv e He. apply elem_of_cons in He as [[= ->] | He]; [eauto | auto]. }
    destruct (is_minus_one (arrIndexOf E (List_of seen) (PString canon) None)) eqn:Hm.
    + assert (Hnodup' : NoDup (seen ++ [canon])).
      { apply NoDup_app. split; [exact Hnodup |]. split.
        - intros x Hx Hx'. apply list_elem_of_singleton in Hx' as ->.
          exact (is_minus_one_not_member E seen canon Hm Hx).
        - apply NoDup_singleton. }
      destruct (IH _ result Hloop Hnodup') as (H1 & H2 & H3 & H4 & H5 & H6).
      split; [exact H1 |]. split.
      { intros t Ht. destruct (H2 t Ht) as [Hin | Hfrom]; [| auto].
        apply elem_of_app in Hin as [Hin | Hin]; [auto |].
        apply list_elem_of_singleton in Hin as ->. auto. }
      split; [auto |]. split.
      { intros t Ht. apply H4. apply elem_of_app. auto. }
      split.
      { intros Hn e s Hs Hes. apply elem_of_cons in Hs as [[= ->] | Hs]; [| eauto].
        rewrite Htext in Hes. injection Hes as <-.
        exists canon. split; [exact Hcanon |]. apply H4. apply elem_of_app. right.
        apply list_elem_of_singleton. reflexivity. }
      intros Hshim Hlen. apply (H6 Hshim).
      rewrite (is_minus_one_shim E seen canon Hshim Hm). simpl. lia.
    + destruct (IH _ result Hloop Hnodup) as (H1 & H2 & H3 & H4 & H5 & H6).
      split; [exact H1 |]. split.
      { intros t Ht. destruct (H2 t Ht); auto. }
      split; [auto |]. split; [exact H4 |]. split; [| exact H6].
      intros Hn e s Hs Hes. apply elem_of_cons in Hs as [[= ->] | Hs]; [| eauto].
      rewrite Htext in Hes. injection Hes as <-.
      exists canon. split; [exact Hcanon |]. apply H4.
      exact (is_minus_one_native E seen canon Hn Hm).
Qed.

Lemma CanonicalizeLocaleList_unfold (E : env) (locales : locales_arg) (seen : list string) :
  CanonicalizeLocaleList E locales = Normal seen ->
  CanonicalizeLocaleList_loop E (elements_of locales) [] = Normal seen.
Proof. destruct locales; simpl; try discriminate; auto. Qed.

(** X8.  When [CanonicalizeLocaleList] returns, its List has no tag
    twice; each of its tags is the canonical form of the text of an
    element of the argument, the element itself when it is a string and
    [String(element)] when it is an object, and that text is a
    structurally valid tag; and every element of the argument is a string
    or an object with such a text. *)
Theorem CanonicalizeLocaleList_sound (E : env) (locales : locales_arg) (seen : list string) :
  CanonicalizeLocaleList E locales = Normal seen ->
  NoDup seen /\
  (forall t, t ∈ seen -> from_elements E (elements_of locales) t) /\
  valid_elements E (elements_of locales).
Proof.
  intros Hr. apply CanonicalizeLocaleList_unfold in Hr.
  destruct (CanonicalizeLocaleList_loop_spec E _ _ _ Hr (NoDup_nil_2))
    as (H1 & H2 & H3 & _).
  split; [exact H1 |]. split; [| exact H3].
  intros t Ht. destruct (H2 t Ht) as [Hnil | Hfrom]; [inversion Hnil | exact Hfrom].
Qed.

Lemma CanonicalizeLocaleList_sound_witness :
  let E := modelled_env true sample_registry None in
  let locales := LocalesArray [Some (Prim (PString "en-us")); None;
                               Some (Object (Normal "EN-US")); Some (Object (Normal "fr"))] in
  NoDup ["en-US"; "fr"] /\
  (forall t, t ∈ ["en-US"; "fr"] -> from_elements E (elements_of locales) t) /\
  valid_elements E (elements_of locales).
Proof.
  apply (CanonicalizeLocaleList_sound (modelled_env true sample_registry None)
           (LocalesArray [Some (Prim (PString "en-us")); None;
                          Some (Object (Normal "EN-US")); Some (Object (Normal "fr"))])
           ["en-US"; "fr"]).
  vm_compute. reflexivity.
Defined.

(** X9.  With the built-in [indexOf], when [CanonicalizeLocaleList]
    returns, the canonical form of every string of the argument is in its
    List. *)
Theorem CanonicalizeLocaleList_complete (E : env) (locales : locales_arg)
    (seen : list string) (s : string) :
  native_indexOf E = true ->
  CanonicalizeLocaleList E locales = Normal seen ->
  Some (Prim (PString s)) ∈ elements_of locales ->
  exists t, CanonicalizeLanguageTag E s = Normal t /\ t ∈ seen.
Proof.
  intros Hnative Hr Hs. apply CanonicalizeLocaleList_unfold in Hr.
  destruct (CanonicalizeLocaleList_loop_spec E _ _ _ Hr (NoDup_nil_2))
    as (_ & _ & _ & _ & H5 & _).
  exact (H5 Hnative (Prim (PString s)) s Hs eq_refl).
Qed.

Lemma CanonicalizeLocaleList_complete_witness :
  exists t, CanonicalizeLanguageTag (modelled_env true sample_registry None) "fr" = Normal t /\
            t ∈ ["en-US"; "fr"].
Proof.
  apply (CanonicalizeLocaleList_complete (modelled_env true sample_registry None)
           (LocalesArray [Some (Prim (PString "en-us")); Some (Prim (PString "fr"))])
           ["en-US"; "fr"] "fr").
  - reflexivity.
  - vm_compute. reflexivity.
  - apply list_elem_of_In. simpl. auto.
Defined.

(** X10.  With the fallback [indexOf] of [globals.js], the List that
    [CanonicalizeLocaleList] returns never has more than one tag: once
    the List has a tag, a search that fails yields [undefined], which is
    not [-1], and nothing is appended. *)
Theorem CanonicalizeLocaleList_shim (E : env) (locales : locales_arg) (seen : list string) :
  native_indexOf E = false ->
  CanonicalizeLocaleList E locales = Normal seen ->
  (length seen <= 1)%nat.
Proof.
  intros Hshim Hr. apply CanonicalizeLocaleList_unfold in Hr.
  destruct (CanonicalizeLocaleList_loop_spec E _ _ _ Hr (NoDup_nil_2))
    as (_ & _ & _ & _ & _ & H6).
  apply (H6 Hshim). simpl. lia.
Qed.

Lemma CanonicalizeLocaleList_shim_witness :
  (length ["en-US"] <= 1)%nat.
Proof.
  apply (CanonicalizeLocaleList_shim (modelled_env false sample_registry None)
           (LocalesArray [Some (Prim (PString "en-us")); Some (Prim (PString "fr"))]) ["en-US"]).
  - reflexivity.
  - vm_compute. reflexivity.
Defined.

(** ** 9.2.9 GetOption *)

Lemma get_index_member (t : list prim) (j : Z) :
  0 <= j < Z.of_nat (length t) -> get_index t j ∈ t.
Proof.
  intros Hj. unfold get_index.
  destruct (Z.ltb_spec j 0) as [Hneg | _]; [lia |].
  destruct (t !! Z.to_nat j) as [x |] eqn:Hx.
  - simpl. apply list_elem_of_lookup. eauto.
  - apply lookup_ge_None in Hx. lia.
Qed.

Lemma builtin_indexOf_member (t : list prim) (v : prim) :
  is_minus_one (builtin_indexOf t v None) = false -> v ∈ t.
Proof.
  unfold builtin_indexOf. simpl default.
  destruct (Z.of_nat (length t) =? 0); [discriminate |].
  destruct (Z.of_nat (length t) <=? 0); [discriminate |].
  simpl. rewrite Z.sub_0_r.
  destruct (first_index_from_spec t v (Z.to_nat (Z.of_nat (length t))) 0 ltac:(lia))
    as [[Hr _] | (Hr & Hget & _)].
  - rewrite Hr. discriminate.
  - intros _. rewrite <- Hget. apply get_index_member. lia.
Qed.

Lemma shim_never_minus_one (t : list prim) (v : prim) :
  t <> [] -> is_minus_one (arrIndexOf_shim t v None) = false.
Proof.
  intros Hne. unfold arrIndexOf_shim.
  destruct (Nat.eqb_spec (length t) 0) as [H0 | _].
  { destruct t; [congruence | discriminate]. }
  pose proof (shim_scan_spec t v (Z.to_nat (Z.of_nat (length t) - 0)) 0) as Hs.
  destruct (shim_scan t v (Z.to_nat (Z.of_nat (length t) - 0)) 0) as [j |]; [| reflexivity].
  simpl. apply Z.eqb_neq. lia.
Qed.

(** X11.  With the built-in [indexOf], what [GetOption] returns for a
    property that is set is one of the allowed values, a boolean for the
    type ["boolean"] and a string for the type ["string"]; for a property
    that is not set it is the fallback. *)
Theorem GetOption_allowed (E : env) (options : options_object) (property type : string)
    (values : list prim) (fallback v : prim) :
  native_indexOf E = true ->
  GetOption E options property type (Some values) fallback = Normal v ->
  (get_option options property = PUndefined /\ v = fallback) \/
  (get_option options property <> PUndefined /\ v ∈ values /\
   (type = "boolean" -> exists b, v = PBool b) /\
   (type = "string" -> exists s, v = PString s)).
Proof.
  intros Hnative. unfold GetOption.
  destruct (defined (get_option options property)) eqn:Hdef.
  - apply defined_true in Hdef. cbv zeta.
    set (value := if String.eqb type "boolean" then _ else _).
    unfold arrIndexOf. rewrite Hnative.
    destruct (is_minus_one (builtin_indexOf values value None)) eqn:Hm; [discriminate |].
    intros [= <-]. right. split; [exact Hdef |].
    split; [exact (builtin_indexOf_member values value Hm) |].
    subst value. split; intros ->; simpl; eauto.
  - apply defined_false in Hdef. intros [= <-]. left. auto.
Qed.

Lemma GetOption_allowed_witness :
  (get_option {| own := {[ "formatMatcher" := PString "basic" ]}; proto := None |}
     "formatMatcher" = PUndefined /\ PString "basic" = PString "best fit") \/
  (get_option {| own := {[ "formatMatcher" := PString "basic" ]}; proto := None |}
     "formatMatcher" <> PUndefined /\
   PString "basic" ∈ [PString "basic"; PString "best fit"] /\
   ("string" = "boolean" -> exists b, PString "basic" = PBool b) /\
   ("string" = "string" -> exists s, PString "basic" = PString s)).
Proof.
  apply (GetOption_allowed (modelled_env true empty_registry None)
           {| own := {[ "formatMatcher" := PString "basic" ]}; proto := None |}
           "formatMatcher" "string" [PString "basic"; PString "best fit"]
           (PString "best fit") (PString "basic")).
  - reflexivity.
  - vm_compute. reflexivity.
Defined.

(** X12.  With the fallback [indexOf] and a List of allowed values that is
    not empty, [GetOption] rejects nothing: it returns for every options
    object, also for a value that is not allowed. *)
Theorem GetOption_shim (E : env) (options : options_object) (property type : string)
    (values : list prim) (fallback : prim) :
  native_indexOf E = false ->
  values <> [] ->
  exists v, GetOption E options property type (Some values) fallback = Normal v.
Proof.
  intros Hshim Hne. unfold GetOption.
  destruct (defined (get_option options property)); [| eauto].
  cbv zeta. unfold arrIndexOf. rewrite Hshim.
  rewrite shim_never_minus_one by exact Hne. eauto.
Qed.

Lemma GetOption_shim_witness :
  exists v,
    GetOption (modelled_env false empty_registry None)
      {| own := {[ "formatMatcher" := PString "wrong" ]}; proto := None |}
      "formatMatcher" "string" (Some [PString "basic"; PString "best fit"])
      (PString "best fit") = Normal v.
Proof.
  apply (GetOption_shim (modelled_env false empty_registry None)
           {| own := {[ "formatMatcher" := PString "wrong" ]}; proto := None |}
           "formatMatcher" "string" [PString "basic"; PString "best fit"] (PString "best fit")).
  - reflexivity.
  - discriminate.
Defined.

(** ** More on 9.2.5 ResolveLocale *)

Lemma append_length (a b : string) :
  String.length (a +:+ b) = (String.length a + String.length b)%nat.
Proof.
  induction a as [| x a IH]; [reflexivity |]. rewrite append_cons. simpl. now rewrite IH.
Qed.

Lemma append_inj_r (c : string) :
  forall a b, a +:+ c = b +:+ c -> a = b.
Proof.
  induction a as [| x a IH]; intros [| y b] H.
  - reflexivity.
  - exfalso. apply (f_equal String.length) in H.
    rewrite !append_length in H. simpl in H. lia.
  - exfalso. apply (f_equal String.length) in H.
    rewrite !append_length in H. simpl in H. lia.
  - rewrite !append_cons in H. injection H as -> H. f_equal. exact (IH b H).
Qed.

Lemma slot_inj (k1 k2 : string) : slot k1 = slot k2 -> k1 = k2.
Proof.
  unfold slot. intros H.
  change ("[[" +:+ k1 +:+ "]]") with (String "[" (String "[" (k1 +:+ "]]"))) in H.
  change ("[[" +:+ k2 +:+ "]]") with (String "[" (String "[" (k2 +:+ "]]"))) in H.
  injection H as H. exact (append_inj_r "]]" k1 k2 H).
Qed.

(** With the built-in [indexOf], the value that step 11 gives a key is one
    that the locale data allows. *)
Lemma ResolveLocale_key_allowed (E : env) (extensionSubtags : option (list string))
    (options : gmap string prim) (foundLocaleData : option (gmap string (list string)))
    (key : string) (value : prim) (addition : string) :
  native_indexOf E = true ->
  ResolveLocale_key E extensionSubtags options foundLocaleData key = Normal (value, addition) ->
  exists fld keyLocaleData,
    foundLocaleData = Some fld /\ fld !! key = Some keyLocaleData /\
    allowed_value keyLocaleData value.
Proof.
  intros Hnative. unfold ResolveLocale_key.
  destruct foundLocaleData as [fld |]; [| discriminate].
  destruct (fld !! key) as [kld |] eqn:Hkld; [| discriminate].
  cbv zeta. intros Hr. exists fld, kld. split; [reflexivity |]. split; [exact Hkld |].
  assert (Hdefault : allowed_value kld (get_index (List_of kld) 0)).
  { destruct kld as [| x kld]; [right; auto |]. left. apply list_elem_of_here. }
  assert (Hmember : forall v : prim,
            not_minus_one (arrIndexOf E (List_of kld) v None) = true ->
            allowed_value kld v).
  { intros v Hv. left. apply builtin_indexOf_member.
    unfold arrIndexOf in Hv. rewrite Hnative in Hv.
    unfold not_minus_one in Hv. now apply negb_true_iff in Hv. }
  set (step := match extensionSubtags with | Some _ => _ | None => _ end) in Hr.
  assert (Hstep : forall v a, step = Normal (v, a) -> allowed_value kld v).
  { subst step. intros v a. destruct extensionSubtags as [subtags |];
      [| intros [= <- <-]; exact Hdefault].
    destruct (not_minus_one (arrIndexOf E (List_of subtags) (PString key) None));
      [| intros [= <- <-]; exact Hdefault].
    destruct (requested_value subtags
                (arrIndexOf E (List_of subtags) (PString key) None)) as [requested |].
    - destruct (not_minus_one (arrIndexOf E (List_of kld) (PString requested) None)) eqn:Hv;
        intros [= <- <-]; [exact (Hmember _ Hv) | exact Hdefault].
    - rewrite arrIndexOf_no_receiver_throws. discriminate. }
  destruct step as [[v a] | ex]; [| discriminate]. simpl in Hr.
  specialize (Hstep v a eq_refl).
  destruct (options !! slot key) as [optionsValue |]; [| injection Hr as <- <-; exact Hstep].
  destruct (not_minus_one (arrIndexOf E (List_of kld) optionsValue None)) eqn:Hv;
    [| injection Hr as <- <-; exact Hstep].
  destruct (negb (strict_eq optionsValue v)); injection Hr as <- <-;
    [exact (Hmember _ Hv) | exact Hstep].
Qed.

(** Without an extension a key adds nothing to the supported extension. *)
Lemma ResolveLocale_key_no_extension (E : env) (options : gmap string prim)
    (foundLocaleData : option (gmap string (list string))) (key : string)
    (value : prim) (addition : string) :
  ResolveLocale_key E None options foundLocaleData key = Normal (value, addition) ->
  addition = "".
Proof.
  unfold ResolveLocale_key.
  destruct foundLocaleData as [fld |]; [| discriminate].
  destruct (fld !! key) as [kld |]; [| discriminate].
  simpl. destruct (options !! slot key) as [optionsValue |]; [| now intros [= <- <-]].
  destruct (not_minus_one _); [| now intros [= <- <-]].
  destruct (negb _); now intros [= <- <-].
Qed.

Lemma ResolveLocale_loop_spec (E : env) (extensionSubtags : option (list string))
    (options : gmap string prim) (foundLocaleData : option (gmap string (list string))) :
  forall keys result supportedExtension result' supportedExtension',
    ResolveLocale_loop E extensionSubtags options foundLocaleData keys result
      supportedExtension = Normal (result', supportedExtension') ->
    (forall k, is_Some (result !! k) -> is_Some (result' !! k)) /\
    (forall key, key ∈ keys -> is_Some (result' !! slot key)) /\
    (forall k, (forall key, key ∈ keys -> k <> slot key) -> result' !! k = result !! k) /\
    (extensionSubtags = None -> supportedExtension' = supportedExtension) /\
    (native_indexOf E = true ->
     forall key, key ∈ keys ->
       exists fld keyLocaleData value,
         foundLocaleData = Some fld /\ fld !! key = Some keyLocaleData /\
         result' !! slot key = Some value /\ allowed_value keyLocaleData value).
Proof.
  induction keys as [| key keys IH]; intros result supp result' supp' Hloop.
  - injection Hloop as <- <-.
    split; [auto |]. split; [intros key Hk; inversion Hk |]. split; [auto |].
    split; [auto |]. intros _ key Hk. inversion Hk.
  - cbn [ResolveLocale_loop] in Hloop.
    destruct (ResolveLocale_key E extensionSubtags options foundLocaleData key)
      as [[value addition] | ex] eqn:Hkey; [| discriminate].
    simpl in Hloop. apply IH in Hloop as (H1 & H2 & H3 & H4 & H5).
    split.
    { intros k Hk. apply H1. destruct (decide (slot key = k)) as [<- | Hne].
      - rewrite lookup_insert_eq. eauto.
      - rewrite lookup_insert_ne by exact Hne. exact Hk. }
    split.
    { intros key' Hk. apply elem_of_cons in Hk as [-> | Hk]; [| auto].
      apply H1. rewrite lookup_insert_eq. eauto. }
    split.
    { intros k Hk. rewrite H3.
      - apply lookup_insert_ne. intros Heq. apply (Hk key); [apply list_elem_of_here | auto].
      - intros key' Hin. apply Hk. apply list_elem_of_further. exact Hin. }
    split.
    { intros Hnone. rewrite (H4 Hnone). subst extensionSubtags.
      rewrite (ResolveLocale_key_no_extension E _ _ _ _ _ Hkey). apply append_empty_r. }
    intros Hnative key' Hk.
    destruct (decide (key' ∈ keys)) as [Hin | Hnotin]; [exact (H5 Hnative key' Hin) |].
    apply elem_of_cons in Hk as [-> | Hk]; [| contradiction].
    destruct (ResolveLocale_key_allowed E _ _ _ _ _ _ Hnative Hkey)
      as (fld & kld & Hfld & Hkld & Hallowed).
    exists fld, kld, value. split; [exact Hfld |]. split; [exact Hkld |].
    split; [| exact Hallowed].
    rewrite H3.
    + apply lookup_insert_eq.
    + intros key'' Hin Heq. apply slot_inj in Heq as ->. contradiction.
Qed.

Lemma ResolveLocale_unfold (E : env) (availableLocales requestedLocales : list string)
    (options : gmap string prim) (relevantExtensionKeys : list string)
    (localeData : gmap string (gmap string (list string))) (result : gmap string prim) :
  ResolveLocale E availableLocales requestedLocales options relevantExtensionKeys localeData
    = Normal result ->
  exists r result' supportedExtension' locale,
    LookupMatcher E availableLocales requestedLocales = Normal r /\
    ResolveLocale_loop E ((fun x => JS.split "-" (fst x)) <$> mr_extension r) options
      (localeData !! locale_key (mr_locale r)) relevantExtensionKeys
      (<["[[dataLocale]]" := prim_of_locale (mr_locale r)]> ∅) "-u"
      = Normal (result', supportedExtension') /\
    result = <["[[locale]]" := locale]> result' /\
    ((2 <? Z.of_nat (String.length supportedExtension')) = false ->
     locale = prim_of_locale (mr_locale r)).
Proof.
  unfold ResolveLocale. destruct (length availableLocales =? 0)%nat; [discriminate |].
  cbv zeta.
  assert (Hm : (if strict_eq (get_field options "[[localeMatcher]]") (PString "lookup")
                then LookupMatcher E availableLocales requestedLocales
                else BestFitMatcher E availableLocales requestedLocales)
               = LookupMatcher E availableLocales requestedLocales)
    by (destruct (strict_eq _ _); reflexivity).
  rewrite Hm. clear Hm.
  destruct (LookupMatcher E availableLocales requestedLocales) as [r | ex]; [| discriminate].
  simpl. destruct (ResolveLocale_loop _ _ _ _ _ _ _) as [[result' supp'] | ex] eqn:Hloop;
    [| discriminate].
  simpl. intros Hr. exists r, result', supp'.
  destruct (2 <? Z.of_nat (String.length supp')).
  - destruct (mr_locale r) as [found |]; [| discriminate]. simpl in Hr.
    injection Hr as <-. eexists. split; [reflexivity |]. split; [exact Hloop |].
    split; [reflexivity | discriminate].
  - simpl in Hr. injection Hr as <-. eexists. split; [reflexivity |].
    split; [exact Hloop |]. split; [reflexivity | auto].
Qed.

(** X13.  When [ResolveLocale] returns, its Record has a [[locale]], a
    [[dataLocale]] and one field for every relevant extension key. *)
Theorem ResolveLocale_fields (E : env) (availableLocales requestedLocales : list string)
    (options : gmap string prim) (relevantExtensionKeys : list string)
    (localeData : gmap string (gmap string (list string))) (result : gmap string prim) :
  ResolveLocale E availableLocales requestedLocales options relevantExtensionKeys localeData
    = Normal result ->
  is_Some (result !! "[[locale]]") /\
  is_Some (result !! "[[dataLocale]]") /\
  forall key, key ∈ relevantExtensionKeys -> is_Some (result !! slot key).
Proof.
  intros Hr. apply ResolveLocale_unfold in Hr as (r & result' & supp' & locale & _ & Hloop & -> & _).
  apply ResolveLocale_loop_spec in Hloop as (H1 & H2 & _).
  assert (Hkeep : forall k, is_Some (result' !! k) ->
                            is_Some (<["[[locale]]" := locale]> result' !! k)).
  { intros k Hk. destruct (decide ("[[locale]]" = k)) as [<- | Hne].
    - rewrite lookup_insert_eq. eauto.
    - rewrite lookup_insert_ne by exact Hne. exact Hk. }
  split; [rewrite lookup_insert_eq; eauto |]. split.
  - apply Hkeep, H1. rewrite lookup_insert_eq. eauto.
  - intros key Hk. apply Hkeep, H2, Hk.
Qed.

Lemma ResolveLocale_fields_witness :
  let result : gmap string prim :=
    <["[[locale]]" := PString "en-u-nu-arab"]>
      (<["[[nu]]" := PString "arab"]> (<["[[dataLocale]]" := PString "en"]> ∅)) in
  is_Some (result !! "[[locale]]") /\
  is_Some (result !! "[[dataLocale]]") /\
  forall key, key ∈ ["nu"] -> is_Some (result !! slot key).
Proof.
  apply (ResolveLocale_fields (modelled_env true empty_registry None) ["en"]
           ["en-u-nu-arab"] {[ "[[localeMatcher]]" := PString "lookup" ]} ["nu"]
           sample_number_data).
  vm_compute. reflexivity.
Defined.

(** X14.  With the built-in [indexOf], the value that [ResolveLocale]
    gives a relevant extension key (other than a key named [locale]) is
    one of the values that the data of some locale lists for that key, or
    [undefined] when the list is empty. *)
Theorem ResolveLocale_allowed (E : env) (availableLocales requestedLocales : list string)
    (options : gmap string prim) (relevantExtensionKeys : list string)
    (localeData : gmap string (gmap string (list string))) (result : gmap string prim)
    (key : string) :
  native_indexOf E = true ->
  ResolveLocale E availableLocales requestedLocales options relevantExtensionKeys localeData
    = Normal result ->
  key ∈ relevantExtensionKeys ->
  key <> "locale" ->
  exists l fld keyLocaleData value,
    localeData !! l = Some fld /\ fld !! key = Some keyLocaleData /\
    result !! slot key = Some value /\ allowed_value keyLocaleData value.
Proof.
  intros Hnative Hr Hkey Hne.
  apply ResolveLocale_unfold in Hr as (r & result' & supp' & locale & _ & Hloop & -> & _).
  apply ResolveLocale_loop_spec in Hloop as (_ & _ & _ & _ & H5).
  destruct (H5 Hnative key Hkey) as (fld & kld & value & Hfld & Hkld & Hval & Hallowed).
  exists (locale_key (mr_locale r)), fld, kld, value.
  split; [exact Hfld |]. split; [exact Hkld |]. split; [| exact Hallowed].
  rewrite lookup_insert_ne; [exact Hval |].
  intros Heq. apply Hne. apply slot_inj. symmetry. exact Heq.
Qed.

Lemma ResolveLocale_allowed_witness :
  let result : gmap string prim :=
    <["[[locale]]" := PString "en-u-nu-arab"]>
      (<["[[nu]]" := PString "arab"]> (<["[[dataLocale]]" := PString "en"]> ∅)) in
  exists l fld keyLocaleData value,
    sample_number_data !! l = Some fld /\ fld !! "nu" = Some keyLocaleData /\
    result !! slot "nu" = Some value /\ allowed_value keyLocaleData value.
Proof.
  apply (ResolveLocale_allowed (modelled_env true empty_registry None) ["en"]
           ["en-u-nu-arab"] {[ "[[localeMatcher]]" := PString "lookup" ]} ["nu"]
           sample_number_data).
  - reflexivity.
  - vm_compute. reflexivity.
  - apply list_elem_of_In. simpl. auto.
  - discriminate.
Defined.

(** X15.  When no requested locale has a Unicode extension sequence and
    no relevant key is named [dataLocale], the [[locale]] that
    [ResolveLocale] returns is its [[dataLocale]]. *)
Theorem ResolveLocale_no_extension (E : env) (availableLocales requestedLocales : list string)
    (options : gmap string prim) (relevantExtensionKeys : list string)
    (localeData : gmap string (gmap string (list string))) (result : gmap string prim) :
  (forall l, l ∈ requestedLocales -> RegExp.match_all (expUnicodeExSeq E) l = []) ->
  "dataLocale" ∉ relevantExtensionKeys ->
  ResolveLocale E availableLocales requestedLocales options relevantExtensionKeys localeData
    = Normal result ->
  result !! "[[locale]]" = result !! "[[dataLocale]]".
Proof.
  intros Hnoext Hnokey Hr.
  apply ResolveLocale_unfold in Hr as (r & result' & supp' & locale & Hm & Hloop & -> & Hloc).
  assert (Hext : mr_extension r = None).
  { unfold LookupMatcher in Hm.
    destruct (LookupMatcher_loop E availableLocales requestedLocales None None)
      as [vars a] eqn:Hl.
    apply LookupMatcher_loop_spec in Hl as (_ & Hvars & Hfrom); try discriminate.
    destruct a as [l |]; [| injection Hm as <-; reflexivity].
    destruct vars as [[loc noExt] |]; [| injection Hm as <-; reflexivity].
    destruct Hfrom as [? | (loc' & noExt' & [= <- <-] & Hin)]; [discriminate |].
    rewrite (Hvars loc noExt eq_refl) in Hm.
    rewrite (replace_all_no_match _ "" loc (Hnoext loc Hin)) in Hm.
    rewrite String.eqb_refl in Hm. simpl in Hm. injection Hm as <-. reflexivity. }
  rewrite Hext in Hloop. simpl fmap in Hloop.
  apply ResolveLocale_loop_spec in Hloop as (_ & _ & H3 & H4 & _).
  rewrite (H4 eq_refl) in Hloc. rewrite (Hloc eq_refl).
  rewrite lookup_insert_eq, lookup_insert_ne by discriminate.
  rewrite H3.
  - rewrite lookup_insert_eq. reflexivity.
  - intros key Hin Heq. apply Hnokey.
    change "[[dataLocale]]" with (slot "dataLocale") in Heq.
    apply slot_inj in Heq as <-. exact Hin.
Qed.

Lemma ResolveLocale_no_extension_witness :
  let result : gmap string prim :=
    <["[[locale]]" := PString "en"]>
      (<["[[nu]]" := PString "latn"]> (<["[[dataLocale]]" := PString "en"]> ∅)) in
  result !! "[[locale]]" = result !! "[[dataLocale]]".
Proof.
  apply (ResolveLocale_no_extension (modelled_env true empty_registry None) ["en"]
           ["en-GB"] {[ "[[localeMatcher]]" := PString "lookup" ]} ["nu"]
           sample_number_data).
  - intros l Hl. apply list_elem_of_singleton in Hl as ->. reflexivity.
  - intros Hin. apply list_elem_of_singleton in Hin. discriminate.
  - vm_compute. reflexivity.
Defined.

(** ** More on the date engine *)




Lemma drop_length (n : nat) (s : string) :
  String.length (JS.drop n s) = (String.length s - n)%nat.
Proof.
  revert s. induction n as [| n IH]; intros [| c s]; simpl; try reflexivity.
  apply IH.
Qed.

Lemma take_drop_append (n : nat) (s : string) : s = JS.take n s +:+ JS.drop n s.
Proof.
  revert s. induction n as [| n IH]; intros [| c s]; try reflexivity.
  change (String c s = String c (JS.take n s +:+ JS.drop n s)). f_equal. apply IH.
Qed.

(** X18.  A component with the style ["2-digit"] is written with at most
    two characters, the last ones of what the number engine gives,
    whatever that engine is. *)
Theorem format_value_two_digit (H : date_host) (localeData : calendars)
    (internal : gmap string prim) (nf nf2 : number_format) (tm : local_time)
    (p : string) (v : option Z) (fv : jsval) :
  exists s front,
    format_value H localeData internal nf nf2 tm p (PString "2-digit") v fv =
      Normal (VPrim (PString s)) /\
    (String.length s <= 2)%nat /\
    FormatNumber H nf2 v = front +:+ s.
Proof.
  unfold format_value.
  change (strict_eq (PString "2-digit") (PString "numeric")) with false.
  change (strict_eq (PString "2-digit") (PString "2-digit")) with true.
  cbv iota zeta. set (text := FormatNumber H nf2 v).
  destruct (Nat.ltb_spec 2 (String.length text)) as [Hlong | Hshort].
  - exists (last_two text), (JS.take (String.length text - 2) text).
    split; [reflexivity |]. split.
    + unfold last_two. rewrite drop_length. lia.
    + unfold last_two. apply take_drop_append.
  - exists text, "". split; [reflexivity |]. split; [exact Hshort | reflexivity].
Qed.

(** ** More on ToDateTimeOptions and BasicFormatMatcher *)




(** ** The scores of BasicFormatMatcher *)

Lemma score_property_le (E : env) (options format : gmap string prim)
    (score : Z) (p : string) :
  score_property E options format score p <= score.
Proof.
  unfold score_property, additionPenalty, removalPenalty, longMorePenalty,
    shortMorePenalty, shortLessPenalty, longLessPenalty.
  repeat case_match; lia.
Qed.

Lemma foldl_score_le (E : env) (options format : gmap string prim) (names : list string) :
  forall score, foldl (score_property E options format) score names <= score.
Proof.
  induction names as [| p names IH]; intros score.
  - simpl. lia.
  - change (foldl (score_property E options format) score (p :: names))
      with (foldl (score_property E options format) (score_property E options format score p) names).
    pose proof (IH (score_property E options format score p)).
    pose proof (score_property_le E options format score p). lia.
Qed.

Lemma format_score_le (E : env) (options format : gmap string prim) :
  format_score E options format <= 0.
Proof. unfold format_score. apply foldl_score_le. Qed.

(** X20.  No format scores above zero, whatever the options and the
    format hold.  [BasicFormatMatcher] returns nothing only for an empty
    list of formats, what it returns is one of the formats, and when a
    format of the list scores zero, so does the one returned. *)
Theorem BasicFormatMatcher_bounds (E : env) (options : gmap string prim)
    (formats : list (gmap string prim)) :
  (forall format, format_score E options format <= 0) /\
  (BasicFormatMatcher E options formats = None <-> formats = []) /\
  (forall best, BasicFormatMatcher E options formats = Some best -> best ∈ formats) /\
  (forall format, format ∈ formats -> format_score E options format = 0 ->
     exists best, BasicFormatMatcher E options formats = Some best /\
                  format_score E options best = 0).
Proof.
  destruct (BasicFormatMatcher_loop_chosen E options formats [] None None
              ltac:(split; reflexivity)) as (bestScore & Hch).
  rewrite app_nil_l in Hch. fold (BasicFormatMatcher E options formats) in Hch.
  split; [apply format_score_le |].
  destruct (BasicFormatMatcher E options formats) as [best |].
  - destruct Hch as (i & Hi & _ & Hmax & _). split; [| split].
    + split; [discriminate |]. intros ->. rewrite lookup_nil in Hi. discriminate.
    + intros b [= <-]. apply list_elem_of_lookup. exists i. exact Hi.
    + intros format Hin Hzero. exists best. split; [reflexivity |].
      apply list_elem_of_lookup in Hin as [j Hj].
      pose proof (Hmax j format Hj) as Hle.
      pose proof (format_score_le E options best). lia.
  - destruct Hch as [-> _]. split; [| split].
    + split; reflexivity.
    + intros b Hb. discriminate.
    + intros format Hin. apply elem_of_nil in Hin. contradiction.
Qed.

(** ** resolveDateString *)

(** X21.  A calendar that has no table for a component takes the one of
    the Gregorian calendar: the result, or the error, is that of the same
    call for ["gregory"]. *)
Theorem resolveDateString_inherits (data : calendars) (ca : prim)
    (component width : string) (key : option Z) :
  data !! prim_to_string ca ≫= (.!! component) = None ->
  resolveDateString data ca component width key =
  resolveDateString data (PString "gregory") component width key.
Proof.
  intros Hnone. unfold resolveDateString. rewrite Hnone.
  change (prim_to_string (PString "gregory")) with "gregory".
  destruct (data !! "gregory") as [gregory |]; [| reflexivity].
  change (Some gregory ≫= (.!! component)) with (gregory !! component).
  destruct (gregory !! component); reflexivity.
Qed.

Lemma resolveDateString_inherits_witness :
  resolveDateString (sample_calendars !!! "en") (PString "buddhist") "dayPeriods" "am" None =
  resolveDateString (sample_calendars !!! "en") (PString "gregory") "dayPeriods" "am" None.
Proof.
  apply (resolveDateString_inherits (sample_calendars !!! "en") (PString "buddhist")
           "dayPeriods" "am" None).
  vm_compute. reflexivity.
Defined.

(** X22.  When the table of the component has names in one of the widths
    narrow, short and long, a request for any of these widths without a
    key returns names of the table: those of the width asked for when
    the table has them, otherwise those of another width. *)
Theorem resolveDateString_sideways (data : calendars) (ca : prim)
    (component width other : string) (obj : gmap string date_entry) (e : date_entry) :
  data !! prim_to_string ca ≫= (.!! component) = Some obj ->
  width ∈ ["narrow"; "short"; "long"] ->
  other ∈ ["narrow"; "short"; "long"] ->
  obj !! other = Some e ->
  exists found e',
    found ∈ ["narrow"; "short"; "long"] /\ obj !! found = Some e' /\
    resolveDateString data ca component width None = Normal (entry_value e') /\
    (is_Some (obj !! width) -> found = width).
Proof.
  intros Hobj Hwidth Hother He. unfold resolveDateString. rewrite Hobj.
  change (Normal obj ≫= ?k) with (k obj). cbv beta.
  destruct (obj !! width) as [ew |] eqn:Hw.
  - exists width, ew. split; [exact Hwidth |]. split; [exact Hw |].
    split; [reflexivity | intros _; reflexivity].
  - apply list_elem_of_In in Hwidth, Hother. simpl in Hwidth, Hother.
    assert (Hne : other <> width) by (intros ->; congruence).
    destruct Hwidth as [<- | [<- | [<- | []]]];
      destruct Hother as [<- | [<- | [<- | []]]]; try congruence;
      change (alts _) with (Some ("short", "long")) ||
      change (alts _) with (Some ("long", "narrow")) ||
      change (alts _) with (Some ("short", "narrow"));
      cbv iota beta.
    all: try (rewrite He; eexists _, _;
              split; [| split; [exact He | split; [reflexivity | intros [? [=]]]]];
              apply list_elem_of_In; simpl; tauto).
    all: case_match; [| rewrite He];
      (eexists _, _; split; [| split; [| split; [reflexivity |]]];
       [| eassumption | intros [? [=]]]; apply list_elem_of_In; simpl; tauto).
Qed.

Lemma resolveDateString_sideways_witness :
  exists found e',
    found ∈ ["narrow"; "short"; "long"] /\
    ({[ "long" := Names ["January"] ]} : gmap string date_entry) !! found = Some e' /\
    resolveDateString {[ "gregory" := {[ "months" := {[ "long" := Names ["January"] ]} ]} ]}
      (PString "gregory") "months" "narrow" None = Normal (entry_value e') /\
    (is_Some (({[ "long" := Names ["January"] ]} : gmap string date_entry) !! "narrow") ->
     found = "narrow").
Proof.
  apply (resolveDateString_sideways
           {[ "gregory" := {[ "months" := {[ "long" := Names ["January"] ]} ]} ]}
           (PString "gregory") "months" "narrow" "long"
           {[ "long" := Names ["January"] ]} (Names ["January"])).
  - vm_compute. reflexivity.
  - apply list_elem_of_In. simpl. tauto.
  - apply list_elem_of_In. simpl. tauto.
  - vm_compute. reflexivity.
Defined.

(** ** The fallback [arrIndexOf] against the built-in, where the value is found *)

Lemma get_index_integer (t : ArrayLike.array_like) (i : Q) (m : Z) :
  (i == inject_Z m)%Q -> ArrayLike.get_index t i = ArrayLike.element_at t m.
Proof.
  intros Hi. unfold ArrayLike.get_index, ArrayLike.is_integer.
  rewrite (Qfloor_comp _ _ Hi), Qfloor_Z.
  rewrite (Qeq_eq_bool (inject_Z m) i) by (symmetry; exact Hi). reflexivity.
Qed.

Lemma ArrayLike_shim_scan_spec (t : ArrayLike.array_like) (search : prim) (n : nat) :
  forall i m, (i == inject_Z m)%Q ->
    match ArrayLike.shim_scan t search n i with
    | Some r => exists k, (r == inject_Z k)%Q /\ m <= k < m + Z.of_nat n /\
                          ArrayLike.element_at t k = search /\
                          forall k', m <= k' < k -> ArrayLike.element_at t k' <> search
    | None => forall k, m <= k < m + Z.of_nat n -> ArrayLike.element_at t k <> search
    end.
Proof.
  induction n as [| n IH]; intros i m Hi.
  - intros k Hk. lia.
  - cbn [ArrayLike.shim_scan]. rewrite (get_index_integer t i m Hi).
    destruct (strict_eq (ArrayLike.element_at t m) search) eqn:Heq.
    + apply strict_eq_true in Heq. exists m.
      split; [exact Hi |]. split; [lia |]. split; [exact Heq | intros k' Hk'; lia].
    + apply strict_eq_false in Heq.
      assert (Hnext : (i + 1 == inject_Z (m + 1))%Q)
        by (rewrite inject_Z_plus, Hi; reflexivity).
      specialize (IH (i + 1)%Q (m + 1) Hnext).
      destruct (ArrayLike.shim_scan t search n (i + 1)%Q) as [r |].
      * destruct IH as (k & Hr & Hk & Hget & Hfirst). exists k.
        split; [exact Hr |]. split; [lia |]. split; [exact Hget |].
        intros k' Hk'. destruct (Z.eq_dec k' m) as [-> | Hne]; [exact Heq |].
        apply Hfirst. lia.
      * intros k Hk. destruct (Z.eq_dec k m) as [-> | Hne]; [exact Heq |].
        apply IH. lia.
Qed.

Lemma ArrayLike_first_index_from_spec (t : ArrayLike.array_like) (search : prim) (n : nat) :
  forall k, 0 <= k ->
    let r := ArrayLike.first_index_from t search n k in
    (r = -1 /\ forall j, k <= j < k + Z.of_nat n -> t !! Z.to_nat j <> Some (Some search)) \/
    (k <= r < k + Z.of_nat n /\ t !! Z.to_nat r = Some (Some search) /\
     forall j, k <= j < r -> t !! Z.to_nat j <> Some (Some search)).
Proof.
  induction n as [| n IH]; intros k Hk; cbn [ArrayLike.first_index_from].
  - left. split; [reflexivity | intros j Hj; lia].
  - assert (Hstep :
      t !! Z.to_nat k <> Some (Some search) ->
      let r := ArrayLike.first_index_from t search n (k + 1) in
      (r = -1 /\ forall j, k <= j < k + Z.of_nat (S n) -> t !! Z.to_nat j <> Some (Some search)) \/
      (k <= r < k + Z.of_nat (S n) /\ t !! Z.to_nat r = Some (Some search) /\
       forall j, k <= j < r -> t !! Z.to_nat j <> Some (Some search))).
    { intros Hne. destruct (IH (k + 1) ltac:(lia)) as [[Hr Hnone] | (Hr & Hget & Hfirst)].
      - left. split; [exact Hr |]. intros j Hj.
        destruct (Z.eq_dec j k) as [-> | Hjk]; [exact Hne | apply Hnone; lia].
      - right. split; [lia |]. split; [exact Hget |]. intros j Hj.
        destruct (Z.eq_dec j k) as [-> | Hjk]; [exact Hne | apply Hfirst; lia]. }
    destruct (t !! Z.to_nat k) as [[elementK |] |] eqn:Hk'.
    + destruct (strict_eq elementK search) eqn:Heq.
      * apply strict_eq_true in Heq. subst elementK. right.
        split; [lia |]. split; [exact Hk' | intros j Hj; lia].
      * apply strict_eq_false in Heq. apply Hstep. congruence.
    + apply Hstep. discriminate.
    + apply Hstep. discriminate.
Qed.

Lemma element_at_present (t : ArrayLike.array_like) (k : Z) (v : prim) :
  0 <= k -> t !! Z.to_nat k = Some (Some v) -> ArrayLike.element_at t k = v.
Proof.
  intros Hk Hget. unfold ArrayLike.element_at.
  destruct (Z.ltb_spec k 0); [lia |]. rewrite Hget. reflexivity.
Qed.

(** X23.  Let the receiver be any array-like, with or without holes, and
    let the start index be absent or an integer that is not negative.
    Where the value searched occurs at or after the start, and either it
    is not [undefined] or no hole comes before it, the fallback of
    [globals.js] returns the index that [Array.prototype.indexOf]
    returns.  Outside these conditions the two differ: on an array-like
    with a hole before an [undefined] the fallback finds the hole, and
    with the start one half the fallback finds nothing at all. *)
Theorem arrIndexOf_shim_agrees (t : ArrayLike.array_like) (search : prim)
    (fromIndex : option Z) (j : Z) :
  0 <= default 0 fromIndex <= j ->
  t !! Z.to_nat j = Some (Some search) ->
  (search <> PUndefined \/
   forall k, default 0 fromIndex <= k < j -> t !! Z.to_nat k <> Some None) ->
  (exists r i,
     ArrayLike.builtin_indexOf t search (inject_Z <$> fromIndex) = r /\
     ArrayLike.arrIndexOf_shim t search (inject_Z <$> fromIndex) = Some i /\
     (i == inject_Z r)%Q /\
     default 0 fromIndex <= r <= j) /\
  ArrayLike.arrIndexOf_shim [None; Some PUndefined] PUndefined None = Some 0%Q /\
  ArrayLike.builtin_indexOf [None; Some PUndefined] PUndefined None = 1 /\
  ArrayLike.arrIndexOf_shim [Some (PString "a")] (PString "a") (Some (1 # 2)%Q) = None /\
  ArrayLike.builtin_indexOf [Some (PString "a")] (PString "a") (Some (1 # 2)%Q) = 0.
Proof.
  intros Hfrom Hget Hholes. split; [| repeat split; reflexivity].
  set (start := default 0 fromIndex) in *.
  assert (Hlen : j < Z.of_nat (length t)).
  { apply lookup_lt_Some in Hget. lia. }
  (* the built-in *)
  assert (Hint : match inject_Z <$> fromIndex with
                 | Some q => ArrayLike.ToInteger q
                 | None => 0
                 end = start).
  { subst start. destruct fromIndex as [n |]; simpl in *; [| reflexivity].
    unfold ArrayLike.ToInteger.
    destruct (Qle_bool 0 (inject_Z n)); [apply Qfloor_Z | apply Qceiling_Z]. }
  assert (Hbuiltin : ArrayLike.builtin_indexOf t search (inject_Z <$> fromIndex) =
                     ArrayLike.first_index_from t search
                       (Z.to_nat (Z.of_nat (length t) - start)) start).
  { unfold ArrayLike.builtin_indexOf. rewrite Hint.
    destruct (Z.eqb_spec (Z.of_nat (length t)) 0); [lia |].
    destruct (Z.leb_spec (Z.of_nat (length t)) start); [lia |].
    destruct (Z.leb_spec 0 start); [reflexivity | lia]. }
  (* the fallback *)
  set (i0 := match inject_Z <$> fromIndex with
             | Some q => if Qeq_bool q 0 then 0%Q else q
             | None => 0%Q
             end).
  assert (Hi0 : (i0 == inject_Z start)%Q).
  { subst i0 start. destruct fromIndex as [n |]; simpl; [| reflexivity].
    destruct (Qeq_bool (inject_Z n) 0) eqn:Hz; [| reflexivity].
    apply Qeq_bool_eq in Hz. symmetry. exact Hz. }
  assert (Hfuel : Z.to_nat (Qceiling (inject_Z (Z.of_nat (length t)) - i0)%Q) =
                  Z.to_nat (Z.of_nat (length t) - start)).
  { f_equal. rewrite <- (Qceiling_Z (Z.of_nat (length t) - start)).
    apply Qceiling_comp. rewrite Hi0. unfold Z.sub.
    rewrite inject_Z_plus, inject_Z_opp. reflexivity. }
  assert (Hshim : ArrayLike.arrIndexOf_shim t search (inject_Z <$> fromIndex) =
                  ArrayLike.shim_scan t search
                    (Z.to_nat (Z.of_nat (length t) - start)) i0).
  { unfold ArrayLike.arrIndexOf_shim.
    destruct (Nat.eqb_spec (length t) 0); [lia |].
    cbv zeta. fold i0. rewrite Hfuel. reflexivity. }
  rewrite Hbuiltin, Hshim.
  set (n := Z.to_nat (Z.of_nat (length t) - start)).
  pose proof (ArrayLike_shim_scan_spec t search n i0 start Hi0) as Hs.
  destruct (ArrayLike_first_index_from_spec t search n start ltac:(lia))
    as [[Hr Hnone] | (Hr & Hgetr & Hfirst)].
  - exfalso. apply (Hnone j); [subst n; lia | exact Hget].
  - set (r := ArrayLike.first_index_from t search n start) in *.
    assert (Hrj : r <= j).
    { destruct (Z.le_gt_cases r j) as [Hle | Hgt]; [exact Hle |].
      exfalso. apply (Hfirst j); [lia | exact Hget]. }
    destruct (ArrayLike.shim_scan t search n i0) as [i |].
    + destruct Hs as (k & Hik & Hk & Hgetk & Hfirstk).
      exists r, i. split; [reflexivity |]. split; [reflexivity |].
      split; [| lia].
      assert (Hkr : k = r).
      { destruct (Z.lt_trichotomy k r) as [Hlt | [Heq | Hgt]]; [| exact Heq |].
        - exfalso.
          assert (Hnot : t !! Z.to_nat k <> Some (Some search)) by (apply Hfirst; lia).
          unfold ArrayLike.element_at in Hgetk.
          destruct (Z.ltb_spec k 0); [lia |].
          destruct (t !! Z.to_nat k) as [[v |] |] eqn:Hk'.
          + simpl in Hgetk. subst v. congruence.
          + simpl in Hgetk. destruct Hholes as [Hdef | Hdense].
            * congruence.
            * apply (Hdense k); [lia | exact Hk'].
          + apply lookup_ge_None in Hk'. lia.
        - exfalso. apply (Hfirstk r); [lia |].
          apply element_at_present; [lia | exact Hgetr]. }
      rewrite Hik, Hkr. reflexivity.
    + exfalso. apply (Hs j); [subst n; lia |].
      apply element_at_present; [lia | exact Hget].
Qed.

Lemma arrIndexOf_shim_agrees_witness :
  (exists r i,
     ArrayLike.builtin_indexOf [None; Some (PString "a"); Some (PString "b")] (PString "b")
       (inject_Z <$> Some 1) = r /\
     ArrayLike.arrIndexOf_shim [None; Some (PString "a"); Some (PString "b")] (PString "b")
       (inject_Z <$> Some 1) = Some i /\
     (i == inject_Z r)%Q /\
     default 0 (Some 1) <= r <= 2) /\
  ArrayLike.arrIndexOf_shim [None; Some PUndefined] PUndefined None = Some 0%Q /\
  ArrayLike.builtin_indexOf [None; Some PUndefined] PUndefined None = 1 /\
  ArrayLike.arrIndexOf_shim [Some (PString "a")] (PString "a") (Some (1 # 2)%Q) = None /\
  ArrayLike.builtin_indexOf [Some (PString "a")] (PString "a") (Some (1 # 2)%Q) = 0.
Proof.
  apply (arrIndexOf_shim_agrees [None; Some (PString "a"); Some (PString "b")] (PString "b")
           (Some 1) 2).
  - simpl. lia.
  - reflexivity.
  - left. discriminate.
Defined.

(** ** 9.2.10 GetNumberOption *)

(** X24.  For a property that is not [undefined], [GetNumberOption]
    returns only for a value that converts to a finite number between
    [minimum] and [maximum], and then it returns the floor of that
    number, which is at most [maximum] and, when [minimum] is an integer,
    at least [minimum]; it returns for every such value, and when it
    throws, it throws its RangeError. *)
Theorem GetNumberOption_range (Number : prim -> number) (options : options_object)
    (property : string) (minimum maximum : Q) (fallback : option number) :
  defined (get_option options property) = true ->
  (forall r,
     GetNumberOption Number options property minimum maximum fallback = Normal r ->
     exists q,
       Number (get_option options property) = Rational q /\
       r = Some (Rational (inject_Z (Qfloor q))) /\
       (minimum <= q)%Q /\ (q <= maximum)%Q /\
       (inject_Z (Qfloor q) <= maximum)%Q /\
       (forall m : Z, (minimum == inject_Z m)%Q -> (minimum <= inject_Z (Qfloor q))%Q)) /\
  (forall q, Number (get_option options property) = Rational q ->
     (minimum <= q)%Q -> (q <= maximum)%Q ->
     GetNumberOption Number options property minimum maximum fallback =
       Normal (Some (Rational (inject_Z (Qfloor q))))) /\
  (forall e,
     GetNumberOption Number options property minimum maximum fallback = Throw e ->
     e = RangeError "Value is not a number or outside accepted range").
Proof.
  intros Hdef. unfold GetNumberOption. rewrite Hdef. cbv zeta.
  split; [| split].
  - intros r Hr.
    destruct (Number (get_option options property)) as [| | | q]; simpl in Hr;
      try discriminate.
    destruct (Qle_bool minimum q) eqn:Hmin; simpl in Hr; [| discriminate].
    destruct (Qle_bool q maximum) eqn:Hmax; simpl in Hr; [| discriminate].
    injection Hr as <-. apply Qle_bool_iff in Hmin, Hmax.
    exists q. split; [reflexivity |]. split; [reflexivity |].
    split; [exact Hmin |]. split; [exact Hmax |]. split.
    + apply Qle_trans with q; [apply Qfloor_le | exact Hmax].
    + intros m Hm. rewrite Hm. rewrite <- Zle_Qle.
      rewrite <- (Qfloor_Z m). apply Qfloor_resp_le. rewrite <- Hm. exact Hmin.
  - intros q Hq Hmin Hmax. rewrite Hq. simpl.
    apply Qle_bool_iff in Hmin, Hmax. rewrite Hmin, Hmax. reflexivity.
  - intros e He.
    destruct (isNaN _ || number_lt _ minimum || number_gt _ maximum);
      [injection He as <-; reflexivity | discriminate].
Qed.

Lemma GetNumberOption_range_witness :
  let options := {| own := {[ "minimumIntegerDigits" := PNumber 2 ]}; proto := None |} in
  (forall r,
     GetNumberOption integer_Number options "minimumIntegerDigits"
       (inject_Z 1) (inject_Z 21) None = Normal r ->
     exists q,
       integer_Number (get_option options "minimumIntegerDigits") = Rational q /\
       r = Some (Rational (inject_Z (Qfloor q))) /\
       (inject_Z 1 <= q)%Q /\ (q <= inject_Z 21)%Q /\
       (inject_Z (Qfloor q) <= inject_Z 21)%Q /\
       (forall m : Z, (inject_Z 1 == inject_Z m)%Q -> (inject_Z 1 <= inject_Z (Qfloor q))%Q)) /\
  (forall q, integer_Number (get_option options "minimumIntegerDigits") = Rational q ->
     (inject_Z 1 <= q)%Q -> (q <= inject_Z 21)%Q ->
     GetNumberOption integer_Number options "minimumIntegerDigits"
       (inject_Z 1) (inject_Z 21) None =
       Normal (Some (Rational (inject_Z (Qfloor q))))) /\
  (forall e,
     GetNumberOption integer_Number options "minimumIntegerDigits"
       (inject_Z 1) (inject_Z 21) None = Throw e ->
     e = RangeError "Value is not a number or outside accepted range").
Proof.
  apply (GetNumberOption_range integer_Number
           {| own := {[ "minimumIntegerDigits" := PNumber 2 ]}; proto := None |}
           "minimumIntegerDigits" (inject_Z 1) (inject_Z 21) None).
  vm_compute. reflexivity.
Defined.

(** ** 12.1.1.1 InitializeDateTimeFormat *)






Lemma keeps_on_throw_keeps {A : Type} (k : string) (c : init A) :
  keeps k c -> keeps_on_throw k c.
Proof.
  intros Hc internal e internal' Hrun. specialize (Hc internal).
  rewrite Hrun in Hc. exact Hc.
Qed.




Ltac component_keys :=
  apply Forall_forall; intros ? Hin; apply list_elem_of_In in Hin; simpl in Hin;
  repeat (destruct Hin as [<- | Hin]; [intros Heq; vm_compute in Heq; discriminate Heq |]);
  destruct Hin.







Lemma copy_components_Some (format : gmap string prim) (props : list string) :
  forall internal,
    copy_components (Some format) props internal =
      (Normal tt, copied format props internal).
Proof.
  induction props as [| prop props IH]; intros internal; [reflexivity |].
  change (copy_components (Some format) (prop :: props) internal)
    with (init_bind
            (match format !! prop with
             | Some p => set_internal (slot prop) p
             | None => init_ret tt
             end)
            (fun _ => copy_components (Some format) props) internal).
  change (copied format (prop :: props) internal)
    with (copied format props (match format !! prop with
                               | Some p => <[slot prop := p]> internal
                               | None => internal
                               end)).
  unfold init_bind. destruct (format !! prop); simpl; apply IH.
Qed.

Lemma copied_other (format : gmap string prim) (props : list string) (k : string) :
  forall internal,
    Forall (fun prop => k <> slot prop) props ->
    copied format props internal !! k = internal !! k.
Proof.
  induction props as [| prop props IH]; intros internal Hne; [reflexivity |].
  apply Forall_cons in Hne as [Hk Hrest].
  change (copied format (prop :: props) internal)
    with (copied format props (match format !! prop with
                               | Some p => <[slot prop := p]> internal
                               | None => internal
                               end)).
  rewrite IH by exact Hrest.
  destruct (format !! prop); [| reflexivity].
  apply lookup_insert_ne. congruence.
Qed.

Lemma copied_snoc (format : gmap string prim) (props : list string) (prop : string)
    (internal : gmap string prim) :
  copied format (props ++ [prop]) internal =
    match format !! prop with
    | Some p => <[slot prop := p]> (copied format props internal)
    | None => copied format props internal
    end.
Proof. unfold copied. rewrite foldl_snoc. reflexivity. Qed.

Lemma copied_lookup (format internal : gmap string prim) (props : list string) :
  forall p,
    copied format props internal !! slot p =
      match (if decide (p ∈ props) then format !! p else None) with
      | Some v => Some v
      | None => internal !! slot p
      end.
Proof.
  induction props as [| q props IH] using rev_ind; intros p.
  - destruct (decide (p ∈ [])) as [Hin | _]; [| reflexivity].
    apply elem_of_nil in Hin. contradiction.
  - rewrite copied_snoc. destruct (format !! q) as [w |] eqn:Hq.
    + destruct (decide (p = q)) as [-> | Hne].
      * rewrite lookup_insert_eq.
        destruct (decide (q ∈ props ++ [q])) as [_ | Hnot].
        -- rewrite Hq. reflexivity.
        -- exfalso. apply Hnot. apply elem_of_app. right. apply list_elem_of_here.
      * rewrite lookup_insert_ne by (intros Heq; apply Hne; symmetry;
                                     apply slot_inj; exact Heq).
        rewrite IH.
        destruct (decide (p ∈ props)) as [Hin | Hnot];
          destruct (decide (p ∈ props ++ [q])) as [Hin' | Hnot']; try reflexivity.
        -- exfalso. apply Hnot'. apply elem_of_app. left. exact Hin.
        -- exfalso. apply elem_of_app in Hin' as [Hin' | Hin']; [contradiction |].
           apply list_elem_of_singleton in Hin'. contradiction.
    + rewrite IH.
      destruct (decide (p ∈ props)) as [Hin | Hnot];
        destruct (decide (p ∈ props ++ [q])) as [Hin' | Hnot']; try reflexivity.
      * exfalso. apply Hnot'. apply elem_of_app. left. exact Hin.
      * apply elem_of_app in Hin' as [Hin' | Hin']; [contradiction |].
        apply list_elem_of_singleton in Hin'. subst p. rewrite Hq. reflexivity.
Qed.

Lemma init_bind_lift_returns {A B : Type} (c : completion A) (f : A -> init B)
    (internal internal' : gmap string prim) (b : B) :
  init_bind (lift c) f internal = (Normal b, internal') ->
  exists a, c = Normal a /\ f a internal = (Normal b, internal').
Proof.
  unfold init_bind, lift. destruct c as [a | e]; [| discriminate].
  intros Hrun. exists a. split; [reflexivity | exact Hrun].
Qed.

Lemma init_bind_set {B : Type} (k : string) (v : prim) (f : unit -> init B)
    (internal : gmap string prim) :
  init_bind (set_internal k v) f internal = f tt (<[k := v]> internal).
Proof. reflexivity. Qed.

Lemma init_bind_returns {A B : Type} (c : init A) (f : A -> init B)
    (internal internal' : gmap string prim) (b : B) :
  init_bind c f internal = (Normal b, internal') ->
  exists a middle, c internal = (Normal a, middle) /\ f a middle = (Normal b, internal').
Proof.
  unfold init_bind. destruct (c internal) as [[a | e] middle]; [| discriminate].
  intros Hrun. exists a, middle. split; [reflexivity | exact Hrun].
Qed.

Lemma BasicFormatMatcher_member (E : env) (options : gmap string prim)
    (formats : list (gmap string prim)) (best : gmap string prim) :
  BasicFormatMatcher E options formats = Some best -> best ∈ formats.
Proof.
  intros Hbest.
  destruct (BasicFormatMatcher_loop_chosen E options formats [] None None
              ltac:(split; reflexivity)) as (bestScore & Hch).
  rewrite app_nil_l in Hch. fold (BasicFormatMatcher E options formats) in Hch.
  rewrite Hbest in Hch. destruct Hch as (i & Hi & _).
  apply list_elem_of_lookup. exists i. exact Hi.
Qed.

Lemma resolve_timeZone_returns (tz tz' : prim) :
  resolve_timeZone tz = Normal tz' ->
  (tz = PUndefined /\ tz' = PUndefined) \/
  (exists s, tz = PString s /\ toLatinUpperCase s = "UTC" /\ tz' = PString "UTC").
Proof.
  unfold resolve_timeZone. destruct tz as [| | b | n | s]; simpl.
  - intros [= <-]. left. split; reflexivity.
  - discriminate.
  - discriminate.
  - discriminate.
  - destruct (strict_eq (PString (toLatinUpperCase s)) (PString "UTC")) eqn:Heq; simpl;
      [| discriminate].
    intros [= <-]. apply strict_eq_true in Heq. injection Heq as Heq.
    right. exists s. split; [reflexivity |]. split; [exact Heq |]. rewrite Heq. reflexivity.
Qed.

Lemma get_field_insert_eq (m : gmap string prim) (k : string) (v : prim) :
  get_field (<[k := v]> m) k = v.
Proof. unfold get_field. rewrite lookup_insert_eq. reflexivity. Qed.

Lemma get_field_insert_ne (m : gmap string prim) (k k' : string) (v : prim) :
  k <> k' -> get_field (<[k := v]> m) k' = get_field m k'.
Proof. intros Hne. unfold get_field. rewrite lookup_insert_ne by exact Hne. reflexivity. Qed.

Lemma resolve_pattern_returns (dataLocaleData : date_locale_data) (best : gmap string prim)
    (hr12 pattern : prim) (m m' : gmap string prim) :
  resolve_pattern dataLocaleData (Some best) hr12 m = (Normal pattern, m') ->
  m !! "[[hour12]]" = None ->
  (forall k, k <> "[[hour12]]" -> k <> "[[hourNo0]]" -> m' !! k = m !! k) /\
  pattern = get_field best
              (if strict_eq (get_field m' "[[hour12]]") (PBool true)
               then "pattern12" else "pattern").
Proof.
  intros Hrun Hfresh. unfold resolve_pattern in Hrun.
  unfold init_bind at 1 in Hrun. unfold get_internal in Hrun. cbv beta iota in Hrun.
  destruct (truthy (get_field m "[[hour]]")).
  - cbv zeta in Hrun. rewrite init_bind_set in Hrun.
    set (clock := if strict_eq hr12 PUndefined then dd_hour12 dataLocaleData else hr12) in *.
    destruct (strict_eq clock (PBool true)) eqn:Hclock.
    + rewrite init_bind_set in Hrun. unfold lift, format_field in Hrun.
      injection Hrun as <- <-. split.
      * intros k H12 Hno0. rewrite !lookup_insert_ne by congruence. reflexivity.
      * rewrite get_field_insert_ne by discriminate.
        rewrite get_field_insert_eq, Hclock. reflexivity.
    + unfold lift, format_field in Hrun. injection Hrun as <- <-. split.
      * intros k H12 Hno0. rewrite lookup_insert_ne by congruence. reflexivity.
      * rewrite get_field_insert_eq, Hclock. reflexivity.
  - unfold lift, format_field in Hrun. injection Hrun as <- <-. split.
    + intros k _ _. reflexivity.
    + replace (get_field m "[[hour12]]") with PUndefined
        by (unfold get_field; rewrite Hfresh; reflexivity).
      reflexivity.
Qed.

Lemma InitializeDateTimeFormat_steps_returns (E : env) (D : DateTimeFormat_internals)
    (locales : locales_arg) (options : options_arg) (internal internal' : gmap string prim) :
  InitializeDateTimeFormat_steps E D locales options internal = (Normal tt, internal') ->
  exists options' opt r tz dataLocaleData best hr12 pattern m',
    ToDateTimeOptions options "any" "date" = Normal options' /\
    component_options E options' dateTimeComponents ∅ = Normal opt /\
    dtf_localeData D !! prim_to_string (get_field r "[[dataLocale]]") = Some dataLocaleData /\
    BasicFormatMatcher E opt (dd_formats dataLocaleData) = Some best /\
    resolve_timeZone (get_option options' "timeZone") = Normal tz /\
    resolve_pattern dataLocaleData (Some best) hr12
      (copied best component_names
         (<["[[timeZone]]" := tz]>
            (<["[[dataLocale]]" := get_field r "[[dataLocale]]"]>
               (<["[[numberingSystem]]" := get_field r "[[nu]]"]>
                  (<["[[calendar]]" := get_field r "[[ca]]"]>
                     (<["[[locale]]" := get_field r "[[locale]]"]> internal))))))
      = (Normal pattern, m') /\
    internal' = <["[[initializedDateTimeFormat]]" := PBool true]>
                  (<["[[boundFormat]]" := PUndefined]> (<["[[pattern]]" := pattern]> m')).
Proof.
  intros Hrun. unfold InitializeDateTimeFormat_steps in Hrun.
  apply init_bind_lift_returns in Hrun as (requestedLocales & _ & Hrun). cbv beta in Hrun.
  apply init_bind_lift_returns in Hrun as (options' & Hoptions & Hrun). cbv beta in Hrun.
  apply init_bind_lift_returns in Hrun as (matcher & _ & Hrun). cbv beta zeta in Hrun.
  apply init_bind_lift_returns in Hrun as (r & _ & Hrun). cbv beta in Hrun.
  rewrite !init_bind_set in Hrun. cbv beta zeta in Hrun.
  apply init_bind_lift_returns in Hrun as (tz & Htz & Hrun). cbv beta in Hrun.
  rewrite init_bind_set in Hrun. cbv beta in Hrun.
  apply init_bind_lift_returns in Hrun as (opt & Hopt & Hrun). cbv beta in Hrun.
  apply init_bind_lift_returns in Hrun as (dataLocaleData & Hdata & Hrun).
  cbv beta zeta in Hrun.
  apply init_bind_lift_returns in Hrun as (fmatcher & _ & Hrun). cbv beta zeta in Hrun.
  assert (Hsame : (if strict_eq fmatcher (PString "basic")
                   then BasicFormatMatcher E opt (dd_formats dataLocaleData)
                   else BestFitFormatMatcher E opt (dd_formats dataLocaleData))
                  = BasicFormatMatcher E opt (dd_formats dataLocaleData)).
  { destruct (strict_eq fmatcher (PString "basic")); reflexivity. }
  rewrite Hsame in Hrun. clear Hsame.
  destruct (BasicFormatMatcher E opt (dd_formats dataLocaleData)) as [best |] eqn:Hbest;
    [| discriminate].
  apply init_bind_returns in Hrun as ([] & middle & Hcopy & Hrun).
  rewrite copy_components_Some in Hcopy. apply pair_equal_spec in Hcopy as [_ Hmiddle].
  subst middle.
  apply init_bind_lift_returns in Hrun as (hr12 & _ & Hrun). cbv beta in Hrun.
  apply init_bind_returns in Hrun as (pattern & m' & Hpattern & Hrun).
  rewrite !init_bind_set in Hrun. unfold set_internal in Hrun. injection Hrun as <-.
  exists options', opt, r, tz, dataLocaleData, best, hr12, pattern, m'.
  split; [exact Hoptions |]. split; [exact Hopt |]. split.
  - destruct (dtf_localeData D !! prim_to_string (get_field r "[[dataLocale]]"));
      [injection Hdata as ->; reflexivity | discriminate].
  - split; [exact Hbest |]. split; [exact Htz |]. split; [exact Hpattern | reflexivity].
Qed.

(** X26.  What a successful initialisation leaves in the object.  The
    locale whose data is used has date data.  The components are those
    of one of its formats, the one that [BasicFormatMatcher] picks for
    the options: a component is an internal property exactly when that
    format has it, with the style of the format, not the one requested.
    The pattern is [pattern12] of that format when [[hour12]] has been
    set to [true] and [pattern] otherwise.  The time zone is what step 16
    makes of the option, [undefined] or ["UTC"], and the getter of
    [format] accepts the object. *)
Theorem InitializeDateTimeFormat_resolved (E : env) (D : DateTimeFormat_internals)
    (H : date_host) (locales : locales_arg) (options : options_arg) (obj : intl_object) :
  InitializeDateTimeFormat E D (Normal tt) None locales options = (Normal tt, obj) ->
  exists internal options' opt dataLocaleData best,
    obj = Some internal /\
    dtf_localeData D !! prim_to_string (get_field internal "[[dataLocale]]")
      = Some dataLocaleData /\
    ToDateTimeOptions options "any" "date" = Normal options' /\
    component_options E options' dateTimeComponents ∅ = Normal opt /\
    BasicFormatMatcher E opt (dd_formats dataLocaleData) = Some best /\
    best ∈ dd_formats dataLocaleData /\
    (forall p, p ∈ component_names -> internal !! slot p = best !! p) /\
    get_field internal "[[pattern]]" =
      get_field best (if strict_eq (get_field internal "[[hour12]]") (PBool true)
                      then "pattern12" else "pattern") /\
    resolve_timeZone (get_option options' "timeZone")
      = Normal (get_field internal "[[timeZone]]") /\
    (get_field internal "[[timeZone]]" = PUndefined \/
     get_field internal "[[timeZone]]" = PString "UTC") /\
    (forall x, format_getter H D obj x =
               FormatDateTime H (dd_calendars <$> dtf_localeData D) internal x).
Proof.
  unfold InitializeDateTimeFormat.
  change (getInternalProperties None) with (∅ : gmap string prim).
  change (strict_eq (get_field ∅ "[[initializedIntlObject]]") (PBool true)) with false.
  cbv iota.
  destruct (InitializeDateTimeFormat_steps E D locales options
              (<["[[initializedIntlObject]]" := PBool true]> ∅))
    as [outcome internal] eqn:Hsteps.
  intros Hrun. apply pair_equal_spec in Hrun as [-> <-].
  apply InitializeDateTimeFormat_steps_returns in Hsteps
    as (options' & opt & r & tz & dataLocaleData & best & hr12 & pattern & m'
        & Hoptions & Hopt & Hdata & Hbest & Htz & Hpattern & ->).
  set (base := <["[[timeZone]]" := tz]>
                 (<["[[dataLocale]]" := get_field r "[[dataLocale]]"]>
                    (<["[[numberingSystem]]" := get_field r "[[nu]]"]>
                       (<["[[calendar]]" := get_field r "[[ca]]"]>
                          (<["[[locale]]" := get_field r "[[locale]]"]>
                             (<["[[initializedIntlObject]]" := PBool true]> ∅)))))) in *.
  assert (Hbase : forall k, k <> "[[timeZone]]" -> k <> "[[dataLocale]]" ->
                    k <> "[[numberingSystem]]" -> k <> "[[calendar]]" ->
                    k <> "[[locale]]" -> k <> "[[initializedIntlObject]]" ->
                    base !! k = None).
  { intros k ? ? ? ? ? ?. subst base. rewrite !lookup_insert_ne by congruence.
    apply lookup_empty. }
  assert (Hcopied12 : copied best component_names base !! "[[hour12]]" = None).
  { rewrite copied_other by component_keys. apply Hbase; discriminate. }
  destruct (resolve_pattern_returns _ _ _ _ _ _ Hpattern Hcopied12) as [Hkeep ->].
  set (final := <["[[initializedDateTimeFormat]]" := PBool true]>
                  (<["[[boundFormat]]" := PUndefined]> (<["[[pattern]]" := _]> m'))).
  assert (Hfinal : forall k, k <> "[[initializedDateTimeFormat]]" -> k <> "[[boundFormat]]" ->
                     k <> "[[pattern]]" -> final !! k = m' !! k).
  { intros k ? ? ?. subst final. rewrite !lookup_insert_ne by congruence. reflexivity. }
  assert (Hfield : forall k, k <> "[[initializedDateTimeFormat]]" -> k <> "[[boundFormat]]" ->
                     k <> "[[pattern]]" -> get_field final k = get_field m' k).
  { intros k ? ? ?. unfold get_field. rewrite Hfinal by assumption. reflexivity. }
  assert (Hlocale : get_field final "[[dataLocale]]" = get_field r "[[dataLocale]]").
  { rewrite Hfield by discriminate. unfold get_field at 1.
    rewrite Hkeep by discriminate. rewrite copied_other by component_keys.
    subst base. rewrite lookup_insert_ne by discriminate. rewrite lookup_insert_eq.
    reflexivity. }
  assert (Hzone : get_field final "[[timeZone]]" = tz).
  { rewrite Hfield by discriminate. unfold get_field at 1.
    rewrite Hkeep by discriminate. rewrite copied_other by component_keys.
    subst base. rewrite lookup_insert_eq. reflexivity. }
  exists final, options', opt, dataLocaleData, best.
  split; [reflexivity |]. split; [rewrite Hlocale; exact Hdata |].
  split; [exact Hoptions |]. split; [exact Hopt |]. split; [exact Hbest |].
  split; [exact (BasicFormatMatcher_member _ _ _ _ Hbest) |].
  split; [| split; [| split; [rewrite Hzone; exact Htz | split]]].
  - intros p Hp.
    assert (Hkeys : Forall (fun prop => slot prop <> "[[initializedDateTimeFormat]]" /\
                                        slot prop <> "[[boundFormat]]" /\
                                        slot prop <> "[[pattern]]" /\
                                        slot prop <> "[[hour12]]" /\
                                        slot prop <> "[[hourNo0]]" /\
                                        slot prop <> "[[timeZone]]" /\
                                        slot prop <> "[[dataLocale]]" /\
                                        slot prop <> "[[numberingSystem]]" /\
                                        slot prop <> "[[calendar]]" /\
                                        slot prop <> "[[locale]]" /\
                                        slot prop <> "[[initializedIntlObject]]")
                     component_names).
    { apply Forall_forall. intros q Hq. apply list_elem_of_In in Hq. simpl in Hq.
      repeat (destruct Hq as [<- | Hq];
              [repeat split; intros Heq; vm_compute in Heq; discriminate Heq |]).
      destruct Hq. }
    rewrite Forall_forall in Hkeys.
    destruct (Hkeys p Hp) as (? & ? & ? & ? & ? & ? & ? & ? & ? & ? & ?).
    rewrite Hfinal by assumption. rewrite Hkeep by assumption.
    rewrite copied_lookup. destruct (decide (p ∈ component_names)); [| contradiction].
    destruct (best !! p); [reflexivity |]. apply Hbase; assumption.
  - subst final. rewrite get_field_insert_ne by discriminate.
    rewrite get_field_insert_ne by discriminate. rewrite get_field_insert_eq.
    rewrite !get_field_insert_ne by discriminate. reflexivity.
  - rewrite Hzone.
    destruct (resolve_timeZone_returns _ _ Htz) as [[_ ->] | (s & _ & _ & ->)];
      [left | right]; reflexivity.
  - intros x. unfold format_getter. simpl getInternalProperties.
    subst final. rewrite get_field_insert_eq. reflexivity.
Qed.

Lemma InitializeDateTimeFormat_resolved_witness :
  let E := modelled_env true empty_registry None in
  let obj := (InitializeDateTimeFormat E sample_internals (Normal tt) None
                (LocalesString "en") OptionsUndefined).2 in
  exists internal options' opt dataLocaleData best,
    obj = Some internal /\
    dtf_localeData sample_internals !! prim_to_string (get_field internal "[[dataLocale]]")
      = Some dataLocaleData /\
    ToDateTimeOptions OptionsUndefined "any" "date" = Normal options' /\
    component_options E options' dateTimeComponents ∅ = Normal opt /\
    BasicFormatMatcher E opt (dd_formats dataLocaleData) = Some best /\
    best ∈ dd_formats dataLocaleData /\
    (forall p, p ∈ component_names -> internal !! slot p = best !! p) /\
    get_field internal "[[pattern]]" =
      get_field best (if strict_eq (get_field internal "[[hour12]]") (PBool true)
                      then "pattern12" else "pattern") /\
    resolve_timeZone (get_option options' "timeZone")
      = Normal (get_field internal "[[timeZone]]") /\
    (get_field internal "[[timeZone]]" = PUndefined \/
     get_field internal "[[timeZone]]" = PString "UTC") /\
    (forall x, format_getter sample_host sample_internals obj x =
               FormatDateTime sample_host (dd_calendars <$> dtf_localeData sample_internals)
                 internal x).
Proof.
  apply (InitializeDateTimeFormat_resolved (modelled_env true empty_registry None)
           sample_internals sample_host (LocalesString "en") OptionsUndefined).
  vm_compute. reflexivity.
Defined.
